(** * ALF: array-based lock-free queue ([linux/alf_queue.h])

    A shallow embedding of the queue header: the ring and cursor
    structure, the three families of transfer helpers, the advisory
    introspection functions, and the multi-producer enqueue and
    multi-consumer dequeue, first as run by a single caller and then as
    per-thread step machines under an interleaving scheduler. *)

From Stdlib Require Import ZArith List Lia Bool.
Import ListNotations.
Local Open Scope Z_scope.

(** ** Machine integers and array cells *)

(** A [u32] value is kept as a [Z] in [0, 2^32); [u32] is the wrap-around
    of unsigned arithmetic. *)
Definition u32 (x : Z) : Z := x mod 2 ^ 32.

(** The helpers keep their loop counters in [int] variables.  Such a
    variable is represented by its 32-bit pattern, and [sint] is the
    signed value the pattern denotes when it is used as an array
    subscript. *)
Definition sint (x : Z) : Z := if x <? 2 ^ 31 then x else x - 2 ^ 32.

(** [void *]: an opaque reference, never dereferenced by the queue. *)
Definition val : Type := Z.

(** A C array seen from its base pointer: cell [i] is the object at
    [base + i].  Cells outside the bounds of the array exist (they are
    whatever memory is adjacent), which is what an out-of-range subscript
    touches. *)
Definition cells : Type := Z -> val.

Definition store (m : cells) (i : Z) (v : val) : cells :=
  fun j => if j =? i then v else m j.

(** [memcpy(&dst[d], &src[s], cnt * sizeof(void * ))] *)
Definition memcpy (dst : cells) (d : Z) (src : cells) (s : Z) (cnt : Z) : cells :=
  fun j => if (d <=? j) && (j <? d + cnt) then src (s + (j - d)) else dst j.

(** The first [n] cells of an array, as a list. *)
Definition elements (m : cells) (n : Z) : list val :=
  map (fun i => m (Z.of_nat i)) (seq 0 (Z.to_nat n)).

(** An array holding the list [l] in its first cells. *)
Definition array_of (l : list val) : cells :=
  fun i => nth (Z.to_nat i) l 0.

(** ** The queue structure *)

Record alf_actor : Type := mk_actor { head : Z; tail : Z }.

Record alf_queue : Type := mk_queue {
  size : Z;
  mask : Z;
  flags : Z;
  producer : alf_actor;
  consumer : alf_actor;
  ring : cells
}.

Definition set_ring (q : alf_queue) (r : cells) : alf_queue :=
  mk_queue (size q) (mask q) (flags q) (producer q) (consumer q) r.

Definition set_producer (q : alf_queue) (a : alf_actor) : alf_queue :=
  mk_queue (size q) (mask q) (flags q) a (consumer q) (ring q).

Definition set_consumer (q : alf_queue) (a : alf_actor) : alf_queue :=
  mk_queue (size q) (mask q) (flags q) (producer q) a (ring q).

Definition ENOBUFS : Z := 105.

(** ** Transfer helpers *)

Module Helpers.

(** Loop of [__helper_alf_enqueue_store_simple]: [k] iterations remain,
    [i] and [index] are the two [int] variables. *)
Fixpoint enqueue_store_simple_loop (k : nat) (i index : Z) (sz : Z)
    (ptr ring0 : cells) : cells :=
  match k with
  | O => ring0
  | S k' =>
      let ring1 := store ring0 (sint index) (ptr (sint i)) in
      let index1 := if index =? sz then 0 else index in
      enqueue_store_simple_loop k' (u32 (i + 1)) (u32 (index1 + 1)) sz ptr ring1
  end.

Definition __helper_alf_enqueue_store_simple (p_head c_tail : Z)
    (q : alf_queue) (ptr : cells) (n : Z) : alf_queue :=
  set_ring q (enqueue_store_simple_loop (Z.to_nat n) 0 p_head (size q) ptr (ring q)).

(** Loop of [__helper_alf_enqueue_store_mask]. *)
Fixpoint enqueue_store_mask_loop (k : nat) (i index : Z) (msk : Z)
    (ptr ring0 : cells) : cells :=
  match k with
  | O => ring0
  | S k' =>
      let ring1 := store ring0 (Z.land index msk) (ptr (sint i)) in
      enqueue_store_mask_loop k' (u32 (i + 1)) (u32 (index + 1)) msk ptr ring1
  end.

Definition __helper_alf_enqueue_store_mask (p_head c_tail : Z)
    (q : alf_queue) (ptr : cells) (n : Z) : alf_queue :=
  set_ring q (enqueue_store_mask_loop (Z.to_nat n) 0 p_head (mask q) ptr (ring q)).

Definition __helper_alf_enqueue_store_memcpy (p_head c_tail : Z)
    (q : alf_queue) (ptr : cells) (n : Z) : alf_queue :=
  if c_tail <=? p_head then
    set_ring q (memcpy (ring q) p_head ptr 0 n)
  else
    let dif := u32 (size q - c_tail) in
    let ring1 := if dif =? 0 then ring q else memcpy (ring q) p_head ptr 0 dif in
    set_ring q (memcpy ring1 0 ptr dif (u32 (c_tail - dif))).

(** Loop of [__helper_alf_dequeue_load_simple]; the result is the
    caller's array [ptr] after the loads. *)
Fixpoint dequeue_load_simple_loop (k : nat) (i index : Z) (sz : Z)
    (ring0 ptr : cells) : cells :=
  match k with
  | O => ptr
  | S k' =>
      let ptr1 := store ptr (sint i) (ring0 (sint index)) in
      let index1 := if index =? sz then 0 else index in
      dequeue_load_simple_loop k' (u32 (i + 1)) (u32 (index1 + 1)) sz ring0 ptr1
  end.

Definition __helper_alf_dequeue_load_simple (c_head p_tail : Z)
    (q : alf_queue) (ptr : cells) (elems : Z) : cells :=
  dequeue_load_simple_loop (Z.to_nat elems) 0 c_head (size q) (ring q) ptr.

(** Loop of [__helper_alf_dequeue_load_mask]. *)
Fixpoint dequeue_load_mask_loop (k : nat) (i index : Z) (msk : Z)
    (ring0 ptr : cells) : cells :=
  match k with
  | O => ptr
  | S k' =>
      let ptr1 := store ptr (sint i) (ring0 (Z.land index msk)) in
      dequeue_load_mask_loop k' (u32 (i + 1)) (u32 (index + 1)) msk ring0 ptr1
  end.

Definition __helper_alf_dequeue_load_mask (c_head p_tail : Z)
    (q : alf_queue) (ptr : cells) (elems : Z) : cells :=
  dequeue_load_mask_loop (Z.to_nat elems) 0 c_head (mask q) (ring q) ptr.

Definition __helper_alf_dequeue_load_memcpy (c_head p_tail : Z)
    (q : alf_queue) (ptr : cells) (elems : Z) : cells :=
  if c_head <? p_tail then
    memcpy ptr 0 (ring q) c_head elems
  else
    let dif := Z.min (u32 (size q - c_head)) elems in
    let ptr1 := if dif =? 0 then ptr else memcpy ptr 0 (ring q) c_head dif in
    memcpy ptr1 dif (ring q) 0 (u32 (p_tail - dif)).

(** [#define __helper_alf_enqueue_store __helper_alf_enqueue_store_mask] *)
Definition __helper_alf_enqueue_store := __helper_alf_enqueue_store_mask.
(** [#define __helper_alf_dequeue_load __helper_alf_dequeue_load_mask] *)
Definition __helper_alf_dequeue_load := __helper_alf_dequeue_load_mask.

End Helpers.
Import Helpers.

(** ** Introspection *)

Definition alf_queue_empty (q : alf_queue) : bool :=
  let c_tail := tail (consumer q) in
  let p_tail := tail (producer q) in
  c_tail =? p_tail.

Definition alf_queue_count (q : alf_queue) : Z :=
  let c_head := head (consumer q) in
  let p_tail := tail (producer q) in
  let elems := Z.land (u32 (p_tail - c_head)) (mask q) in
  sint elems.

Definition alf_queue_avail_space (q : alf_queue) : Z :=
  let p_head := head (producer q) in
  let c_tail := tail (consumer q) in
  let space := Z.land (u32 (c_tail - p_head - 1)) (mask q) in
  sint space.

(** ** Enqueue and dequeue, run by a single caller *)

(** What a call does when no other thread runs during it: it returns a
    value and leaves a state, or it stays in its busy-wait loop forever. *)
Inductive outcome (A : Type) : Type :=
| Returns (r : Z) (a : A)
| Spins (a : A).
Arguments Returns {A} r a.
Arguments Spins {A} a.

(** [alf_mp_enqueue(q, ptr, n)].  Alone, the [cmpxchg] finds the head it
    has just read, so the reservation loop runs once; the wait on
    [producer.tail] is passed at once or never. *)
Definition alf_mp_enqueue (q : alf_queue) (ptr : cells) (n : Z) : outcome alf_queue :=
  let msk := mask q in
  let p_head := head (producer q) in
  let c_tail := tail (consumer q) in
  let space := Z.land (u32 (c_tail - p_head - 1)) msk in
  if space <? n then Returns (- ENOBUFS) q
  else
    let p_next := Z.land (u32 (p_head + n)) msk in
    let q1 := set_producer q (mk_actor p_next (tail (producer q))) in
    let q2 := __helper_alf_enqueue_store p_head c_tail q1 ptr n in
    if tail (producer q2) =? p_head then
      Returns (sint n) (set_producer q2 (mk_actor (head (producer q2)) p_next))
    else Spins q2.

(** [alf_mc_dequeue(q, ptr, n)]; the second component of the state is the
    caller's array [ptr] after the call. *)
Definition alf_mc_dequeue (q : alf_queue) (ptr : cells) (n : Z)
    : outcome (alf_queue * cells) :=
  let msk := mask q in
  let c_head := head (consumer q) in
  let p_tail := tail (producer q) in
  let elems := Z.land (u32 (p_tail - c_head)) msk in
  if elems =? 0 then Returns 0 (q, ptr)
  else
    let elems := Z.min elems n in
    let c_next := Z.land (u32 (c_head + elems)) msk in
    let q1 := set_consumer q (mk_actor c_next (tail (consumer q))) in
    let ptr1 := __helper_alf_dequeue_load c_head p_tail q1 ptr elems in
    if tail (consumer q1) =? c_head then
      Returns (sint elems) (set_consumer q1 (mk_actor (head (consumer q1)) c_next), ptr1)
    else Spins (q1, ptr1).

(** ** Queue states *)

(** Modelled from the spec: [alf_queue_alloc] is only declared in the
    header.  The spec has it round the requested capacity up to a power
    of two, refuse a capacity that is zero or has no usable power of two,
    set [mask = size - 1] and start with all four cursors at zero.  [mem]
    is the memory the ring is placed in. *)
Definition alf_queue_alloc (sz : Z) (mem : cells) : option alf_queue :=
  if (0 <? sz) && (sz <=? 2 ^ 31) then
    let size := 2 ^ Z.log2_up sz in
    Some (mk_queue size (size - 1) 0 (mk_actor 0 0) (mk_actor 0 0) mem)
  else None.

(** The shape every allocated queue has: a power-of-two [size] that fits
    a [u32], and the matching [mask]. *)
Definition alf_queue_okb (q : alf_queue) : bool :=
  (size q =? 2 ^ Z.log2 (size q)) && (size q <? 2 ^ 32) && (mask q =? size q - 1).

Definition alf_queue_ok (q : alf_queue) : Prop := alf_queue_okb q = true.

(** An actor with no reservation outstanding, its cursor inside the ring. *)
Definition actor_idle (sz : Z) (a : alf_actor) : Prop :=
  0 <= head a < sz /\ tail a = head a.

(** A queue between two calls. *)
Definition alf_queue_inv (q : alf_queue) : Prop :=
  alf_queue_ok q /\ actor_idle (size q) (producer q) /\ actor_idle (size q) (consumer q).

(** The states a caller can bring the queue to, one completed call after
    the other. *)
Inductive reachable : alf_queue -> Prop :=
| reach_alloc sz mem q :
    alf_queue_alloc sz mem = Some q -> reachable q
| reach_enqueue q ptr n r q' :
    reachable q -> 0 <= n < 2 ^ 32 ->
    alf_mp_enqueue q ptr n = Returns r q' -> reachable q'
| reach_dequeue q ptr n r q' ptr' :
    reachable q -> 0 <= n < 2 ^ 32 ->
    alf_mc_dequeue q ptr n = Returns r (q', ptr') -> reachable q'.

(** The queued references, oldest first: the slots from [consumer.head]
    up to [producer.tail]. *)
Definition contents (q : alf_queue) : list val :=
  map (fun i => ring q ((head (consumer q) + Z.of_nat i) mod size q))
      (seq 0 (Z.to_nat (alf_queue_count q))).

(** All four cursors lie inside the ring. *)
Definition cursors_in_range (q : alf_queue) : Prop :=
  0 <= head (producer q) < size q /\ 0 <= tail (producer q) < size q /\
  0 <= head (consumer q) < size q /\ 0 <= tail (consumer q) < size q.

(** ** Concurrent callers *)

Module Conc.

(** Where a producer stands inside [alf_mp_enqueue]; every constructor
    is the point just before one access to the shared queue, and carries
    the locals that are live there. *)
Inductive enq_pc : Type :=
| EnqReadHead
| EnqReadTail (p_head : Z)
| EnqCmpxchg (p_head c_tail : Z)
| EnqStore (p_head c_tail p_next : Z)
| EnqWait (p_head p_next : Z)
| EnqPublish (p_head p_next : Z)
| EnqReturn (r : Z).

Inductive deq_pc : Type :=
| DeqReadHead
| DeqReadTail (c_head : Z)
| DeqCmpxchg (c_head p_tail : Z)
| DeqLoad (c_head p_tail elems c_next : Z)
| DeqWait (c_head c_next elems : Z)
| DeqPublish (c_head c_next elems : Z)
| DeqReturn (r : Z).

(** A thread is one call in progress, with its arguments. *)
Inductive thread : Type :=
| Producer (ptr : cells) (n : Z) (pc : enq_pc)
| Consumer (ptr : cells) (n : Z) (pc : deq_pc).

Definition enq_step (q : alf_queue) (ptr : cells) (n : Z) (pc : enq_pc)
    : alf_queue * enq_pc :=
  match pc with
  | EnqReadHead => (q, EnqReadTail (head (producer q)))
  | EnqReadTail p_head => (q, EnqCmpxchg p_head (tail (consumer q)))
  | EnqCmpxchg p_head c_tail =>
      let space := Z.land (u32 (c_tail - p_head - 1)) (mask q) in
      if space <? n then (q, EnqReturn (- ENOBUFS))
      else
        let p_next := Z.land (u32 (p_head + n)) (mask q) in
        if head (producer q) =? p_head then
          (set_producer q (mk_actor p_next (tail (producer q))),
           EnqStore p_head c_tail p_next)
        else (q, EnqReadHead)
  | EnqStore p_head c_tail p_next =>
      (__helper_alf_enqueue_store p_head c_tail q ptr n, EnqWait p_head p_next)
  | EnqWait p_head p_next =>
      if tail (producer q) =? p_head then (q, EnqPublish p_head p_next)
      else (q, EnqWait p_head p_next)
  | EnqPublish p_head p_next =>
      (set_producer q (mk_actor (head (producer q)) p_next), EnqReturn (sint n))
  | EnqReturn r => (q, EnqReturn r)
  end.

Definition deq_step (q : alf_queue) (ptr : cells) (n : Z) (pc : deq_pc)
    : alf_queue * cells * deq_pc :=
  match pc with
  | DeqReadHead => (q, ptr, DeqReadTail (head (consumer q)))
  | DeqReadTail c_head => (q, ptr, DeqCmpxchg c_head (tail (producer q)))
  | DeqCmpxchg c_head p_tail =>
      let elems := Z.land (u32 (p_tail - c_head)) (mask q) in
      if elems =? 0 then (q, ptr, DeqReturn 0)
      else
        let elems := Z.min elems n in
        let c_next := Z.land (u32 (c_head + elems)) (mask q) in
        if head (consumer q) =? c_head then
          (set_consumer q (mk_actor c_next (tail (consumer q))), ptr,
           DeqLoad c_head p_tail elems c_next)
        else (q, ptr, DeqReadHead)
  | DeqLoad c_head p_tail elems c_next =>
      (q, __helper_alf_dequeue_load c_head p_tail q ptr elems,
       DeqWait c_head c_next elems)
  | DeqWait c_head c_next elems =>
      if tail (consumer q) =? c_head then (q, ptr, DeqPublish c_head c_next elems)
      else (q, ptr, DeqWait c_head c_next elems)
  | DeqPublish c_head c_next elems =>
      (set_consumer q (mk_actor (head (consumer q)) c_next), ptr,
       DeqReturn (sint elems))
  | DeqReturn r => (q, ptr, DeqReturn r)
  end.

Definition thread_step (q : alf_queue) (t : thread) : alf_queue * thread :=
  match t with
  | Producer ptr n pc =>
      let '(q', pc') := enq_step q ptr n pc in (q', Producer ptr n pc')
  | Consumer ptr n pc =>
      let '(q', ptr', pc') := deq_step q ptr n pc in (q', Consumer ptr' n pc')
  end.

(** The shared queue and the calls in progress. *)
Record config : Type := mk_config { shared : alf_queue; threads : list thread }.

Fixpoint set_nth {A : Type} (i : nat) (x : A) (l : list A) : list A :=
  match l, i with
  | [], _ => []
  | _ :: l', O => x :: l'
  | y :: l', S i' => y :: set_nth i' x l'
  end.

(** Thread [i] takes its next step. *)
Definition sched_step (c : config) (i : nat) : config :=
  match nth_error (threads c) i with
  | Some t =>
      let '(q', t') := thread_step (shared c) t in
      mk_config q' (set_nth i t' (threads c))
  | None => c
  end.

(** A schedule names the thread that moves at each instant. *)
Definition run (sched : list nat) (c : config) : config :=
  fold_left sched_step sched c.

Definition at_entry (t : thread) : bool :=
  match t with
  | Producer _ n EnqReadHead => (0 <=? n) && (n <? 2 ^ 32)
  | Consumer _ n DeqReadHead => (0 <=? n) && (n <? 2 ^ 32)
  | _ => false
  end.

(** The range a call holds between its successful [cmpxchg] and the
    store to the tail that publishes it: first index and length. *)
Definition reservation (t : thread) : option (Z * Z) :=
  match t with
  | Producer _ n (EnqStore p_head _ _) => Some (p_head, n)
  | Producer _ n (EnqWait p_head _) => Some (p_head, n)
  | Producer _ n (EnqPublish p_head _) => Some (p_head, n)
  | Consumer _ _ (DeqLoad c_head _ elems _) => Some (c_head, elems)
  | Consumer _ _ (DeqWait c_head _ elems) => Some (c_head, elems)
  | Consumer _ _ (DeqPublish c_head _ elems) => Some (c_head, elems)
  | _ => None
  end.

Definition same_side (t1 t2 : thread) : bool :=
  match t1, t2 with
  | Producer _ _ _, Producer _ _ _ => true
  | Consumer _ _ _, Consumer _ _ _ => true
  | _, _ => false
  end.

(** The ring slots of a range. *)
Definition slots (msk : Z) (r : Z * Z) : list Z :=
  map (fun i => Z.land (u32 (fst r + Z.of_nat i)) msk) (seq 0 (Z.to_nat (snd r))).

Definition overlap (msk : Z) (r1 r2 : Z * Z) : bool :=
  existsb (fun s => existsb (Z.eqb s) (slots msk r2)) (slots msk r1).

(** No two reservations held at the same time on one side share a slot. *)
Definition reservations_disjoint (c : config) : Prop :=
  forall i j ti tj ri rj,
    i <> j ->
    nth_error (threads c) i = Some ti -> nth_error (threads c) j = Some tj ->
    same_side ti tj = true ->
    reservation ti = Some ri -> reservation tj = Some rj ->
    overlap (mask (shared c)) ri rj = false.

(** The cursor value a call is about to publish lies inside the ring. *)
Definition next_in_range (sz : Z) (t : thread) : Prop :=
  match t with
  | Producer _ _ (EnqStore _ _ p_next) => 0 <= p_next < sz
  | Producer _ _ (EnqWait _ p_next) => 0 <= p_next < sz
  | Producer _ _ (EnqPublish _ p_next) => 0 <= p_next < sz
  | Consumer _ _ (DeqLoad _ _ _ c_next) => 0 <= c_next < sz
  | Consumer _ _ (DeqWait _ c_next _) => 0 <= c_next < sz
  | Consumer _ _ (DeqPublish _ c_next _) => 0 <= c_next < sz
  | _ => True
  end.

(** What holds of every configuration, whatever the schedule. *)
Definition config_ok (c : config) : Prop :=
  alf_queue_ok (shared c) /\ cursors_in_range (shared c) /\
  Forall (next_in_range (size (shared c))) (threads c).

(** The value a call has returned, once it has. *)
Definition returned (t : thread) : option Z :=
  match t with
  | Producer _ _ (EnqReturn r) => Some r
  | Consumer _ _ (DeqReturn r) => Some r
  | _ => None
  end.

(** One thread running alone for [fuel] steps. *)
Fixpoint solo (fuel : nat) (q : alf_queue) (t : thread) : alf_queue * thread :=
  match fuel with
  | O => (q, t)
  | S f => let '(q', t') := thread_step q t in solo f q' t'
  end.

End Conc.

(** ** The block copy, split at the caller's own cursor *)

(** These two are not in the header.  They are the one-or-two-block copy
    the spec describes, with the wrap threshold taken from the cursor the
    call starts at ([size - p_head] for a store, [size - c_head] for a
    load) and the second block holding the rest of the batch; they serve
    as the yardstick for the header's block-copy helpers. *)
Definition enqueue_store_two_blocks (p_head : Z) (q : alf_queue) (ptr : cells)
    (n : Z) : alf_queue :=
  let dif := Z.min (size q - p_head) n in
  set_ring q (memcpy (memcpy (ring q) p_head ptr 0 dif) 0 ptr dif (n - dif)).

Definition dequeue_load_two_blocks (c_head : Z) (q : alf_queue) (ptr : cells)
    (elems : Z) : cells :=
  let dif := Z.min (size q - c_head) elems in
  memcpy (memcpy ptr 0 (ring q) c_head dif) dif (ring q) 0 (elems - dif).

(** ** Sequences of calls *)

(** One call made by the owner of the queue, with its arguments. *)
Inductive call : Type :=
| Enqueue (ptr : cells) (n : Z)
| Dequeue (ptr : cells) (n : Z).

Definition call_ok (c : call) : Prop :=
  match c with
  | Enqueue _ n => 0 <= n < 2 ^ 32
  | Dequeue _ n => 0 <= n < 2 ^ 32
  end.

(** The queue together with a log of every reference a successful
    enqueue has put in and every reference a dequeue has handed out, in
    the order of the calls. *)
Record history : Type := mk_history {
  queue_now : alf_queue;
  enqueued : list val;
  dequeued : list val
}.

(** A call is logged by its return value: a negative value from an
    enqueue logs nothing, any other value logs the whole batch, and a
    dequeue logs the first [r] cells of the caller's array.  A call that
    never returns gives no history. *)
Definition do_call (h : history) (c : call) : option history :=
  match c with
  | Enqueue ptr n =>
      match alf_mp_enqueue (queue_now h) ptr n with
      | Returns r q' =>
          Some (mk_history q'
                  (if r <? 0 then enqueued h else enqueued h ++ elements ptr n)
                  (dequeued h))
      | Spins _ => None
      end
  | Dequeue ptr n =>
      match alf_mc_dequeue (queue_now h) ptr n with
      | Returns r (q', ptr') =>
          Some (mk_history q' (enqueued h) (dequeued h ++ elements ptr' r))
      | Spins _ => None
      end
  end.

Fixpoint do_calls (h : history) (cs : list call) : option history :=
  match cs with
  | [] => Some h
  | c :: cs' =>
      match do_call h c with
      | Some h' => do_calls h' cs'
      | None => None
      end
  end.

(** ** One producer against one consumer *)

(** One enqueue call and one dequeue call started together on a queue
    [q0] that is between two calls.  Whatever the schedule, the
    configuration is fixed by how far each call has come and by three
    facts about what it has seen: [a], the producer read [consumer.tail]
    after the consumer had published; [b], the consumer read
    [producer.tail] after the producer had published; [l], the consumer
    loaded after the producer had stored. *)
Module Duo.
Import Conc.

Section Duo.

Variables (q0 : alf_queue) (ptr : cells) (n : Z) (out : cells) (m : Z).

Definition P0 : Z := head (producer q0).
Definition C0 : Z := head (consumer q0).

Definition space_seen (c_tail : Z) : Z := Z.land (u32 (c_tail - P0 - 1)) (mask q0).
Definition p_next : Z := Z.land (u32 (P0 + n)) (mask q0).
Definition stored : cells :=
  enqueue_store_mask_loop (Z.to_nat n) 0 P0 (mask q0) ptr (ring q0).

Definition count_seen (p_tail : Z) : Z := Z.land (u32 (p_tail - C0)) (mask q0).
Definition elems_seen (p_tail : Z) : Z := Z.min (count_seen p_tail) m.
Definition c_next (p_tail : Z) : Z :=
  Z.land (u32 (C0 + elems_seen p_tail)) (mask q0).
Definition loaded (p_tail : Z) (r : cells) : cells :=
  dequeue_load_mask_loop (Z.to_nat (elems_seen p_tail)) 0 C0 (mask q0) r out.

Definition c_tail_seen (a : bool) : Z := if a then c_next P0 else C0.
Definition p_tail_seen (b : bool) : Z := if b then p_next else P0.
Definition ring_seen (l : bool) : cells := if l then stored else ring q0.

Inductive pstage : Type :=
| PReadHead | PReadTail | PCmpxchg | PRefused | PStore | PWait | PPublish | PDone.

Inductive cstage : Type :=
| CReadHead | CReadTail | CCmpxchg | CZero | CLoad | CWait | CPublish | CDone.

Definition enq_pc_at (s : pstage) (a : bool) : enq_pc :=
  match s with
  | PReadHead => EnqReadHead
  | PReadTail => EnqReadTail P0
  | PCmpxchg => EnqCmpxchg P0 (c_tail_seen a)
  | PRefused => EnqReturn (- ENOBUFS)
  | PStore => EnqStore P0 (c_tail_seen a) p_next
  | PWait => EnqWait P0 p_next
  | PPublish => EnqPublish P0 p_next
  | PDone => EnqReturn (sint n)
  end.

Definition producer_at (s : pstage) : alf_actor :=
  match s with
  | PStore | PWait | PPublish => mk_actor p_next P0
  | PDone => mk_actor p_next p_next
  | _ => mk_actor P0 P0
  end.

Definition ring_at (s : pstage) : cells :=
  match s with
  | PWait | PPublish | PDone => stored
  | _ => ring q0
  end.

Definition deq_pc_at (s : cstage) (b : bool) : deq_pc :=
  let p_tail := p_tail_seen b in
  match s with
  | CReadHead => DeqReadHead
  | CReadTail => DeqReadTail C0
  | CCmpxchg => DeqCmpxchg C0 p_tail
  | CZero => DeqReturn 0
  | CLoad => DeqLoad C0 p_tail (elems_seen p_tail) (c_next p_tail)
  | CWait => DeqWait C0 (c_next p_tail) (elems_seen p_tail)
  | CPublish => DeqPublish C0 (c_next p_tail) (elems_seen p_tail)
  | CDone => DeqReturn (sint (elems_seen p_tail))
  end.

Definition consumer_at (s : cstage) (b : bool) : alf_actor :=
  match s with
  | CLoad | CWait | CPublish => mk_actor (c_next (p_tail_seen b)) C0
  | CDone => mk_actor (c_next (p_tail_seen b)) (c_next (p_tail_seen b))
  | _ => mk_actor C0 C0
  end.

Definition out_at (s : cstage) (b l : bool) : cells :=
  match s with
  | CWait | CPublish | CDone => loaded (p_tail_seen b) (ring_seen l)
  | _ => out
  end.

Definition config_at (sp : pstage) (sc : cstage) (a b l : bool) : config :=
  mk_config
    (mk_queue (size q0) (mask q0) (flags q0)
       (producer_at sp) (consumer_at sc b) (ring_at sp))
    [Producer ptr n (enq_pc_at sp a); Consumer (out_at sc b l) m (deq_pc_at sc b)].

Definition p_early (s : pstage) : bool :=
  match s with PReadHead | PReadTail => true | _ => false end.
Definition p_stored (s : pstage) : bool :=
  match s with PWait | PPublish | PDone => true | _ => false end.
Definition p_done (s : pstage) : bool :=
  match s with PDone => true | _ => false end.
Definition c_early (s : cstage) : bool :=
  match s with CReadHead | CReadTail => true | _ => false end.
Definition c_loaded (s : cstage) : bool :=
  match s with CWait | CPublish | CDone => true | _ => false end.
Definition c_done (s : cstage) : bool :=
  match s with CDone => true | _ => false end.

(** The test each call has passed or failed on the way to its stage. *)
Definition p_test (s : pstage) (a : bool) : bool :=
  match s with
  | PRefused => space_seen (c_tail_seen a) <? n
  | PStore | PWait | PPublish | PDone => negb (space_seen (c_tail_seen a) <? n)
  | _ => true
  end.

Definition c_test (s : cstage) (b : bool) : bool :=
  match s with
  | CZero => count_seen (p_tail_seen b) =? 0
  | CLoad | CWait | CPublish | CDone => negb (count_seen (p_tail_seen b) =? 0)
  | _ => true
  end.

(** Which combinations of stages and sightings can occur. *)
Definition sightings_ok (sp : pstage) (sc : cstage) (a b l : bool) : bool :=
  implb (p_early sp) (negb a) &&
  implb a (c_done sc && negb b && negb l) &&
  implb b (p_done sp && negb a) &&
  implb (c_early sc) (negb b) &&
  implb l (p_stored sp && c_loaded sc) &&
  implb (c_loaded sc && b) l &&
  p_test sp a && c_test sc b.

(** The step of the producer and of the consumer on stages and
    sightings. *)
Definition p_advance (sp : pstage) (sc : cstage) (a : bool) : pstage * bool :=
  match sp with
  | PReadHead => (PReadTail, a)
  | PReadTail => (PCmpxchg, c_done sc)
  | PCmpxchg =>
      if space_seen (c_tail_seen a) <? n then (PRefused, a) else (PStore, a)
  | PRefused => (PRefused, a)
  | PStore => (PWait, a)
  | PWait => (PPublish, a)
  | PPublish => (PDone, a)
  | PDone => (PDone, a)
  end.

Definition c_advance (sc : cstage) (sp : pstage) (b l : bool) : cstage * bool * bool :=
  match sc with
  | CReadHead => (CReadTail, b, l)
  | CReadTail => (CCmpxchg, p_done sp, l)
  | CCmpxchg =>
      if count_seen (p_tail_seen b) =? 0 then (CZero, b, l) else (CLoad, b, l)
  | CZero => (CZero, b, l)
  | CLoad => (CWait, b, p_stored sp)
  | CWait => (CPublish, b, l)
  | CPublish => (CDone, b, l)
  | CDone => (CDone, b, l)
  end.

(** How many of its own steps a call has taken at least, capped at the
    six after which it has returned. *)
Definition p_rank (s : pstage) : nat :=
  match s with
  | PReadHead => 0 | PReadTail => 1 | PCmpxchg => 2 | PStore => 3
  | PWait => 4 | PPublish => 5 | PRefused | PDone => 6
  end.

Definition c_rank (s : cstage) : nat :=
  match s with
  | CReadHead => 0 | CReadTail => 1 | CCmpxchg => 2 | CLoad => 3
  | CWait => 4 | CPublish => 5 | CZero | CDone => 6
  end.

End Duo.

End Duo.

(** ** Two producers *)

(** Two enqueue calls started together on a queue [q0] that is between
    two calls, the consumer side at rest.  A call has seen the old head
    (that of [q0]) or the new one (the head after the other call's
    reservation); [w] records that call 1 stored before call 2. *)
Module Pair.
Import Conc.

Section Pair.

Variables (q0 : alf_queue) (ptr1 : cells) (n1 : Z) (ptr2 : cells) (n2 : Z).

Definition P0 : Z := head (producer q0).
Definition CT : Z := tail (consumer q0).

Definition space_from (p_head : Z) : Z := Z.land (u32 (CT - p_head - 1)) (mask q0).
Definition next_from (p_head n : Z) : Z := Z.land (u32 (p_head + n)) (mask q0).

(** The head each call holds, having seen the old head or the new one. *)
Definition head1 (s : bool) : Z := if s then next_from P0 n2 else P0.
Definition head2 (s : bool) : Z := if s then next_from P0 n1 else P0.
Definition next1 (s : bool) : Z := next_from (head1 s) n1.
Definition next2 (s : bool) : Z := next_from (head2 s) n2.

Definition store1 (s : bool) (r : cells) : cells :=
  enqueue_store_mask_loop (Z.to_nat n1) 0 (head1 s) (mask q0) ptr1 r.
Definition store2 (s : bool) (r : cells) : cells :=
  enqueue_store_mask_loop (Z.to_nat n2) 0 (head2 s) (mask q0) ptr2 r.

Inductive stage : Type :=
| ReadHead | ReadTail | Cmpxchg | Refused | Store | Wait | Publish | Done.

Definition pc_at (h nx n : Z) (st : stage) : enq_pc :=
  match st with
  | ReadHead => EnqReadHead
  | ReadTail => EnqReadTail h
  | Cmpxchg => EnqCmpxchg h CT
  | Refused => EnqReturn (- ENOBUFS)
  | Store => EnqStore h CT nx
  | Wait => EnqWait h nx
  | Publish => EnqPublish h nx
  | Done => EnqReturn (sint n)
  end.

Definition reserved (st : stage) : bool :=
  match st with Store | Wait | Publish | Done => true | _ => false end.
Definition has_stored (st : stage) : bool :=
  match st with Wait | Publish | Done => true | _ => false end.
Definition publishing (st : stage) : bool :=
  match st with Publish | Done => true | _ => false end.
Definition is_done (st : stage) : bool :=
  match st with Done => true | _ => false end.
Definition no_head (st : stage) : bool :=
  match st with ReadHead => true | _ => false end.

Definition head_at (st1 : stage) (s1 : bool) (st2 : stage) (s2 : bool) : Z :=
  if reserved st1 then
    if reserved st2 then (if s1 then next1 true else next2 true) else next1 s1
  else if reserved st2 then next2 s2 else P0.

Definition tail_at (st1 : stage) (s1 : bool) (st2 : stage) (s2 : bool) : Z :=
  if is_done st1 then
    if is_done st2 then (if s1 then next1 true else next2 true) else next1 s1
  else if is_done st2 then next2 s2 else P0.

Definition ring_at (st1 : stage) (s1 : bool) (st2 : stage) (s2 : bool) (w : bool)
    : cells :=
  if has_stored st1 then
    if has_stored st2 then
      (if w then store2 s2 (store1 s1 (ring q0)) else store1 s1 (store2 s2 (ring q0)))
    else store1 s1 (ring q0)
  else if has_stored st2 then store2 s2 (ring q0) else ring q0.

Definition config_at (st1 : stage) (s1 : bool) (st2 : stage) (s2 : bool) (w : bool)
    : config :=
  mk_config
    (mk_queue (size q0) (mask q0) (flags q0)
       (mk_actor (head_at st1 s1 st2 s2) (tail_at st1 s1 st2 s2))
       (consumer q0) (ring_at st1 s1 st2 s2 w))
    [Producer ptr1 n1 (pc_at (head1 s1) (next1 s1) n1 st1);
     Producer ptr2 n2 (pc_at (head2 s2) (next2 s2) n2 st2)].

(** The test a call has passed or failed on the way to its stage. *)
Definition test_at (h n : Z) (st : stage) : bool :=
  match st with
  | Refused => space_from h <? n
  | Store | Wait | Publish | Done => negb (space_from h <? n)
  | _ => true
  end.

(** Which combinations of stages and sightings can occur. *)
Definition sightings_ok (st1 : stage) (s1 : bool) (st2 : stage) (s2 : bool) : bool :=
  implb s1 (reserved st2 && negb s2 && negb (no_head st1)) &&
  implb s2 (reserved st1 && negb s1 && negb (no_head st2)) &&
  implb (reserved st1 && reserved st2) (xorb s1 s2) &&
  implb (s1 && publishing st1) (is_done st2) &&
  implb (s2 && publishing st2) (is_done st1) &&
  implb (reserved st1 && negb s1) (negb (P0 =? next_from P0 n1)) &&
  implb (reserved st2 && negb s2) (negb (P0 =? next_from P0 n2)) &&
  test_at (head1 s1) n1 st1 && test_at (head2 s2) n2 st2.

(** The step of each call on stages and sightings. *)
Definition advance1 (st1 : stage) (s1 : bool) (st2 : stage) : stage * bool :=
  match st1 with
  | ReadHead => (ReadTail, reserved st2)
  | ReadTail => (Cmpxchg, s1)
  | Cmpxchg =>
      if space_from (head1 s1) <? n1 then (Refused, s1)
      else if s1 || negb (reserved st2) then (Store, s1) else (ReadHead, false)
  | Refused => (Refused, s1)
  | Store => (Wait, s1)
  | Wait => if negb s1 || is_done st2 then (Publish, s1) else (Wait, s1)
  | Publish => (Done, s1)
  | Done => (Done, s1)
  end.

Definition advance2 (st2 : stage) (s2 : bool) (st1 : stage) : stage * bool :=
  match st2 with
  | ReadHead => (ReadTail, reserved st1)
  | ReadTail => (Cmpxchg, s2)
  | Cmpxchg =>
      if space_from (head2 s2) <? n2 then (Refused, s2)
      else if s2 || negb (reserved st1) then (Store, s2) else (ReadHead, false)
  | Refused => (Refused, s2)
  | Store => (Wait, s2)
  | Wait => if negb s2 || is_done st1 then (Publish, s2) else (Wait, s2)
  | Publish => (Done, s2)
  | Done => (Done, s2)
  end.

(** Which call stored first, after a step of call 1 or of call 2. *)
Definition order1 (st1 st2 : stage) (w : bool) : bool :=
  match st1 with Store => negb (has_stored st2) | _ => w end.
Definition order2 (st2 st1 : stage) (w : bool) : bool :=
  match st2 with Store => has_stored st1 | _ => w end.

End Pair.

End Pair.

(** ** Two consumers *)

(** Two dequeue calls started together on a queue [q0] that is between
    two calls, the producer side at rest.  A call has seen the old head
    (that of [q0]) or the new one (the head after the other call's
    reservation). *)
Module Twin.
Import Conc.

Section Twin.

Variables (q0 : alf_queue) (out1 : cells) (m1 : Z) (out2 : cells) (m2 : Z).

Definition C0 : Z := head (consumer q0).
Definition PT : Z := tail (producer q0).

Definition count_from (c_head : Z) : Z := Z.land (u32 (PT - c_head)) (mask q0).
Definition elems_from (c_head m : Z) : Z := Z.min (count_from c_head) m.
Definition next_from (c_head m : Z) : Z :=
  Z.land (u32 (c_head + elems_from c_head m)) (mask q0).

(** The head each call holds, having seen the old head or the new one. *)
Definition head1 (s : bool) : Z := if s then next_from C0 m2 else C0.
Definition head2 (s : bool) : Z := if s then next_from C0 m1 else C0.
Definition elems1 (s : bool) : Z := elems_from (head1 s) m1.
Definition elems2 (s : bool) : Z := elems_from (head2 s) m2.
Definition next1 (s : bool) : Z := next_from (head1 s) m1.
Definition next2 (s : bool) : Z := next_from (head2 s) m2.

Definition load1 (s : bool) : cells :=
  dequeue_load_mask_loop (Z.to_nat (elems1 s)) 0 (head1 s) (mask q0) (ring q0) out1.
Definition load2 (s : bool) : cells :=
  dequeue_load_mask_loop (Z.to_nat (elems2 s)) 0 (head2 s) (mask q0) (ring q0) out2.

Inductive stage : Type :=
| ReadHead | ReadTail | Cmpxchg | Empty | Load | Wait | Publish | Done.

Definition pc_at (h nx el : Z) (st : stage) : deq_pc :=
  match st with
  | ReadHead => DeqReadHead
  | ReadTail => DeqReadTail h
  | Cmpxchg => DeqCmpxchg h PT
  | Empty => DeqReturn 0
  | Load => DeqLoad h PT el nx
  | Wait => DeqWait h nx el
  | Publish => DeqPublish h nx el
  | Done => DeqReturn (sint el)
  end.

Definition reserved (st : stage) : bool :=
  match st with Load | Wait | Publish | Done => true | _ => false end.
Definition has_loaded (st : stage) : bool :=
  match st with Wait | Publish | Done => true | _ => false end.
Definition publishing (st : stage) : bool :=
  match st with Publish | Done => true | _ => false end.
Definition is_done (st : stage) : bool :=
  match st with Done => true | _ => false end.
Definition no_head (st : stage) : bool :=
  match st with ReadHead => true | _ => false end.

Definition head_at (st1 : stage) (s1 : bool) (st2 : stage) (s2 : bool) : Z :=
  if reserved st1 then
    if reserved st2 then (if s1 then next1 true else next2 true) else next1 s1
  else if reserved st2 then next2 s2 else C0.

Definition tail_at (st1 : stage) (s1 : bool) (st2 : stage) (s2 : bool) : Z :=
  if is_done st1 then
    if is_done st2 then (if s1 then next1 true else next2 true) else next1 s1
  else if is_done st2 then next2 s2 else C0.

Definition out1_at (st1 : stage) (s1 : bool) : cells :=
  if has_loaded st1 then load1 s1 else out1.
Definition out2_at (st2 : stage) (s2 : bool) : cells :=
  if has_loaded st2 then load2 s2 else out2.

Definition config_at (st1 : stage) (s1 : bool) (st2 : stage) (s2 : bool) : config :=
  mk_config
    (mk_queue (size q0) (mask q0) (flags q0) (producer q0)
       (mk_actor (head_at st1 s1 st2 s2) (tail_at st1 s1 st2 s2)) (ring q0))
    [Consumer (out1_at st1 s1) m1 (pc_at (head1 s1) (next1 s1) (elems1 s1) st1);
     Consumer (out2_at st2 s2) m2 (pc_at (head2 s2) (next2 s2) (elems2 s2) st2)].

(** The test a call has passed or failed on the way to its stage. *)
Definition test_at (h : Z) (st : stage) : bool :=
  match st with
  | Empty => count_from h =? 0
  | Load | Wait | Publish | Done => negb (count_from h =? 0)
  | _ => true
  end.

(** Which combinations of stages and sightings can occur. *)
Definition sightings_ok (st1 : stage) (s1 : bool) (st2 : stage) (s2 : bool) : bool :=
  implb s1 (reserved st2 && negb s2 && negb (no_head st1)) &&
  implb s2 (reserved st1 && negb s1 && negb (no_head st2)) &&
  implb (reserved st1 && reserved st2) (xorb s1 s2) &&
  implb (s1 && publishing st1) (is_done st2) &&
  implb (s2 && publishing st2) (is_done st1) &&
  implb (reserved st1 && negb s1) (negb (C0 =? next_from C0 m1)) &&
  implb (reserved st2 && negb s2) (negb (C0 =? next_from C0 m2)) &&
  test_at (head1 s1) st1 && test_at (head2 s2) st2.

(** The step of each call on stages and sightings. *)
Definition advance1 (st1 : stage) (s1 : bool) (st2 : stage) : stage * bool :=
  match st1 with
  | ReadHead => (ReadTail, reserved st2)
  | ReadTail => (Cmpxchg, s1)
  | Cmpxchg =>
      if count_from (head1 s1) =? 0 then (Empty, s1)
      else if s1 || negb (reserved st2) then (Load, s1) else (ReadHead, false)
  | Empty => (Empty, s1)
  | Load => (Wait, s1)
  | Wait => if negb s1 || is_done st2 then (Publish, s1) else (Wait, s1)
  | Publish => (Done, s1)
  | Done => (Done, s1)
  end.

Definition advance2 (st2 : stage) (s2 : bool) (st1 : stage) : stage * bool :=
  match st2 with
  | ReadHead => (ReadTail, reserved st1)
  | ReadTail => (Cmpxchg, s2)
  | Cmpxchg =>
      if count_from (head2 s2) =? 0 then (Empty, s2)
      else if s2 || negb (reserved st1) then (Load, s2) else (ReadHead, false)
  | Empty => (Empty, s2)
  | Load => (Wait, s2)
  | Wait => if negb s2 || is_done st1 then (Publish, s2) else (Wait, s2)
  | Publish => (Done, s2)
  | Done => (Done, s2)
  end.

End Twin.

End Twin.

(** * Properties *)

(** ** Arithmetic of masks and wrap-around *)

Lemma ok_shape q :
  alf_queue_ok q ->
  exists k, 0 <= k <= 31 /\ size q = 2 ^ k /\ mask q = 2 ^ k - 1.
Proof.
  unfold alf_queue_ok, alf_queue_okb.
  rewrite !andb_true_iff, !Z.eqb_eq, Z.ltb_lt.
  intros [[Hs Hlt] Hm].
  exists (Z.log2 (size q)).
  pose proof (Z.log2_nonneg (size q)) as Hk.
  split; [split; [assumption|] | split; [assumption | congruence]].
  rewrite Hs in Hlt.
  apply Z.pow_lt_mono_r_iff in Hlt; lia.
Qed.

Lemma ok_size_pos q : alf_queue_ok q -> 0 < size q.
Proof.
  intros H. destruct (ok_shape q H) as (k & Hk & Hs & _).
  rewrite Hs. apply Z.pow_pos_nonneg; lia.
Qed.

Lemma ok_size_le q : alf_queue_ok q -> size q <= 2 ^ 31.
Proof.
  intros H. destruct (ok_shape q H) as (k & Hk & Hs & _).
  rewrite Hs. apply Z.pow_le_mono_r; lia.
Qed.

Lemma land_mask q x :
  alf_queue_ok q -> Z.land (u32 x) (mask q) = x mod size q.
Proof.
  intros H. destruct (ok_shape q H) as (k & Hk & Hs & Hm).
  rewrite Hm, Hs. unfold u32.
  replace (2 ^ k - 1) with (Z.ones k) by (rewrite Z.ones_equiv; lia).
  rewrite Z.land_ones by lia.
  replace (2 ^ 32) with (2 ^ k * 2 ^ (32 - k)) by (rewrite <- Z.pow_add_r; f_equal; lia).
  assert (0 < 2 ^ k) by (apply Z.pow_pos_nonneg; lia).
  assert (0 < 2 ^ (32 - k)) by (apply Z.pow_pos_nonneg; lia).
  rewrite Z.rem_mul_r by lia.
  rewrite (Z.mul_comm (2 ^ k)), Z_mod_plus_full.
  apply Z.mod_mod. lia.
Qed.

Lemma sint_small x : 0 <= x < 2 ^ 31 -> sint x = x.
Proof. intros H. unfold sint. destruct (Z.ltb_spec x (2 ^ 31)); lia. Qed.

Lemma u32_small x : 0 <= x < 2 ^ 32 -> u32 x = x.
Proof. intros H. apply Z.mod_small. assumption. Qed.

Lemma u32_succ x : u32 (u32 x + 1) = u32 (x + 1).
Proof. unfold u32. apply Zplus_mod_idemp_l. Qed.

(** ** The masked helpers in closed form *)

Section MaskedLoops.

Variables (sz msk : Z).
Hypothesis shape : exists k, 0 <= k <= 31 /\ sz = 2 ^ k /\ msk = 2 ^ k - 1.

Lemma sz_pos : 0 < sz.
Proof. destruct shape as (k & Hk & -> & _). apply Z.pow_pos_nonneg; lia. Qed.

Lemma land_msk x : Z.land x msk = x mod sz.
Proof.
  destruct shape as (k & Hk & -> & ->).
  replace (2 ^ k - 1) with (Z.ones k) by (rewrite Z.ones_equiv; lia).
  apply Z.land_ones. lia.
Qed.

Lemma u32_mod_sz x : u32 x mod sz = x mod sz.
Proof.
  destruct shape as (k & Hk & -> & _). unfold u32.
  replace (2 ^ 32) with (2 ^ k * 2 ^ (32 - k)) by (rewrite <- Z.pow_add_r; f_equal; lia).
  assert (0 < 2 ^ k) by (apply Z.pow_pos_nonneg; lia).
  assert (0 < 2 ^ (32 - k)) by (apply Z.pow_pos_nonneg; lia).
  rewrite Z.rem_mul_r by lia.
  rewrite (Z.mul_comm (2 ^ k)), Z_mod_plus_full.
  apply Z.mod_mod. lia.
Qed.

Lemma mod_sz_shift a b c : a mod sz = b mod sz -> (a + c) mod sz = (b + c) mod sz.
Proof.
  intros H. rewrite (Z.add_mod a), (Z.add_mod b) by (pose proof sz_pos; lia).
  now rewrite H.
Qed.

Lemma mod_sz_pred a d :
  0 < d < sz -> a mod sz = d -> (a - 1) mod sz = d - 1.
Proof.
  intros Hd Ha. pose proof sz_pos as Hp.
  symmetry. apply (Zmod_unique _ _ (a / sz)); [lia|].
  pose proof (Z.div_mod a sz). lia.
Qed.

Lemma mod_sz_pred0 a :
  a mod sz = 0 -> (a - 1) mod sz = sz - 1.
Proof.
  intros Ha. pose proof sz_pos as Hp.
  symmetry. apply (Zmod_unique _ _ (a / sz - 1)); [lia|].
  pose proof (Z.div_mod a sz). lia.
Qed.

(** After the store loop, slot [j] of the ring holds the reference whose
    position in the batch is the distance from the start index to [j],
    if that distance is below the trip count; other cells are as before. *)
Lemma enqueue_store_mask_loop_get k : forall i index ptr r j,
  0 <= i -> i + Z.of_nat k <= 2 ^ 31 -> Z.of_nat k <= sz ->
  enqueue_store_mask_loop k i index msk ptr r j =
    if (0 <=? j) && (j <? sz) && ((j - index) mod sz <? Z.of_nat k)
    then ptr (i + (j - index) mod sz) else r j.
Proof.
  pose proof sz_pos as Hp.
  induction k as [|k IH]; intros i index ptr r j Hi Hik Hk.
  - simpl. pose proof (Z.mod_pos_bound (j - index) sz Hp).
    destruct (0 <=? j), (j <? sz); simpl; try reflexivity.
    destruct (Z.ltb_spec ((j - index) mod sz) 0); [lia | reflexivity].
  - cbn [enqueue_store_mask_loop].
    rewrite IH by (rewrite ?u32_small; lia).
    rewrite (u32_small (i + 1)) by lia.
    rewrite (sint_small i) by lia.
    rewrite land_msk.
    assert (Hsh : (j - u32 (index + 1)) mod sz = (j - index - 1) mod sz).
    { rewrite Zminus_mod, u32_mod_sz, <- Zminus_mod. f_equal. lia. }
    rewrite Hsh. unfold store.
    pose proof (Z.mod_pos_bound (j - index) sz Hp) as Hd.
    pose proof (Z.mod_pos_bound index sz Hp) as Hx.
    destruct (Z.leb_spec 0 j); destruct (Z.ltb_spec j sz); cbn [andb];
      try (destruct (Z.eqb_spec j (index mod sz)); [lia | reflexivity]).
    destruct (Z.eq_dec ((j - index) mod sz) 0) as [E0 | E0].
    + rewrite (mod_sz_pred0 _ E0). rewrite E0.
      assert (Ej : j = index mod sz).
      { rewrite <- (Z.mod_small j sz) by lia.
        replace j with ((j - index) + index) at 1 by lia.
        rewrite Z.add_mod, E0, Z.add_0_l by lia. now rewrite Z.mod_mod by lia. }
      destruct (Z.ltb_spec (sz - 1) (Z.of_nat k)); [lia|].
      destruct (Z.ltb_spec 0 (Z.of_nat (S k))); [|lia].
      destruct (Z.eqb_spec j (index mod sz)); [|contradiction].
      f_equal. lia.
    + rewrite (mod_sz_pred _ ((j - index) mod sz)) by lia.
      assert (Ej : j <> index mod sz).
      { intros E. apply E0. rewrite E.
        rewrite Zminus_mod, Z.mod_mod, <- Zminus_mod by lia.
        rewrite Z.sub_diag. apply Z.mod_0_l. lia. }
      destruct (Z.eqb_spec j (index mod sz)); [contradiction|].
      destruct (Z.ltb_spec ((j - index) mod sz - 1) (Z.of_nat k));
        destruct (Z.ltb_spec ((j - index) mod sz) (Z.of_nat (S k)));
        try lia; try reflexivity.
      f_equal. lia.
Qed.

(** After the load loop, the cells [i, i + k) of the caller's array hold
    the ring slots from the start index on, wrapping; other cells are as
    before. *)
Lemma dequeue_load_mask_loop_get k : forall i index r ptr j,
  0 <= i -> i + Z.of_nat k <= 2 ^ 31 ->
  dequeue_load_mask_loop k i index msk r ptr j =
    if (i <=? j) && (j <? i + Z.of_nat k)
    then r ((index + (j - i)) mod sz) else ptr j.
Proof.
  pose proof sz_pos as Hp.
  induction k as [|k IH]; intros i index r ptr j Hi Hik.
  - simpl. destruct (Z.leb_spec i j); destruct (Z.ltb_spec j (i + 0));
      try lia; reflexivity.
  - cbn [dequeue_load_mask_loop].
    rewrite IH by (rewrite ?u32_small; lia).
    rewrite (u32_small (i + 1)) by lia.
    rewrite (sint_small i) by lia.
    rewrite land_msk. unfold store.
    destruct (Z.leb_spec (i + 1) j); destruct (Z.ltb_spec j (i + 1 + Z.of_nat k));
      destruct (Z.leb_spec i j); destruct (Z.ltb_spec j (i + Z.of_nat (S k)));
      cbn [andb]; try lia.
    + f_equal.
      replace (u32 (index + 1) + (j - (i + 1))) with (u32 (index + 1) + (j - i - 1)) by lia.
      replace (index + (j - i)) with ((index + 1) + (j - i - 1)) by lia.
      apply mod_sz_shift. apply u32_mod_sz.
    + destruct (Z.eqb_spec j i); [lia | reflexivity].
    + destruct (Z.eqb_spec j i); [|lia]. subst j. f_equal. f_equal. lia.
    + destruct (Z.eqb_spec j i); [lia | reflexivity].
Qed.

End MaskedLoops.

(** ** The calls on an idle queue *)

(** A value within one ring length of [0, sz) wraps by one subtraction
    or one addition. *)
Lemma mod_window sz x :
  0 < sz -> - sz <= x < 2 * sz ->
  x mod sz = if x <? 0 then x + sz else if x <? sz then x else x - sz.
Proof.
  intros Hs Hx.
  destruct (Z.ltb_spec x 0); [|destruct (Z.ltb_spec x sz)].
  - symmetry. apply (Zmod_unique _ _ (-1)); lia.
  - apply Z.mod_small. lia.
  - symmetry. apply (Zmod_unique _ _ 1); lia.
Qed.

(** [window sz x] splits on where [x] lies and leaves the value of
    [x mod sz] as an equation in each case. *)
Ltac window sz x :=
  let H := fresh "W" in
  assert (H := mod_window sz x ltac:(lia) ltac:(lia));
  revert H;
  destruct (Z.ltb_spec x 0); [|destruct (Z.ltb_spec x sz)];
  intros H.

Lemma alf_queue_count_mod q :
  alf_queue_ok q ->
  alf_queue_count q = (tail (producer q) - head (consumer q)) mod size q.
Proof.
  intros H. unfold alf_queue_count. rewrite land_mask by assumption.
  apply sint_small.
  pose proof (ok_size_pos q H). pose proof (ok_size_le q H).
  pose proof (Z.mod_pos_bound (tail (producer q) - head (consumer q)) (size q)).
  lia.
Qed.

Lemma alf_queue_avail_space_mod q :
  alf_queue_ok q ->
  alf_queue_avail_space q = (tail (consumer q) - head (producer q) - 1) mod size q.
Proof.
  intros H. unfold alf_queue_avail_space. rewrite land_mask by assumption.
  apply sint_small.
  pose proof (ok_size_pos q H). pose proof (ok_size_le q H).
  pose proof (Z.mod_pos_bound (tail (consumer q) - head (producer q) - 1) (size q)).
  lia.
Qed.

Lemma count_plus_space q :
  alf_queue_inv q -> alf_queue_count q + alf_queue_avail_space q = size q - 1.
Proof.
  intros (Hok & [Hp Hpt] & [Hc Hct]).
  rewrite alf_queue_count_mod, alf_queue_avail_space_mod by assumption.
  rewrite Hpt, Hct.
  window (size q) (head (producer q) - head (consumer q));
    window (size q) (head (consumer q) - head (producer q) - 1); lia.
Qed.

Lemma alf_mp_enqueue_full q ptr n :
  alf_queue_ok q -> alf_queue_avail_space q < n ->
  alf_mp_enqueue q ptr n = Returns (- ENOBUFS) q.
Proof.
  intros Hok Hn. unfold alf_mp_enqueue.
  rewrite alf_queue_avail_space_mod in Hn by assumption.
  rewrite land_mask by assumption.
  destruct (Z.ltb_spec ((tail (consumer q) - head (producer q) - 1) mod size q) n);
    [reflexivity | lia].
Qed.

Lemma alf_mp_enqueue_stores q ptr n :
  alf_queue_ok q -> tail (producer q) = head (producer q) ->
  0 <= n <= alf_queue_avail_space q ->
  exists q',
    alf_mp_enqueue q ptr n = Returns n q' /\
    size q' = size q /\ mask q' = mask q /\ flags q' = flags q /\
    consumer q' = consumer q /\
    head (producer q') = (head (producer q) + n) mod size q /\
    tail (producer q') = (head (producer q) + n) mod size q /\
    forall j, ring q' j =
      if (0 <=? j) && (j <? size q) && ((j - head (producer q)) mod size q <? n)
      then ptr ((j - head (producer q)) mod size q) else ring q j.
Proof.
  intros Hok Hidle Hn.
  pose proof (ok_size_pos q Hok) as Hs. pose proof (ok_size_le q Hok) as Hle.
  rewrite alf_queue_avail_space_mod in Hn by assumption.
  pose proof (Z.mod_pos_bound (tail (consumer q) - head (producer q) - 1) (size q) Hs).
  unfold alf_mp_enqueue.
  rewrite !land_mask by assumption.
  destruct (Z.ltb_spec ((tail (consumer q) - head (producer q) - 1) mod size q) n);
    [lia|].
  unfold __helper_alf_enqueue_store, __helper_alf_enqueue_store_mask, set_ring,
    set_producer.
  cbn [producer tail head mask size ring flags consumer].
  rewrite Hidle, Z.eqb_refl, (sint_small n) by lia.
  eexists. split; [reflexivity|].
  cbn [size mask flags consumer producer head tail ring].
  repeat (split; [reflexivity|]).
  intros j.
  rewrite (enqueue_store_mask_loop_get (size q) (mask q) (ok_shape q Hok)) by lia.
  rewrite Z.add_0_l, Z2Nat.id by lia. reflexivity.
Qed.

Lemma alf_mc_dequeue_loads q ptr n :
  alf_queue_inv q -> 0 <= n ->
  exists q' ptr',
    alf_mc_dequeue q ptr n = Returns (Z.min (alf_queue_count q) n) (q', ptr') /\
    size q' = size q /\ mask q' = mask q /\ flags q' = flags q /\
    producer q' = producer q /\ ring q' = ring q /\
    head (consumer q') = (head (consumer q) + Z.min (alf_queue_count q) n) mod size q /\
    tail (consumer q') = (head (consumer q) + Z.min (alf_queue_count q) n) mod size q /\
    forall j, ptr' j =
      if (0 <=? j) && (j <? Z.min (alf_queue_count q) n)
      then ring q ((head (consumer q) + j) mod size q) else ptr j.
Proof.
  intros (Hok & _ & [Hc Hct]) Hn.
  pose proof (ok_size_pos q Hok) as Hs. pose proof (ok_size_le q Hok) as Hle.
  rewrite alf_queue_count_mod by assumption.
  pose proof (Z.mod_pos_bound (tail (producer q) - head (consumer q)) (size q) Hs).
  unfold alf_mc_dequeue.
  rewrite !land_mask by assumption.
  set (d := (tail (producer q) - head (consumer q)) mod size q) in *.
  destruct (Z.eqb_spec d 0) as [E | E].
  - exists q, ptr. rewrite E, Z.min_l, Z.add_0_r, Z.mod_small by lia.
    repeat (split; [reflexivity || assumption|]).
    intros j. destruct (0 <=? j) eqn:A, (j <? 0) eqn:B; try reflexivity. lia.
  - unfold __helper_alf_dequeue_load, __helper_alf_dequeue_load_mask, set_consumer.
    cbn [consumer tail head mask size ring flags producer].
    rewrite Hct, Z.eqb_refl, (sint_small (Z.min d n)) by lia.
    eexists. eexists. split; [reflexivity|].
    cbn [size mask flags consumer producer head tail ring].
    repeat (split; [reflexivity|]).
    intros j.
    rewrite (dequeue_load_mask_loop_get (size q) (mask q) (ok_shape q Hok)) by lia.
    rewrite Z.add_0_l, Z2Nat.id, Z.sub_0_r by lia. reflexivity.
Qed.

(** ** The queue as a list of references *)

Lemma map_seq_from {A : Type} (f : nat -> A) (a len : nat) :
  map f (seq a len) = map (fun i => f (a + i)%nat) (seq 0 len).
Proof.
  revert f a. induction len as [|len IH]; intros f a; [reflexivity|].
  cbn [seq map]. rewrite Nat.add_0_r. f_equal.
  rewrite (IH f (S a)), (IH (fun i => f (a + i)%nat) 1%nat).
  apply map_ext. intros i. f_equal. lia.
Qed.

Lemma firstn_seq_min (n a len : nat) :
  firstn n (seq a len) = seq a (Nat.min n len).
Proof.
  revert a len. induction n as [|n IH]; intros a [|len]; try reflexivity.
  cbn [seq firstn Nat.min]. f_equal. apply IH.
Qed.

Lemma okb_same q q' :
  size q' = size q -> mask q' = mask q -> alf_queue_ok q -> alf_queue_ok q'.
Proof. unfold alf_queue_ok, alf_queue_okb. intros -> ->. trivial. Qed.

Lemma contents_length q :
  alf_queue_ok q -> Z.of_nat (length (contents q)) = alf_queue_count q.
Proof.
  intros Hok. unfold contents. rewrite length_map, length_seq.
  rewrite alf_queue_count_mod by assumption.
  pose proof (ok_size_pos q Hok).
  pose proof (Z.mod_pos_bound (tail (producer q) - head (consumer q)) (size q)).
  lia.
Qed.

(** A successful enqueue appends the batch to the queued references. *)
Lemma alf_mp_enqueue_appends q ptr n :
  alf_queue_inv q -> 0 <= n <= alf_queue_avail_space q ->
  exists q',
    alf_mp_enqueue q ptr n = Returns n q' /\ alf_queue_inv q' /\
    contents q' = contents q ++ elements ptr n.
Proof.
  intros Hinv Hn. pose proof Hinv as (Hok & [Hp Hpt] & [Hc Hct]).
  destruct (alf_mp_enqueue_stores q ptr n Hok Hpt Hn)
    as (q' & Hr & Hsz & Hm & Hf & Hcons & Hh & Ht & Hring).
  pose proof (ok_size_pos q Hok) as Hs.
  pose proof (okb_same q q' Hsz Hm Hok) as Hok'.
  rewrite alf_queue_avail_space_mod, Hct in Hn by assumption.
  exists q'. split; [assumption|]. split.
  - split; [assumption|]. rewrite Hsz, Hcons. split; [|split; assumption].
    split; [|congruence]. rewrite Hh. apply Z.mod_pos_bound. assumption.
  - unfold contents.
    rewrite !alf_queue_count_mod by assumption.
    rewrite Hcons, Hsz, Ht, Hpt.
    set (P := head (producer q)) in *. set (C := head (consumer q)) in *.
    set (S := size q) in *.
    assert (Hcnt : ((P + n) mod S - C) mod S = (P - C) mod S + n).
    { window S (C - P - 1); window S (P - C); window S (P + n); rewrite ?W1;
        try lia.
      - window S (P + n - C); lia.
      - window S (P + n - S - C); lia.
      - window S (P + n - C); lia. }
    rewrite Hcnt.
    assert (Hd : 0 <= (P - C) mod S < S) by (apply Z.mod_pos_bound; assumption).
    assert (Hsp : 0 <= (C - P - 1) mod S < S) by (apply Z.mod_pos_bound; assumption).
    rewrite Z2Nat.inj_add, seq_app, map_app by lia.
    f_equal.
    + apply map_ext_in. intros i Hi. apply in_seq in Hi.
      rewrite Hring.
      assert (Hj : 0 <= (C + Z.of_nat i) mod S < S) by (apply Z.mod_pos_bound; assumption).
      destruct (Z.ltb_spec (((C + Z.of_nat i) mod S - P) mod S) n) as [Hlt|];
        [exfalso | now rewrite andb_false_r].
      window S (C - P - 1); window S (P - C); window S (C + Z.of_nat i);
        rewrite ?W1 in Hlt; try lia.
      * window S (C + Z.of_nat i - P); lia.
      * window S (C + Z.of_nat i - P); lia.
      * window S (C + Z.of_nat i - S - P); lia.
    + rewrite map_seq_from. unfold elements. apply map_ext_in.
      intros i Hi. apply in_seq in Hi. rewrite Hring.
      assert (Hj : 0 <= (C + Z.of_nat (0 + Z.to_nat ((P - C) mod S) + i)) mod S < S)
        by (apply Z.mod_pos_bound; assumption).
      assert (E : ((C + Z.of_nat (0 + Z.to_nat ((P - C) mod S) + i)) mod S - P) mod S
                  = Z.of_nat i).
      { replace (Z.of_nat (0 + Z.to_nat ((P - C) mod S) + i))
          with ((P - C) mod S + Z.of_nat i) by lia.
        rewrite Zminus_mod_idemp_l.
        replace (C + ((P - C) mod S + Z.of_nat i) - P)
          with ((P - C) mod S + (Z.of_nat i - (P - C))) by lia.
        rewrite Zplus_mod_idemp_l.
        replace (P - C + (Z.of_nat i - (P - C))) with (Z.of_nat i) by lia.
        apply Z.mod_small. lia. }
      rewrite E.
      destruct (Z.leb_spec 0 ((C + Z.of_nat (0 + Z.to_nat ((P - C) mod S) + i)) mod S));
        [|lia].
      destruct (Z.ltb_spec ((C + Z.of_nat (0 + Z.to_nat ((P - C) mod S) + i)) mod S) S);
        [|lia].
      destruct (Z.ltb_spec (Z.of_nat i) n); [reflexivity | lia].
Qed.

(** A dequeue hands out the oldest references, as many as there are up to
    [n], and leaves the rest queued. *)
Lemma alf_mc_dequeue_takes q ptr n :
  alf_queue_inv q -> 0 <= n ->
  exists q' ptr',
    alf_mc_dequeue q ptr n = Returns (Z.min (alf_queue_count q) n) (q', ptr') /\
    alf_queue_inv q' /\
    elements ptr' (Z.min (alf_queue_count q) n) = firstn (Z.to_nat n) (contents q) /\
    contents q' = skipn (Z.to_nat n) (contents q).
Proof.
  intros Hinv Hn. pose proof Hinv as (Hok & [Hp Hpt] & [Hc Hct]).
  destruct (alf_mc_dequeue_loads q ptr n Hinv Hn)
    as (q' & ptr' & Hr & Hsz & Hm & Hf & Hprod & Hring & Hh & Ht & Hptr).
  pose proof (ok_size_pos q Hok) as Hs.
  pose proof (okb_same q q' Hsz Hm Hok) as Hok'.
  exists q', ptr'. split; [assumption|]. split; [|split].
  - split; [assumption|]. rewrite Hsz, Hprod. split; [split; assumption|].
    split; [|congruence]. rewrite Hh. apply Z.mod_pos_bound. assumption.
  - unfold contents, elements. rewrite firstn_map, firstn_seq_min.
    replace (Nat.min (Z.to_nat n) (Z.to_nat (alf_queue_count q)))
      with (Z.to_nat (Z.min (alf_queue_count q) n)) by lia.
    apply map_ext_in. intros i Hi. apply in_seq in Hi. rewrite Hptr.
    destruct (Z.leb_spec 0 (Z.of_nat i)); [|lia].
    destruct (Z.ltb_spec (Z.of_nat i) (Z.min (alf_queue_count q) n)); [reflexivity | lia].
  - unfold contents. rewrite skipn_map, skipn_seq, (map_seq_from _ (0 + Z.to_nat n)).
    rewrite (alf_queue_count_mod q') by assumption.
    rewrite Hprod, Hh, Hsz, Hring.
    rewrite alf_queue_count_mod in * by assumption.
    set (P := tail (producer q)) in *. set (C := head (consumer q)) in *.
    set (S := size q) in *.
    assert (Hd : 0 <= (P - C) mod S < S) by (apply Z.mod_pos_bound; assumption).
    assert (Hcnt : (P - (C + Z.min ((P - C) mod S) n) mod S) mod S
                   = (P - C) mod S - Z.min ((P - C) mod S) n).
    { rewrite Zminus_mod_idemp_r.
      replace (P - (C + Z.min ((P - C) mod S) n))
        with ((P - C) - Z.min ((P - C) mod S) n) by lia.
      rewrite <- Zminus_mod_idemp_l. apply Z.mod_small. lia. }
    rewrite Hcnt.
    replace (Z.to_nat ((P - C) mod S - Z.min ((P - C) mod S) n))
      with (Z.to_nat ((P - C) mod S) - Z.to_nat n)%nat by lia.
    apply map_ext_in. intros i Hi. apply in_seq in Hi. f_equal.
    rewrite Zplus_mod_idemp_l. f_equal.
    rewrite Z.min_r by lia. lia.
Qed.

(** Every state a caller can reach is a queue between two calls. *)
Lemma alf_queue_alloc_inv sz mem q :
  alf_queue_alloc sz mem = Some q ->
  alf_queue_inv q /\ contents q = [] /\ sz <= size q.
Proof.
  unfold alf_queue_alloc.
  destruct (Z.ltb_spec 0 sz); [|discriminate].
  destruct (Z.leb_spec sz (2 ^ 31)); [|discriminate].
  cbn [andb]. intros E. injection E as <-.
  pose proof (Z.log2_up_nonneg sz) as Hk.
  assert (Hk31 : Z.log2_up sz <= 31).
  { destruct (Z.eq_dec sz 1) as [-> | ]; [vm_compute; discriminate|].
    apply Z.log2_up_le_pow2; lia. }
  assert (Hpow : 0 < 2 ^ Z.log2_up sz) by (apply Z.pow_pos_nonneg; lia).
  split; [|split].
  - unfold alf_queue_inv, alf_queue_ok, alf_queue_okb, actor_idle.
    cbn [size mask producer consumer head tail].
    rewrite Z.log2_pow2 by assumption.
    rewrite !Z.eqb_refl. cbn [andb].
    assert (2 ^ Z.log2_up sz < 2 ^ 32) by (apply Z.pow_lt_mono_r; lia).
    destruct (Z.ltb_spec (2 ^ Z.log2_up sz) (2 ^ 32)); [|lia].
    repeat split; lia.
  - unfold contents, alf_queue_count.
    cbn [size mask producer consumer head tail].
    change (u32 (0 - 0)) with 0. rewrite Z.land_0_l. reflexivity.
  - cbn [size].
    destruct (Z.eq_dec sz 1) as [-> | ]; [vm_compute; discriminate|].
    apply Z.log2_up_spec. lia.
Qed.

Lemma reachable_inv q : reachable q -> alf_queue_inv q.
Proof.
  induction 1 as [sz mem q Ha | q ptr n r q' _ IH Hn Hr | q ptr n r q' ptr' _ IH Hn Hr].
  - apply (alf_queue_alloc_inv sz mem q Ha).
  - destruct (Z_lt_le_dec (alf_queue_avail_space q) n) as [Hfull | Hfits].
    + rewrite (alf_mp_enqueue_full q ptr n (proj1 IH) Hfull) in Hr.
      injection Hr as _ <-. assumption.
    + destruct (alf_mp_enqueue_appends q ptr n IH (conj (proj1 Hn) Hfits))
        as (q1 & Hr1 & Hinv1 & _).
      rewrite Hr1 in Hr. injection Hr as _ <-. assumption.
  - destruct (alf_mc_dequeue_takes q ptr n IH (proj1 Hn))
      as (q1 & ptr1 & Hr1 & Hinv1 & _).
    rewrite Hr1 in Hr. injection Hr as _ <- _. assumption.
Qed.

(** ** The wrap-check helpers against the masked helpers *)

(** As long as the index never reaches [size], the wrap-check store loop
    performs exactly the stores of the masked loop. *)
Lemma enqueue_store_simple_no_wrap sz msk
    (shape : exists k, 0 <= k <= 31 /\ sz = 2 ^ k /\ msk = 2 ^ k - 1) k :
  forall i index ptr r,
    0 <= index -> index + Z.of_nat k <= sz ->
    enqueue_store_simple_loop k i index sz ptr r =
    enqueue_store_mask_loop k i index msk ptr r.
Proof.
  assert (Hsz : sz <= 2 ^ 31).
  { destruct shape as (e & He & -> & _). apply Z.pow_le_mono_r; lia. }
  induction k as [|k IH]; intros i index ptr r H0 Hk; [reflexivity|].
  cbn [enqueue_store_simple_loop enqueue_store_mask_loop].
  destruct (Z.eqb_spec index sz); [lia|].
  rewrite (land_msk sz msk shape), Z.mod_small, (sint_small index) by lia.
  apply IH; rewrite u32_small; lia.
Qed.

Lemma dequeue_load_simple_no_wrap sz msk
    (shape : exists k, 0 <= k <= 31 /\ sz = 2 ^ k /\ msk = 2 ^ k - 1) k :
  forall i index r ptr,
    0 <= index -> index + Z.of_nat k <= sz ->
    dequeue_load_simple_loop k i index sz r ptr =
    dequeue_load_mask_loop k i index msk r ptr.
Proof.
  assert (Hsz : sz <= 2 ^ 31).
  { destruct shape as (e & He & -> & _). apply Z.pow_le_mono_r; lia. }
  induction k as [|k IH]; intros i index r ptr H0 Hk; [reflexivity|].
  cbn [dequeue_load_simple_loop dequeue_load_mask_loop].
  destruct (Z.eqb_spec index sz); [lia|].
  rewrite (land_msk sz msk shape), Z.mod_small, (sint_small index) by lia.
  apply IH; rewrite u32_small; lia.
Qed.

(** C1: the wrap-check helpers are meant to equal the masked helpers, but
    they test the index after using it and then still increment it.  On
    a ring of size 4, a batch of two stored from index 3 puts its second
    reference into cell 4, one past the ring, and never writes slot 0,
    where the masked helper puts it; two loads from index 3 fetch cell 4
    in place of slot 0. *)
Theorem simple_helpers_miss_the_wrap (mem out : cells) (a b : val) :
  let q := mk_queue 4 3 0 (mk_actor 3 3) (mk_actor 3 3) mem in
  let q2 := mk_queue 4 3 0 (mk_actor 1 1) (mk_actor 3 3) mem in
  let ptr := array_of [a; b] in
  (ring (__helper_alf_enqueue_store_mask 3 3 q ptr 2) 3 = a /\
   ring (__helper_alf_enqueue_store_mask 3 3 q ptr 2) 0 = b /\
   ring (__helper_alf_enqueue_store_mask 3 3 q ptr 2) 4 = mem 4) /\
  (ring (__helper_alf_enqueue_store_simple 3 3 q ptr 2) 3 = a /\
   ring (__helper_alf_enqueue_store_simple 3 3 q ptr 2) 0 = mem 0 /\
   ring (__helper_alf_enqueue_store_simple 3 3 q ptr 2) 4 = b) /\
  elements (__helper_alf_dequeue_load_mask 3 1 q2 out 2) 2 = [mem 3; mem 0] /\
  elements (__helper_alf_dequeue_load_simple 3 1 q2 out 2) 2 = [mem 3; mem 4].
Proof. cbv. repeat split. Qed.

(** The wrap-check helpers and the masked helpers agree on every range
    that ends at or before the last slot. *)
Lemma simple_helpers_agree_without_wrap q ptr p c n :
  alf_queue_ok q -> 0 <= p -> 0 <= n -> p + n <= size q ->
  __helper_alf_enqueue_store_simple p c q ptr n =
    __helper_alf_enqueue_store_mask p c q ptr n /\
  __helper_alf_dequeue_load_simple p c q ptr n =
    __helper_alf_dequeue_load_mask p c q ptr n.
Proof.
  intros Hok Hp Hn Hfit.
  unfold __helper_alf_enqueue_store_simple, __helper_alf_enqueue_store_mask,
    __helper_alf_dequeue_load_simple, __helper_alf_dequeue_load_mask.
  rewrite (enqueue_store_simple_no_wrap (size q) (mask q) (ok_shape q Hok)) by lia.
  rewrite (dequeue_load_simple_no_wrap (size q) (mask q) (ok_shape q Hok)) by lia.
  split; reflexivity.
Qed.

(** ** The block-copy helpers *)

Ltac split_tests :=
  repeat match goal with
         | |- context [?a <=? ?b] => destruct (Z.leb_spec a b)
         | |- context [?a <? ?b] => destruct (Z.ltb_spec a b)
         end; cbn [andb].

(** Two block copies split at [size - p_head] store what the masked
    helper stores, whatever the consumer cursor is. *)
Lemma enqueue_store_two_blocks_masked q ptr p_head c_tail n :
  alf_queue_ok q -> 0 <= p_head < size q -> 0 <= n <= size q ->
  forall j,
    ring (enqueue_store_two_blocks p_head q ptr n) j =
    ring (__helper_alf_enqueue_store_mask p_head c_tail q ptr n) j.
Proof.
  intros Hok Hp Hn j.
  pose proof (ok_size_pos q Hok) as Hs. pose proof (ok_size_le q Hok) as Hle.
  unfold enqueue_store_two_blocks, __helper_alf_enqueue_store_mask, set_ring.
  cbn [ring].
  rewrite (enqueue_store_mask_loop_get (size q) (mask q) (ok_shape q Hok)) by lia.
  rewrite Z2Nat.id by lia. unfold memcpy.
  destruct (Z.leb_spec 0 j); [destruct (Z.ltb_spec j (size q))|]; cbn [andb].
  - window (size q) (j - p_head); rewrite W; split_tests;
      try lia; try reflexivity; f_equal; lia.
  - split_tests; try lia; reflexivity.
  - split_tests; try lia; reflexivity.
Qed.

(** Two block copies split at [size - c_head] load what the masked
    helper loads, whatever the producer cursor is. *)
Lemma dequeue_load_two_blocks_masked q ptr c_head p_tail elems :
  alf_queue_ok q -> 0 <= c_head < size q -> 0 <= elems <= size q ->
  forall j,
    dequeue_load_two_blocks c_head q ptr elems j =
    __helper_alf_dequeue_load_mask c_head p_tail q ptr elems j.
Proof.
  intros Hok Hc Hn j.
  pose proof (ok_size_pos q Hok) as Hs. pose proof (ok_size_le q Hok) as Hle.
  unfold dequeue_load_two_blocks, __helper_alf_dequeue_load_mask.
  rewrite (dequeue_load_mask_loop_get (size q) (mask q) (ok_shape q Hok)) by lia.
  rewrite Z2Nat.id, Z.add_0_l, Z.sub_0_r by lia. unfold memcpy.
  destruct (Z.leb_spec 0 j); [destruct (Z.ltb_spec j elems)|]; cbn [andb].
  - window (size q) (c_head + j); rewrite W; split_tests;
      try lia; try reflexivity; f_equal; lia.
  - split_tests; try lia; reflexivity.
  - split_tests; try lia; reflexivity.
Qed.


Ltac concrete_inv :=
  unfold alf_queue_inv, alf_queue_ok, actor_idle; cbn;
  repeat split; (reflexivity || lia).

(** C7: the block-copy helpers differ from the masked ones on calls the
    queue really makes.  The store decides whether the batch wraps by
    comparing [p_head] with [c_tail]: on an empty ring of size 4 at
    index 3 it copies a batch of two in one block and leaves slot 0
    unwritten; on a ring of size 8 with [p_head = 1] and [c_tail = 5] it
    splits a batch that does not wrap after [size - c_tail] references
    and overwrites slot 1.  The load, when the queued references wrap,
    takes the length of its second block from [p_tail]: with
    [c_head = 7] and [p_tail = 1] on a ring of size 8 the second of two
    references is never copied. *)
Theorem memcpy_helpers_defective :
  (exists q ptr n j,
     alf_queue_inv q /\ 0 < n <= alf_queue_avail_space q /\
     tail (consumer q) <= head (producer q) /\ 0 <= j < size q /\
     ring (__helper_alf_enqueue_store_memcpy
             (head (producer q)) (tail (consumer q)) q ptr n) j <>
     ring (__helper_alf_enqueue_store_mask
             (head (producer q)) (tail (consumer q)) q ptr n) j) /\
  (exists q ptr n j,
     alf_queue_inv q /\ 0 < n <= alf_queue_avail_space q /\
     head (producer q) < tail (consumer q) /\ 0 <= j < size q /\
     ring (__helper_alf_enqueue_store_memcpy
             (head (producer q)) (tail (consumer q)) q ptr n) j <>
     ring (__helper_alf_enqueue_store_mask
             (head (producer q)) (tail (consumer q)) q ptr n) j) /\
  (exists q ptr elems,
     alf_queue_inv q /\ 0 < elems <= alf_queue_count q /\
     elements (__helper_alf_dequeue_load_memcpy
                 (head (consumer q)) (tail (producer q)) q ptr elems) elems <>
     elements (__helper_alf_dequeue_load_mask
                 (head (consumer q)) (tail (producer q)) q ptr elems) elems).
Proof.
  split; [|split].
  - exists (mk_queue 4 3 0 (mk_actor 3 3) (mk_actor 3 3) (fun _ => 0)),
      (array_of [1; 2]), 2, 0.
    split; [concrete_inv|]. repeat split; try (cbv; congruence).
  - exists (mk_queue 8 7 0 (mk_actor 1 1) (mk_actor 5 5) (fun _ => 0)),
      (array_of [1; 2]), 2, 1.
    split; [concrete_inv|]. repeat split; try (cbv; congruence).
  - exists (mk_queue 8 7 0 (mk_actor 1 1) (mk_actor 7 7) (fun i => 10 + i)),
      (fun _ => 0), 2.
    split; [concrete_inv|]. repeat split; try (cbv; congruence).
Qed.

(** ** Enqueue: all or nothing *)



(** ** Dequeue: partial acceptance *)



(** ** First in, first out *)

Lemma alf_queue_empty_count q :
  alf_queue_inv q -> alf_queue_empty q = (alf_queue_count q =? 0).
Proof.
  intros (Hok & [Hp Hpt] & [Hc Hct]).
  rewrite alf_queue_count_mod by assumption.
  unfold alf_queue_empty. rewrite Hct, Hpt.
  pose proof (ok_size_pos q Hok).
  window (size q) (head (producer q) - head (consumer q));
    destruct (Z.eqb_spec (head (consumer q)) (head (producer q)));
    destruct (Z.eqb_spec ((head (producer q) - head (consumer q)) mod size q) 0);
    try reflexivity; lia.
Qed.

Lemma contents_nil q :
  alf_queue_inv q -> alf_queue_empty q = true -> contents q = [].
Proof.
  intros Hinv He. rewrite (alf_queue_empty_count q Hinv) in He.
  apply Z.eqb_eq in He. unfold contents. rewrite He. reflexivity.
Qed.

Lemma nil_contents_empty q :
  alf_queue_inv q -> contents q = [] -> alf_queue_empty q = true.
Proof.
  intros Hinv Hnil. rewrite (alf_queue_empty_count q Hinv). apply Z.eqb_eq.
  rewrite <- contents_length, Hnil by apply Hinv. reflexivity.
Qed.

(** C4: five references enqueued as one batch into an empty queue of
    capacity at least five come out, two at a time, as the first two, the
    next two and then the last one, in the order of the batch; the queue
    is empty again afterwards. *)
Theorem fifo_round_trip (q : alf_queue) (a b c d e : val) (out1 out2 out3 : cells) :
  alf_queue_inv q -> alf_queue_empty q = true -> 5 <= size q - 1 ->
  exists q1 q2 q3 q4 o1 o2 o3,
    alf_mp_enqueue q (array_of [a; b; c; d; e]) 5 = Returns 5 q1 /\
    alf_mc_dequeue q1 out1 2 = Returns 2 (q2, o1) /\ elements o1 2 = [a; b] /\
    alf_mc_dequeue q2 out2 2 = Returns 2 (q3, o2) /\ elements o2 2 = [c; d] /\
    alf_mc_dequeue q3 out3 2 = Returns 1 (q4, o3) /\ elements o3 1 = [e] /\
    alf_queue_empty q4 = true.
Proof.
  intros Hinv He Hcap.
  pose proof (contents_nil q Hinv He) as Hnil.
  pose proof (count_plus_space q Hinv) as Hsum.
  rewrite <- contents_length, Hnil in Hsum by apply Hinv.
  destruct (alf_mp_enqueue_appends q (array_of [a; b; c; d; e]) 5 Hinv)
    as (q1 & Hr1 & Hinv1 & Hc1); [cbn [length Z.of_nat] in Hsum; lia|].
  rewrite Hnil in Hc1. change (contents q1 = [a; b; c; d; e]) in Hc1.
  destruct (alf_mc_dequeue_takes q1 out1 2 Hinv1) as (q2 & o1 & Hr2 & Hinv2 & Ho1 & Hc2);
    [lia|].
  rewrite <- contents_length, Hc1 in Hr2, Ho1 by apply Hinv1.
  rewrite Hc1 in Hc2.
  destruct (alf_mc_dequeue_takes q2 out2 2 Hinv2) as (q3 & o2 & Hr3 & Hinv3 & Ho2 & Hc3);
    [lia|].
  rewrite <- contents_length, Hc2 in Hr3, Ho2 by apply Hinv2.
  rewrite Hc2 in Hc3.
  destruct (alf_mc_dequeue_takes q3 out3 2 Hinv3) as (q4 & o3 & Hr4 & Hinv4 & Ho3 & Hc4);
    [lia|].
  rewrite <- contents_length, Hc3 in Hr4, Ho3 by apply Hinv3.
  rewrite Hc3 in Hc4.
  exists q1, q2, q3, q4, o1, o2, o3.
  repeat split; try assumption.
  apply nil_contents_empty; assumption.
Qed.

Lemma fifo_round_trip_witness :
  let q := mk_queue 8 7 0 (mk_actor 6 6) (mk_actor 6 6) (fun _ => 0) in
  alf_queue_inv q /\ alf_queue_empty q = true /\ 5 <= size q - 1 /\
  exists q1 q2 q3 q4 o1 o2 o3,
    alf_mp_enqueue q (array_of [1; 2; 3; 4; 5]) 5 = Returns 5 q1 /\
    alf_mc_dequeue q1 (fun _ => 0) 2 = Returns 2 (q2, o1) /\ elements o1 2 = [1; 2] /\
    alf_mc_dequeue q2 (fun _ => 0) 2 = Returns 2 (q3, o2) /\ elements o2 2 = [3; 4] /\
    alf_mc_dequeue q3 (fun _ => 0) 2 = Returns 1 (q4, o3) /\ elements o3 1 = [5] /\
    alf_queue_empty q4 = true.
Proof.
  intros q.
  assert (Hinv : alf_queue_inv q) by concrete_inv.
  split; [exact Hinv|]. split; [reflexivity|]. split; [vm_compute; discriminate|].
  apply (fifo_round_trip q 1 2 3 4 5 (fun _ => 0) (fun _ => 0) (fun _ => 0) Hinv).
  - reflexivity.
  - vm_compute; discriminate.
Defined.

(** ** Count, space and capacity *)

(** C5: in every state reached from a fresh queue by completed enqueue
    and dequeue calls, the count and the available space add up to
    [size - 1]. *)
Theorem count_plus_space_is_capacity (q : alf_queue) :
  reachable q -> alf_queue_count q + alf_queue_avail_space q = size q - 1.
Proof. intros Hr. apply count_plus_space, reachable_inv, Hr. Qed.

Lemma count_plus_space_is_capacity_witness :
  let q0 := mk_queue 4 3 0 (mk_actor 0 0) (mk_actor 0 0) (fun _ => 0) in
  let q1 := mk_queue 4 3 0 (mk_actor 2 2) (mk_actor 0 0)
              (enqueue_store_mask_loop 2 0 0 3 (array_of [7; 8]) (fun _ => 0)) in
  reachable q1 /\ alf_queue_count q1 = 2 /\
  alf_queue_count q1 + alf_queue_avail_space q1 = size q1 - 1.
Proof.
  intros q0 q1.
  assert (Hr : reachable q1).
  { apply (reach_enqueue q0 (array_of [7; 8]) 2 2 q1).
    - apply (reach_alloc 4 (fun _ => 0)). reflexivity.
    - lia.
    - reflexivity. }
  split; [exact Hr|]. split; [reflexivity|].
  exact (count_plus_space_is_capacity q1 Hr).
Defined.

(** C6: an empty queue of size 4 takes three single references, each
    call returning 1, and refuses the fourth with [-ENOBUFS]: it holds
    [size - 1 = 3] references and no more. *)
Theorem capacity_boundary (q : alf_queue) (p1 p2 p3 p4 : cells) :
  alf_queue_inv q -> size q = 4 -> alf_queue_empty q = true ->
  exists q1 q2 q3,
    mask q = 3 /\
    alf_mp_enqueue q p1 1 = Returns 1 q1 /\
    alf_mp_enqueue q1 p2 1 = Returns 1 q2 /\
    alf_mp_enqueue q2 p3 1 = Returns 1 q3 /\
    alf_mp_enqueue q3 p4 1 = Returns (- ENOBUFS) q3 /\
    alf_queue_count q3 = 3 /\ alf_queue_avail_space q3 = 0 /\
    contents q3 = [p1 0; p2 0; p3 0].
Proof.
  intros Hinv Hsz He.
  assert (Hspace : forall q', alf_queue_inv q' -> size q' = 4 ->
            alf_queue_avail_space q' = 3 - Z.of_nat (length (contents q'))).
  { intros q' Hinv' Hsz'. pose proof (count_plus_space q' Hinv') as Hsum.
    rewrite contents_length by apply Hinv'. lia. }
  assert (Hstep : forall q' p, alf_queue_inv q' -> size q' = 4 ->
            (length (contents q') < 3)%nat ->
            exists q'', alf_mp_enqueue q' p 1 = Returns 1 q'' /\
              alf_queue_inv q'' /\ size q'' = 4 /\ contents q'' = contents q' ++ [p 0]).
  { intros q' p Hinv' Hsz' Hlen.
    destruct (alf_mp_enqueue_appends q' p 1 Hinv') as (q'' & Hr & Hinv'' & Hc).
    - rewrite (Hspace q' Hinv' Hsz'). lia.
    - exists q''. repeat split; try assumption; try apply Hinv''.
      destruct (alf_mp_enqueue_stores q' p 1 (proj1 Hinv') (proj2 (proj1 (proj2 Hinv'))))
        as (q2 & Hr2 & Hsz2 & _).
      + rewrite (Hspace q' Hinv' Hsz'). lia.
      + rewrite Hr in Hr2. injection Hr2 as ->. congruence. }
  pose proof (contents_nil q Hinv He) as Hnil.
  destruct (Hstep q p1 Hinv Hsz) as (q1 & Hr1 & Hinv1 & Hsz1 & Hc1);
    [rewrite Hnil; cbn; lia|].
  rewrite Hnil in Hc1. cbn [app] in Hc1.
  destruct (Hstep q1 p2 Hinv1 Hsz1) as (q2 & Hr2 & Hinv2 & Hsz2 & Hc2);
    [rewrite Hc1; cbn; lia|].
  rewrite Hc1 in Hc2. cbn [app] in Hc2.
  destruct (Hstep q2 p3 Hinv2 Hsz2) as (q3 & Hr3 & Hinv3 & Hsz3 & Hc3);
    [rewrite Hc2; cbn; lia|].
  rewrite Hc2 in Hc3. cbn [app] in Hc3.
  pose proof (Hspace q3 Hinv3 Hsz3) as Hsp3. rewrite Hc3 in Hsp3.
  exists q1, q2, q3.
  split.
  { destruct (ok_shape q (proj1 Hinv)) as (k & _ & Hs & Hm). lia. }
  repeat split; try assumption.
  - apply alf_mp_enqueue_full; [apply Hinv3|]. rewrite Hsp3. cbn. lia.
  - rewrite <- contents_length, Hc3 by apply Hinv3. reflexivity.
Qed.

Lemma capacity_boundary_witness :
  let q := mk_queue 4 3 0 (mk_actor 0 0) (mk_actor 0 0) (fun _ => 0) in
  alf_queue_alloc 4 (fun _ => 0) = Some q /\
  alf_queue_inv q /\ size q = 4 /\ alf_queue_empty q = true /\
  exists q1 q2 q3,
    alf_mp_enqueue q (array_of [1]) 1 = Returns 1 q1 /\
    alf_mp_enqueue q1 (array_of [2]) 1 = Returns 1 q2 /\
    alf_mp_enqueue q2 (array_of [3]) 1 = Returns 1 q3 /\
    alf_mp_enqueue q3 (array_of [4]) 1 = Returns (- ENOBUFS) q3 /\
    contents q3 = [1; 2; 3].
Proof.
  intros q.
  assert (Hinv : alf_queue_inv q) by concrete_inv.
  split; [reflexivity|]. split; [exact Hinv|]. split; [reflexivity|].
  split; [reflexivity|].
  destruct (capacity_boundary q (array_of [1]) (array_of [2]) (array_of [3])
              (array_of [4]) Hinv eq_refl eq_refl)
    as (q1 & q2 & q3 & _ & H1 & H2 & H3 & H4 & _ & _ & Hc).
  exists q1, q2, q3. repeat split; assumption.
Defined.

(** ** Cursors are stored reduced *)

(** C9: in every state reached from a fresh queue all four cursors lie in
    [0, size), and every call keeps them there.  An enqueue of [n] is
    refused exactly when [n] exceeds the free space, and then leaves the
    state as it is; otherwise it returns [n] and has stored
    [(head + n) & mask] into both producer cursors.  A dequeue hands out
    [r = min (count, n)] references and has stored [(head + r) & mask]
    into both consumer cursors (with [r = 0] that is the old head).  The
    value stored is the sum reduced modulo [size]: the cursors wrap at
    [size], not at [2^32].  Neither call writes a cursor of the other
    side. *)
Theorem cursors_wrap_at_size (q : alf_queue) :
  reachable q ->
  cursors_in_range q /\
  (forall ptr n, 0 <= n < 2 ^ 32 ->
     exists r q', alf_mp_enqueue q ptr n = Returns r q' /\ cursors_in_range q' /\
       (alf_queue_avail_space q < n -> r = - ENOBUFS /\ q' = q) /\
       (n <= alf_queue_avail_space q ->
        r = n /\
        head (producer q') = Z.land (u32 (head (producer q) + n)) (mask q) /\
        tail (producer q') = Z.land (u32 (head (producer q) + n)) (mask q) /\
        Z.land (u32 (head (producer q) + n)) (mask q) =
          (head (producer q) + n) mod size q /\
        consumer q' = consumer q)) /\
  (forall ptr n, 0 <= n < 2 ^ 32 ->
     exists q' ptr',
       alf_mc_dequeue q ptr n = Returns (Z.min (alf_queue_count q) n) (q', ptr') /\
       cursors_in_range q' /\
       head (consumer q') =
         Z.land (u32 (head (consumer q) + Z.min (alf_queue_count q) n)) (mask q) /\
       tail (consumer q') =
         Z.land (u32 (head (consumer q) + Z.min (alf_queue_count q) n)) (mask q) /\
       Z.land (u32 (head (consumer q) + Z.min (alf_queue_count q) n)) (mask q) =
         (head (consumer q) + Z.min (alf_queue_count q) n) mod size q /\
       producer q' = producer q).
Proof.
  intros Hr. pose proof (reachable_inv q Hr) as Hinv.
  assert (Hrange : forall q0, alf_queue_inv q0 -> cursors_in_range q0).
  { intros q0 (_ & [Hp Hpt] & [Hc Hct]). unfold cursors_in_range.
    rewrite Hpt, Hct. tauto. }
  split; [apply Hrange, Hinv|]. split.
  - intros ptr n Hn.
    destruct (Z_lt_le_dec (alf_queue_avail_space q) n) as [Hfull | Hfits].
    + exists (- ENOBUFS), q. split; [|split; [apply Hrange, Hinv|]].
      * apply alf_mp_enqueue_full; [apply Hinv | assumption].
      * split; [tauto | lia].
    + destruct (alf_mp_enqueue_appends q ptr n Hinv (conj (proj1 Hn) Hfits))
        as (q' & Hr' & Hinv' & _).
      destruct (alf_mp_enqueue_stores q ptr n (proj1 Hinv)
                  (proj2 (proj1 (proj2 Hinv))) (conj (proj1 Hn) Hfits))
        as (q2 & Hr2 & _ & _ & _ & Hcons & Hh & Ht & _).
      rewrite Hr' in Hr2. injection Hr2 as <-.
      exists n, q'. split; [assumption|]. split; [apply Hrange, Hinv'|].
      split; [lia|]. intros _. rewrite land_mask by apply Hinv. tauto.
  - intros ptr n Hn.
    destruct (alf_mc_dequeue_takes q ptr n Hinv (proj1 Hn))
      as (q' & ptr' & Hr' & Hinv' & _).
    destruct (alf_mc_dequeue_loads q ptr n Hinv (proj1 Hn))
      as (q2 & ptr2 & Hr2 & _ & _ & _ & Hprod & _ & Hh & Ht & _).
    rewrite Hr' in Hr2. injection Hr2 as <- <-.
    exists q', ptr'.
    split; [assumption|]. split; [apply Hrange, Hinv'|].
    rewrite land_mask by apply Hinv. tauto.
Qed.

Lemma cursors_wrap_at_size_witness :
  let q := mk_queue 4 3 0 (mk_actor 3 3) (mk_actor 3 3)
             (enqueue_store_mask_loop 3 0 0 3 (array_of [7; 8; 9]) (fun _ => 0)) in
  let q' := mk_queue 4 3 0 (mk_actor 1 1) (mk_actor 3 3)
              (enqueue_store_mask_loop 2 0 3 3 (array_of [1; 2]) (ring q)) in
  reachable q /\
  alf_mp_enqueue q (array_of [1; 2]) 2 = Returns 2 q' /\
  head (producer q') = (3 + 2) mod 4 /\ cursors_in_range q' /\
  exists q'' out,
    alf_mc_dequeue q' (fun _ => 0) 2 = Returns 2 (q'', out) /\
    head (consumer q'') = (3 + 2) mod 4 /\ tail (consumer q'') = (3 + 2) mod 4 /\
    producer q'' = producer q' /\ cursors_in_range q''.
Proof.
  intros q q'.
  assert (Hr : reachable q).
  { apply (reach_dequeue
             (mk_queue 4 3 0 (mk_actor 3 3) (mk_actor 0 0) (ring q))
             (fun _ => 0) 3 3 q
             (dequeue_load_mask_loop 3 0 0 3 (ring q) (fun _ => 0)));
      [|lia|reflexivity].
    apply (reach_enqueue
             (mk_queue 4 3 0 (mk_actor 0 0) (mk_actor 0 0) (fun _ => 0))
             (array_of [7; 8; 9]) 3 3); [|lia|reflexivity].
    apply (reach_alloc 4 (fun _ => 0)). reflexivity. }
  split; [exact Hr|].
  destruct (cursors_wrap_at_size q Hr) as (_ & Henq & _).
  destruct (Henq (array_of [1; 2]) 2 ltac:(lia)) as (r & qx & He & Hin & _ & Hfit).
  assert (E : alf_mp_enqueue q (array_of [1; 2]) 2 = Returns 2 q') by reflexivity.
  rewrite E in He. injection He as <- <-.
  destruct (Hfit ltac:(vm_compute; discriminate)) as (_ & Hh & _ & Hm & _).
  split; [exact E|]. split; [rewrite Hh; exact Hm|]. split; [exact Hin|].
  assert (Hr' : reachable q').
  { apply (reach_enqueue q (array_of [1; 2]) 2 2 q' Hr); [lia | exact E]. }
  destruct (cursors_wrap_at_size q' Hr') as (_ & _ & Hdeq).
  destruct (Hdeq (fun _ => 0) 2 ltac:(lia))
    as (q'' & out & Hd & Hin2 & Hh2 & Ht2 & Hm2 & Hp2).
  exists q'', out. split; [exact Hd|].
  split; [rewrite Hh2; exact Hm2|]. split; [rewrite Ht2; exact Hm2|].
  split; [exact Hp2 | exact Hin2].
Defined.

Import Conc.

(** ** Calls of length zero *)




(** ** Concurrent callers *)

(** The single-caller functions are what the step machines do when one
    thread runs alone from the entry of the call. *)
Lemma solo_enqueue_returns q ptr n r q' :
  alf_mp_enqueue q ptr n = Returns r q' ->
  solo 6 q (Producer ptr n EnqReadHead) = (q', Producer ptr n (EnqReturn r)).
Proof.
  unfold alf_mp_enqueue. cbn [solo thread_step enq_step].
  destruct (Z.land (u32 (tail (consumer q) - head (producer q) - 1)) (mask q) <? n).
  - intros E. injection E as <- <-. reflexivity.
  - rewrite Z.eqb_refl. cbn [solo thread_step enq_step].
    set (q2 := __helper_alf_enqueue_store _ _ _ _ _).
    destruct (tail (producer q2) =? head (producer q)); [|discriminate].
    intros E. injection E as <- <-. reflexivity.
Qed.

Lemma solo_wait_forever q ptr n p_head p_next k :
  tail (producer q) <> p_head ->
  solo k q (Producer ptr n (EnqWait p_head p_next)) =
  (q, Producer ptr n (EnqWait p_head p_next)).
Proof.
  intros Hne. induction k as [|k IH]; [reflexivity|].
  cbn [solo thread_step enq_step].
  destruct (Z.eqb_spec (tail (producer q)) p_head); [contradiction | exact IH].
Qed.

Lemma solo_enqueue_spins q ptr n q' :
  alf_mp_enqueue q ptr n = Spins q' ->
  forall k, exists p_head p_next,
    solo (4 + k) q (Producer ptr n EnqReadHead) =
    (q', Producer ptr n (EnqWait p_head p_next)).
Proof.
  unfold alf_mp_enqueue. intros E k. cbn [solo thread_step enq_step Nat.add].
  destruct (Z.land (u32 (tail (consumer q) - head (producer q) - 1)) (mask q) <? n);
    [discriminate|].
  rewrite Z.eqb_refl. cbn [solo thread_step enq_step].
  revert E. set (q2 := __helper_alf_enqueue_store _ _ _ _ _).
  destruct (Z.eqb_spec (tail (producer q2)) (head (producer q))); [discriminate|].
  intros E. injection E as <-.
  eexists. eexists. apply solo_wait_forever. assumption.
Qed.

Lemma solo_dequeue_returns q ptr n r q' ptr' :
  alf_mc_dequeue q ptr n = Returns r (q', ptr') ->
  solo 6 q (Consumer ptr n DeqReadHead) = (q', Consumer ptr' n (DeqReturn r)).
Proof.
  unfold alf_mc_dequeue. cbn [solo thread_step deq_step].
  destruct (Z.land (u32 (tail (producer q) - head (consumer q))) (mask q) =? 0).
  - intros E. injection E as <- <- <-. reflexivity.
  - rewrite Z.eqb_refl. cbn [solo thread_step deq_step set_consumer consumer tail].
    destruct (tail (consumer q) =? head (consumer q)); [|discriminate].
    intros E. injection E as <- <- <-. reflexivity.
Qed.

(** Under every schedule the cursors stay inside the ring: each value a
    thread stores into a cursor has been reduced with the mask. *)
Lemma land_mask_range q x :
  alf_queue_ok q -> 0 <= Z.land (u32 x) (mask q) < size q.
Proof.
  intros Hok. rewrite land_mask by assumption.
  apply Z.mod_pos_bound, ok_size_pos, Hok.
Qed.

Lemma thread_step_ok q t :
  alf_queue_ok q -> cursors_in_range q -> next_in_range (size q) t ->
  alf_queue_ok (fst (thread_step q t)) /\
  size (fst (thread_step q t)) = size q /\
  cursors_in_range (fst (thread_step q t)) /\
  next_in_range (size q) (snd (thread_step q t)).
Proof.
  intros Hok Hin Hnx. pose proof Hin as (Hph & Hpt & Hch & Hct).
  destruct t as [ptr n pc | ptr n pc]; destruct pc;
    cbn [thread_step enq_step deq_step];
    repeat match goal with
           | |- context [if ?b then _ else _] => destruct b
           end;
    cbn [fst snd next_in_range]; unfold cursors_in_range;
    cbn [set_producer set_consumer producer consumer head tail size];
    repeat split; try assumption; try apply Hph; try apply Hpt; try apply Hch;
    try apply Hct; try apply Hnx; try (apply land_mask_range; assumption).
Qed.

Lemma set_nth_Forall {A : Type} (P : A -> Prop) i x l :
  Forall P l -> P x -> Forall P (set_nth i x l).
Proof.
  intros Hl Hx. revert i. induction Hl as [|y l Hy Hl IH]; intros [|i];
    cbn [set_nth]; constructor; auto.
Qed.

Lemma sched_step_ok c i : config_ok c -> config_ok (sched_step c i).
Proof.
  intros (Hok & Hin & Hts). unfold sched_step.
  destruct (nth_error (threads c) i) as [t|] eqn:Ht;
    [|exact (conj Hok (conj Hin Hts))].
  assert (Hnx : next_in_range (size (shared c)) t).
  { rewrite Forall_forall in Hts. apply Hts. eapply nth_error_In, Ht. }
  destruct (thread_step_ok (shared c) t Hok Hin Hnx) as (Hok' & Hsz & Hin' & Hnx').
  destruct (thread_step (shared c) t) as [q' t']. cbn [fst snd] in *.
  unfold config_ok. cbn [shared threads]. rewrite Hsz.
  split; [assumption|]. split; [assumption|].
  apply set_nth_Forall; assumption.
Qed.

Lemma run_ok sched : forall c, config_ok c -> config_ok (run sched c).
Proof.
  unfold run. induction sched as [|i sched IH]; intros c Hc; [assumption|].
  cbn [fold_left]. apply IH, sched_step_ok, Hc.
Qed.

Lemma entry_config_ok sz mem q ts :
  alf_queue_alloc sz mem = Some q -> forallb at_entry ts = true ->
  config_ok (mk_config q ts).
Proof.
  intros Ha Hts. destruct (alf_queue_alloc_inv sz mem q Ha) as ((Hok & [Hp Hpt] & [Hc Hct]) & _).
  split; [assumption|]. split.
  - unfold cursors_in_range. cbn [shared]. rewrite Hpt, Hct. tauto.
  - cbn [shared threads]. rewrite forallb_forall in Hts. apply Forall_forall.
    intros t Ht. specialize (Hts t Ht).
    destruct t as [ptr n pc | ptr n pc]; destruct pc; try discriminate; exact I.
Qed.

(** C8: reservations granted at the same time on one side are meant to
    be disjoint, but a [cmpxchg] on a cursor that is stored reduced
    cannot tell a head that has not moved from one that has gone once
    round the ring.  On a fresh queue of size 4: producer 0 (three
    references) reads both cursors and is delayed; producer 1 enqueues
    three and consumer 2 dequeues them; producer 3 (one reference)
    reserves slot 3, which takes the head back to 0; producer 0's
    [cmpxchg] now succeeds and takes slots 0 to 2 on a snapshot that is
    one lap old; producer 4 (one reference) then sees three free slots
    and reserves slot 3 as well.  Producers 3 and 4 both hold slot 3, and
    neither has published. *)
Theorem reservations_overlap_after_wrap :
  let q0 := mk_queue 4 3 0 (mk_actor 0 0) (mk_actor 0 0) (fun _ => 0) in
  let ts := [Producer (array_of [1; 2; 3]) 3 EnqReadHead;
             Producer (array_of [4; 5; 6]) 3 EnqReadHead;
             Consumer (fun _ => 0) 3 DeqReadHead;
             Producer (array_of [7]) 1 EnqReadHead;
             Producer (array_of [8]) 1 EnqReadHead] in
  let sched := [0; 0; 1; 1; 1; 1; 1; 1; 2; 2; 2; 2; 2; 2; 3; 3; 3; 0; 4; 4; 4]%nat in
  let c := run sched (mk_config q0 ts) in
  alf_queue_alloc 4 (fun _ => 0) = Some q0 /\
  forallb at_entry ts = true /\
  map reservation (threads c) = [Some (0, 3); None; None; Some (3, 1); Some (3, 1)] /\
  slots (mask (shared c)) (3, 1) = [3] /\
  ~ reservations_disjoint c.
Proof.
  intros q0 ts sched c.
  split; [reflexivity|]. split; [reflexivity|].
  split; [reflexivity|]. split; [reflexivity|].
  intros Hdisj.
  specialize (Hdisj 3%nat 4%nat
                (Producer (array_of [7]) 1 (EnqStore 3 3 0))
                (Producer (array_of [8]) 1 (EnqStore 3 3 0))
                (3, 1) (3, 1)).
  assert (Hov : overlap (mask (shared c)) (3, 1) (3, 1) = false).
  { apply Hdisj; try reflexivity. discriminate. }
  vm_compute in Hov. discriminate.
Qed.

(** Once the five calls of that schedule have all returned, every enqueue
    has reported success, eleven references went in and three came out,
    yet the queue counts one: reference 7 was overwritten in slot 3 and
    the cursors no longer account for the rest. *)
Lemma overlap_loses_references :
  let q0 := mk_queue 4 3 0 (mk_actor 0 0) (mk_actor 0 0) (fun _ => 0) in
  let ts := [Producer (array_of [1; 2; 3]) 3 EnqReadHead;
             Producer (array_of [4; 5; 6]) 3 EnqReadHead;
             Consumer (fun _ => 0) 3 DeqReadHead;
             Producer (array_of [7]) 1 EnqReadHead;
             Producer (array_of [8]) 1 EnqReadHead] in
  let sched := [0; 0; 1; 1; 1; 1; 1; 1; 2; 2; 2; 2; 2; 2; 3; 3; 3; 0; 4; 4; 4;
                3; 0; 4; 3; 3; 0; 0; 4; 4]%nat in
  let c := run sched (mk_config q0 ts) in
  map returned (threads c) = [Some 3; Some 3; Some 3; Some 1; Some 1] /\
  alf_queue_count (shared c) = 1 /\
  map (ring (shared c)) [0; 1; 2; 3] = [1; 2; 3; 8].
Proof. repeat split. Qed.

(** * Further properties *)

(** ** The advisory values *)

Lemma count_and_space_bounds (q : alf_queue) :
  alf_queue_ok q ->
  0 <= alf_queue_count q <= size q - 1 /\
  0 <= alf_queue_avail_space q <= size q - 1.
Proof.
  intros Hok. pose proof (ok_size_pos q Hok) as Hs.
  rewrite alf_queue_count_mod, alf_queue_avail_space_mod by assumption.
  pose proof (Z.mod_pos_bound (tail (producer q) - head (consumer q)) (size q) Hs).
  pose proof (Z.mod_pos_bound (tail (consumer q) - head (producer q) - 1) (size q) Hs).
  lia.
Qed.

(** X4: whatever the four cursors hold, on a queue of the allocator's
    shape the count and the available space are both between 0 and
    [size - 1]: neither is ever negative, and neither ever reaches
    [size]. *)
Theorem introspection_within_capacity (q : alf_queue) :
  alf_queue_ok q ->
  0 <= alf_queue_count q <= size q - 1 /\
  0 <= alf_queue_avail_space q <= size q - 1.
Proof. exact (count_and_space_bounds q). Qed.

Lemma introspection_within_capacity_witness :
  let q := mk_queue 8 7 0 (mk_actor 4294967295 17) (mk_actor 123456 5) (fun _ => 0) in
  alf_queue_ok q /\
  0 <= alf_queue_count q <= 7 /\ 0 <= alf_queue_avail_space q <= 7.
Proof.
  intros q. split; [reflexivity|].
  exact (introspection_within_capacity q eq_refl).
Defined.

(** X5: on a queue between two calls, [alf_queue_empty] answers true
    exactly when the count is 0, exactly when the available space is the
    whole capacity [size - 1], and exactly when no reference is queued;
    so a queue filled to capacity is never taken for an empty one. *)
Theorem alf_queue_empty_iff (q : alf_queue) :
  alf_queue_inv q ->
  (alf_queue_empty q = true <-> alf_queue_count q = 0) /\
  (alf_queue_empty q = true <-> alf_queue_avail_space q = size q - 1) /\
  (alf_queue_empty q = true <-> contents q = []) /\
  (1 < size q -> alf_queue_count q = size q - 1 -> alf_queue_empty q = false).
Proof.
  intros Hinv.
  pose proof (alf_queue_empty_count q Hinv) as He.
  pose proof (count_plus_space q Hinv) as Hsum.
  assert (H0 : alf_queue_empty q = true <-> alf_queue_count q = 0).
  { rewrite He. apply Z.eqb_eq. }
  split; [exact H0|]. split; [|split].
  - rewrite H0. lia.
  - split.
    + apply contents_nil, Hinv.
    + apply nil_contents_empty, Hinv.
  - intros Hs Hfull. destruct (alf_queue_empty q); [|reflexivity].
    assert (alf_queue_count q = 0) by (apply H0; reflexivity). lia.
Qed.

Lemma alf_queue_empty_iff_witness :
  let q := mk_queue 4 3 0 (mk_actor 1 1) (mk_actor 2 2) (fun _ => 0) in
  alf_queue_inv q /\ 1 < size q /\ alf_queue_count q = size q - 1 /\
  alf_queue_empty q = false.
Proof.
  intros q.
  assert (Hinv : alf_queue_inv q) by concrete_inv.
  split; [exact Hinv|]. split; [reflexivity|]. split; [reflexivity|].
  destruct (alf_queue_empty_iff q Hinv) as (_ & _ & _ & H).
  apply H; reflexivity.
Defined.

(** ** Limits of a single call *)

(** X6: a batch of [size] references or more is refused with [-ENOBUFS]
    in every state of the cursors, the queue left as it is; and a
    dequeue on a queue between two calls never hands out more than
    [size - 1] references however many are asked for. *)
Theorem no_call_moves_a_full_ring (q : alf_queue) (ptr : cells) (n : Z) :
  alf_queue_ok q -> size q <= n ->
  alf_mp_enqueue q ptr n = Returns (- ENOBUFS) q /\
  (alf_queue_inv q ->
   exists r q' ptr', alf_mc_dequeue q ptr n = Returns r (q', ptr') /\
     0 <= r <= size q - 1).
Proof.
  intros Hok Hn. pose proof (count_and_space_bounds q Hok) as [Hc Hsp].
  split.
  - apply alf_mp_enqueue_full; [assumption | lia].
  - intros Hinv. pose proof (ok_size_pos q Hok).
    destruct (alf_mc_dequeue_takes q ptr n Hinv) as (q' & ptr' & Hr & _); [lia|].
    exists (Z.min (alf_queue_count q) n), q', ptr'. split; [assumption | lia].
Qed.

Lemma no_call_moves_a_full_ring_witness :
  let q := mk_queue 4 3 0 (mk_actor 0 0) (mk_actor 0 0) (fun _ => 0) in
  alf_queue_ok q /\ size q <= 4 /\
  alf_mp_enqueue q (array_of [1; 2; 3; 4]) 4 = Returns (- ENOBUFS) q.
Proof.
  intros q. split; [reflexivity|]. split; [vm_compute; discriminate|].
  apply (no_call_moves_a_full_ring q (array_of [1; 2; 3; 4]) 4 eq_refl).
  vm_compute; discriminate.
Defined.

(** ** The queue as a list, call by call *)

Lemma alf_mp_enqueue_appends_counts (q : alf_queue) (ptr : cells) (n : Z) :
  alf_queue_inv q -> 0 <= n <= alf_queue_avail_space q ->
  exists q',
    alf_mp_enqueue q ptr n = Returns n q' /\ alf_queue_inv q' /\
    contents q' = contents q ++ elements ptr n /\
    alf_queue_count q' = alf_queue_count q + n /\
    alf_queue_avail_space q' = alf_queue_avail_space q - n.
Proof.
  intros Hinv Hn.
  destruct (alf_mp_enqueue_appends q ptr n Hinv Hn) as (q' & Hr & Hinv' & Hc).
  destruct (alf_mp_enqueue_stores q ptr n (proj1 Hinv) (proj2 (proj1 (proj2 Hinv))) Hn)
    as (q2 & Hr2 & Hsz & _).
  rewrite Hr in Hr2. injection Hr2 as <-.
  assert (Hcount : alf_queue_count q' = alf_queue_count q + n).
  { rewrite <- !contents_length by (apply Hinv || apply Hinv').
    rewrite Hc, length_app. unfold elements.
    rewrite length_map, length_seq. lia. }
  exists q'. repeat split; try assumption; try apply Hinv'.
  pose proof (count_plus_space q Hinv). pose proof (count_plus_space q' Hinv'). lia.
Qed.


(** X1: an enqueue that fits appends its batch behind the references
    already queued and touches none of them; the count grows by [n], the
    available space shrinks by [n], and the queue is again between two
    calls. *)
Theorem enqueue_appends_batch (q : alf_queue) (ptr : cells) (n : Z) :
  alf_queue_inv q -> 0 <= n <= alf_queue_avail_space q ->
  exists q',
    alf_mp_enqueue q ptr n = Returns n q' /\ alf_queue_inv q' /\
    contents q' = contents q ++ elements ptr n /\
    alf_queue_count q' = alf_queue_count q + n /\
    alf_queue_avail_space q' = alf_queue_avail_space q - n.
Proof. exact (alf_mp_enqueue_appends_counts q ptr n). Qed.

Lemma enqueue_appends_batch_witness :
  let q := mk_queue 4 3 0 (mk_actor 0 0) (mk_actor 3 3) (array_of [0; 0; 0; 9]) in
  alf_queue_inv q /\ 0 <= 2 <= alf_queue_avail_space q /\
  exists q', alf_mp_enqueue q (array_of [7; 8]) 2 = Returns 2 q' /\
    contents q' = [9; 7; 8].
Proof.
  intros q.
  assert (Hinv : alf_queue_inv q) by concrete_inv.
  split; [exact Hinv|]. split; [vm_compute; split; discriminate|].
  destruct (enqueue_appends_batch q (array_of [7; 8]) 2 Hinv) as (q' & Hr & _ & Hc & _).
  - vm_compute; split; discriminate.
  - exists q'. split; [exact Hr | exact Hc].
Defined.

(** X2: a dequeue changes nothing but the consumer cursors and the first
    [r] cells of the caller's array, [r] being the value returned: the
    ring, the producer cursors, [size], [mask] and [flags] are as
    before, every other cell of the caller's array keeps its value, the
    count drops by [r] and the available space grows by [r]. *)
Theorem dequeue_frame (q : alf_queue) (ptr : cells) (n : Z) :
  alf_queue_inv q -> 0 <= n < 2 ^ 32 ->
  exists r q' ptr',
    alf_mc_dequeue q ptr n = Returns r (q', ptr') /\
    ring q' = ring q /\ producer q' = producer q /\
    size q' = size q /\ mask q' = mask q /\ flags q' = flags q /\
    (forall j, ~ 0 <= j < r -> ptr' j = ptr j) /\
    alf_queue_count q' = alf_queue_count q - r /\
    alf_queue_avail_space q' = alf_queue_avail_space q + r.
Proof.
  intros Hinv Hn.
  destruct (alf_mc_dequeue_takes q ptr n Hinv (proj1 Hn))
    as (q' & ptr' & Hr & Hinv' & _ & Hrest).
  destruct (alf_mc_dequeue_loads q ptr n Hinv (proj1 Hn))
    as (q2 & ptr2 & Hr2 & Hsz & Hm & Hf & Hprod & Hring & _ & _ & Hptr).
  rewrite Hr in Hr2. injection Hr2 as <- <-.
  pose proof (count_and_space_bounds q (proj1 Hinv)) as [Hc _].
  assert (Hcount : alf_queue_count q' =
                   alf_queue_count q - Z.min (alf_queue_count q) n).
  { rewrite <- !contents_length by (apply Hinv || apply Hinv').
    rewrite Hrest, length_skipn.
    pose proof (contents_length q (proj1 Hinv)). lia. }
  exists (Z.min (alf_queue_count q) n), q', ptr'.
  repeat split; try assumption.
  - intros j Hj. rewrite Hptr.
    destruct (Z.leb_spec 0 j); [|reflexivity].
    destruct (Z.ltb_spec j (Z.min (alf_queue_count q) n)); [lia | reflexivity].
  - pose proof (count_plus_space q Hinv). pose proof (count_plus_space q' Hinv'). lia.
Qed.

Lemma dequeue_frame_witness :
  let q := mk_queue 4 3 0 (mk_actor 1 1) (mk_actor 3 3) (array_of [5; 6; 7; 8]) in
  alf_queue_inv q /\ 0 <= 1 < 2 ^ 32 /\
  exists r q' ptr',
    alf_mc_dequeue q (fun _ => 9) 1 = Returns r (q', ptr') /\
    ring q' = ring q /\ producer q' = producer q /\
    alf_queue_count q' = alf_queue_count q - r.
Proof.
  intros q.
  assert (Hinv : alf_queue_inv q) by concrete_inv.
  split; [exact Hinv|]. split; [lia|].
  destruct (dequeue_frame q (fun _ => 9) 1 Hinv ltac:(lia))
    as (r & q' & ptr' & Hr & Hring & Hprod & _ & _ & _ & _ & Hc & _).
  exists r, q', ptr'. repeat split; assumption.
Defined.



(** ** Any sequence of calls *)

Lemma do_call_fifo (front : list val) (h : history) (c : call) :
  alf_queue_inv (queue_now h) -> call_ok c ->
  front ++ enqueued h = dequeued h ++ contents (queue_now h) ->
  exists h', do_call h c = Some h' /\ alf_queue_inv (queue_now h') /\
    front ++ enqueued h' = dequeued h' ++ contents (queue_now h').
Proof.
  intros Hinv Hc Hlog. destruct c as [ptr n | ptr n]; cbn [do_call call_ok] in *.
  - destruct (Z_lt_le_dec (alf_queue_avail_space (queue_now h)) n) as [Hfull | Hfits].
    + rewrite (alf_mp_enqueue_full _ ptr n (proj1 Hinv) Hfull).
      eexists. split; [reflexivity|]. cbn. split; assumption.
    + destruct (alf_mp_enqueue_appends _ ptr n Hinv (conj (proj1 Hc) Hfits))
        as (q' & Hr & Hinv' & Hcont).
      rewrite Hr. eexists. split; [reflexivity|].
      cbn [queue_now enqueued dequeued].
      destruct (Z.ltb_spec n 0); [lia|].
      split; [assumption|].
      rewrite Hcont, !app_assoc, Hlog. reflexivity.
  - destruct (alf_mc_dequeue_takes _ ptr n Hinv (proj1 Hc))
      as (q' & ptr' & Hr & Hinv' & Hel & Hrest).
    rewrite Hr. eexists. split; [reflexivity|].
    cbn [queue_now enqueued dequeued].
    split; [assumption|].
    rewrite Hel, Hrest, <- app_assoc, firstn_skipn. assumption.
Qed.

(** X7: whatever calls the owner makes on a queue between two calls, and
    in whatever order, every one of them returns, and the references
    queued at the start followed by every reference enqueued since are
    exactly the references dequeued since followed by those still queued:
    references leave in the order they entered, none is lost and none
    appears twice. *)
Theorem fifo_history (q0 : alf_queue) (cs : list call) :
  alf_queue_inv q0 -> Forall call_ok cs ->
  exists h,
    do_calls (mk_history q0 [] []) cs = Some h /\
    alf_queue_inv (queue_now h) /\
    contents q0 ++ enqueued h = dequeued h ++ contents (queue_now h).
Proof.
  intros Hinv Hcs.
  assert (Hgen : forall h, alf_queue_inv (queue_now h) ->
            contents q0 ++ enqueued h = dequeued h ++ contents (queue_now h) ->
            exists h', do_calls h cs = Some h' /\ alf_queue_inv (queue_now h') /\
              contents q0 ++ enqueued h' = dequeued h' ++ contents (queue_now h')).
  { induction Hcs as [|c cs Hc Hcs IH]; intros h Hi Hlog.
    - exists h. split; [reflexivity | split; assumption].
    - destruct (do_call_fifo (contents q0) h c Hi Hc Hlog) as (h1 & H1 & Hi1 & Hlog1).
      cbn [do_calls]. rewrite H1. apply IH; assumption. }
  apply Hgen; [assumption|]. cbn. now rewrite app_nil_r.
Qed.

Lemma fifo_history_witness :
  let q0 := mk_queue 4 3 0 (mk_actor 3 3) (mk_actor 3 3) (fun _ => 0) in
  let cs := [Enqueue (array_of [1; 2]) 2; Dequeue (fun _ => 0) 1;
             Enqueue (array_of [3; 4; 5]) 3; Enqueue (array_of [6; 7]) 2;
             Dequeue (fun _ => 0) 5] in
  alf_queue_inv q0 /\ Forall call_ok cs /\
  exists h, do_calls (mk_history q0 [] []) cs = Some h /\
    enqueued h = [1; 2; 6; 7] /\ dequeued h = [1; 2; 6; 7] /\
    contents q0 ++ enqueued h = dequeued h ++ contents (queue_now h).
Proof.
  intros q0 cs.
  assert (Hinv : alf_queue_inv q0) by concrete_inv.
  assert (Hcs : Forall call_ok cs) by (repeat constructor; cbn; lia).
  split; [exact Hinv|]. split; [exact Hcs|].
  destruct (fifo_history q0 cs Hinv Hcs) as (h & Hh & _ & Hlog).
  exists h. split; [exact Hh|].
  assert (E : Some h = do_calls (mk_history q0 [] []) cs) by (symmetry; exact Hh).
  vm_compute in E. injection E as ->.
  repeat split.
Defined.

(** ** Where the helpers read and write *)

Lemma enqueue_store_mask_loop_outside sz msk
    (shape : exists k, 0 <= k <= 31 /\ sz = 2 ^ k /\ msk = 2 ^ k - 1) k :
  forall i index ptr r j,
    ~ 0 <= j < sz -> enqueue_store_mask_loop k i index msk ptr r j = r j.
Proof.
  pose proof (sz_pos sz msk shape) as Hs.
  induction k as [|k IH]; intros i index ptr r j Hj; [reflexivity|].
  cbn [enqueue_store_mask_loop]. rewrite IH by assumption.
  unfold store. rewrite (land_msk sz msk shape).
  pose proof (Z.mod_pos_bound index sz Hs).
  destruct (Z.eqb_spec j (index mod sz)); [lia | reflexivity].
Qed.

Lemma dequeue_load_mask_loop_ext sz msk
    (shape : exists k, 0 <= k <= 31 /\ sz = 2 ^ k /\ msk = 2 ^ k - 1) k :
  forall i index r1 r2 ptr1 ptr2,
    (forall s, 0 <= s < sz -> r1 s = r2 s) -> (forall j, ptr1 j = ptr2 j) ->
    forall j, dequeue_load_mask_loop k i index msk r1 ptr1 j =
              dequeue_load_mask_loop k i index msk r2 ptr2 j.
Proof.
  pose proof (sz_pos sz msk shape) as Hs.
  induction k as [|k IH]; intros i index r1 r2 ptr1 ptr2 Hr Hp j; [apply Hp|].
  cbn [dequeue_load_mask_loop]. apply IH; [assumption|].
  intros c. unfold store. rewrite (land_msk sz msk shape), Hp.
  rewrite Hr by (apply Z.mod_pos_bound; assumption). reflexivity.
Qed.

(** X8: the masked helpers stay inside the ring for every start index
    and every length, reduced or not.  The store leaves every cell
    outside [0, size) as it was, and what the load puts into the
    caller's array depends on no cell outside [0, size): two rings that
    agree on their slots give the same loads. *)
Theorem masked_helpers_stay_in_ring (q : alf_queue) (ptr : cells) (p c n : Z) :
  alf_queue_ok q ->
  (forall j, ~ 0 <= j < size q ->
     ring (__helper_alf_enqueue_store_mask p c q ptr n) j = ring q j) /\
  (forall mem, (forall s, 0 <= s < size q -> mem s = ring q s) ->
     forall j, __helper_alf_dequeue_load_mask p c (set_ring q mem) ptr n j =
               __helper_alf_dequeue_load_mask p c q ptr n j).
Proof.
  intros Hok. split.
  - intros j Hj. unfold __helper_alf_enqueue_store_mask, set_ring. cbn [ring].
    apply (enqueue_store_mask_loop_outside (size q) (mask q) (ok_shape q Hok)).
    assumption.
  - intros mem Hmem j. unfold __helper_alf_dequeue_load_mask, set_ring.
    cbn [ring mask].
    apply (dequeue_load_mask_loop_ext (size q) (mask q) (ok_shape q Hok));
      [assumption | reflexivity].
Qed.

Lemma masked_helpers_stay_in_ring_witness :
  let q := mk_queue 4 3 0 (mk_actor 0 0) (mk_actor 0 0) (fun _ => 0) in
  alf_queue_ok q /\
  ring (__helper_alf_enqueue_store_mask 4294967294 0 q (array_of [1; 2; 3; 4; 5; 6]) 6) 4 = 0 /\
  ring (__helper_alf_enqueue_store_mask 4294967294 0 q (array_of [1; 2; 3; 4; 5; 6]) 6) (-1) = 0.
Proof.
  intros q. split; [reflexivity|].
  destruct (masked_helpers_stay_in_ring q (array_of [1; 2; 3; 4; 5; 6])
              4294967294 0 6 eq_refl) as [Hst _].
  split.
  - exact (Hst 4 ltac:(cbn; lia)).
  - exact (Hst (-1) ltac:(cbn; lia)).
Defined.

(** X9: the block-copy load is right in its first branch.  When
    [c_head < p_tail], so that the queued references lie in one piece,
    and no more than [p_tail - c_head] references are asked for, it
    leaves the caller's array exactly as the masked load does. *)
Theorem memcpy_load_right_in_one_piece (q : alf_queue) (ptr : cells)
    (c_head p_tail elems : Z) :
  alf_queue_ok q -> 0 <= c_head < p_tail -> p_tail <= size q ->
  0 <= elems <= p_tail - c_head ->
  forall j, __helper_alf_dequeue_load_memcpy c_head p_tail q ptr elems j =
            __helper_alf_dequeue_load_mask c_head p_tail q ptr elems j.
Proof.
  intros Hok Hc Hp He j.
  pose proof (ok_size_pos q Hok) as Hs. pose proof (ok_size_le q Hok) as Hle.
  unfold __helper_alf_dequeue_load_memcpy, __helper_alf_dequeue_load_mask.
  destruct (Z.ltb_spec c_head p_tail); [|lia].
  rewrite (dequeue_load_mask_loop_get (size q) (mask q) (ok_shape q Hok)) by lia.
  rewrite Z2Nat.id by lia. unfold memcpy.
  split_tests; try lia; try reflexivity.
  f_equal. rewrite Z.mod_small by lia. lia.
Qed.

Lemma memcpy_load_right_in_one_piece_witness :
  let q := mk_queue 8 7 0 (mk_actor 6 6) (mk_actor 2 2) (fun i => 10 + i) in
  alf_queue_ok q /\ 0 <= 2 < 6 /\ 6 <= size q /\ 0 <= 3 <= 6 - 2 /\
  elements (__helper_alf_dequeue_load_memcpy 2 6 q (fun _ => 0) 3) 3 = [12; 13; 14] /\
  __helper_alf_dequeue_load_memcpy 2 6 q (fun _ => 0) 3 1 =
  __helper_alf_dequeue_load_mask 2 6 q (fun _ => 0) 3 1.
Proof.
  intros q. split; [reflexivity|]. split; [lia|].
  split; [vm_compute; discriminate|]. split; [lia|]. split; [reflexivity|].
  apply (memcpy_load_right_in_one_piece q (fun _ => 0) 2 6 3 eq_refl); try lia.
  vm_compute; discriminate.
Defined.

(** X10: the block-copy store, in the branch taken when
    [c_tail <= p_head], is right exactly as long as the batch ends at or
    before the last slot.  If it does, the ring is left as the masked
    store leaves it.  If the batch runs past the last slot, nothing is
    wrapped: the reference the masked store puts into slot 0 goes to
    the cell just after the ring, and slot 0 keeps its old value. *)
Theorem memcpy_store_right_until_the_end (q : alf_queue) (ptr : cells)
    (p_head c_tail n : Z) :
  alf_queue_ok q -> 0 <= c_tail <= p_head -> p_head < size q -> 0 <= n < size q ->
  (p_head + n <= size q ->
     forall j, ring (__helper_alf_enqueue_store_memcpy p_head c_tail q ptr n) j =
               ring (__helper_alf_enqueue_store_mask p_head c_tail q ptr n) j) /\
  (size q < p_head + n ->
     ring (__helper_alf_enqueue_store_mask p_head c_tail q ptr n) 0 =
       ptr (size q - p_head) /\
     ring (__helper_alf_enqueue_store_memcpy p_head c_tail q ptr n) (size q) =
       ptr (size q - p_head) /\
     ring (__helper_alf_enqueue_store_memcpy p_head c_tail q ptr n) 0 = ring q 0).
Proof.
  intros Hok Hc Hp Hn.
  pose proof (ok_size_pos q Hok) as Hs. pose proof (ok_size_le q Hok) as Hle.
  unfold __helper_alf_enqueue_store_memcpy, __helper_alf_enqueue_store_mask, set_ring.
  destruct (Z.leb_spec c_tail p_head); [|lia]. cbn [ring].
  split.
  - intros Hfit j.
    rewrite (enqueue_store_mask_loop_get (size q) (mask q) (ok_shape q Hok)) by lia.
    rewrite Z2Nat.id, Z.add_0_l by lia. unfold memcpy.
    destruct (Z.leb_spec 0 j); [destruct (Z.ltb_spec j (size q))|]; cbn [andb].
    + window (size q) (j - p_head); rewrite W; split_tests;
        try lia; try reflexivity; f_equal; lia.
    + split_tests; try lia; reflexivity.
    + split_tests; try lia; reflexivity.
  - intros Hwrap.
    rewrite (enqueue_store_mask_loop_get (size q) (mask q) (ok_shape q Hok)) by lia.
    rewrite Z2Nat.id, Z.add_0_l by lia. unfold memcpy.
    window (size q) (0 - p_head); rewrite W; split_tests; try lia.
    repeat split; f_equal; lia.
Qed.

Lemma memcpy_store_right_until_the_end_witness :
  let q := mk_queue 4 3 0 (mk_actor 2 2) (mk_actor 2 2) (fun _ => 0) in
  alf_queue_ok q /\ 0 <= 2 <= 2 /\ 2 < size q /\ 0 <= 3 < size q /\
  size q < 2 + 3 /\
  ring (__helper_alf_enqueue_store_mask 2 2 q (array_of [7; 8; 9]) 3) 0 = 9 /\
  ring (__helper_alf_enqueue_store_memcpy 2 2 q (array_of [7; 8; 9]) 3) 4 = 9 /\
  ring (__helper_alf_enqueue_store_memcpy 2 2 q (array_of [7; 8; 9]) 3) 0 = 0.
Proof.
  intros q. split; [reflexivity|]. split; [lia|].
  split; [reflexivity|]. split; [vm_compute; split; [discriminate | reflexivity]|].
  split; [reflexivity|].
  apply (memcpy_store_right_until_the_end q (array_of [7; 8; 9]) 2 2 3 eq_refl);
    try lia; try reflexivity.
  vm_compute; split; [discriminate | reflexivity].
Defined.

(** ** The wrap-check helpers on a range that wraps *)

Lemma enqueue_store_simple_loop_app sz k1 k2 : forall i index ptr r,
  0 <= i -> i + Z.of_nat k1 < 2 ^ 32 ->
  0 <= index -> index + Z.of_nat k1 <= sz -> sz < 2 ^ 32 ->
  enqueue_store_simple_loop (k1 + k2) i index sz ptr r =
  enqueue_store_simple_loop k2 (i + Z.of_nat k1) (index + Z.of_nat k1) sz ptr
    (enqueue_store_simple_loop k1 i index sz ptr r).
Proof.
  induction k1 as [|k1 IH]; intros i index ptr r Hi Hik Hx Hxk Hsz.
  - cbn [Nat.add enqueue_store_simple_loop Z.of_nat]. now rewrite !Z.add_0_r.
  - cbn [Nat.add enqueue_store_simple_loop].
    destruct (Z.eqb_spec index sz); [lia|].
    rewrite !u32_small by lia.
    rewrite IH by lia. f_equal; lia.
Qed.

Lemma dequeue_load_simple_loop_app sz k1 k2 : forall i index r ptr,
  0 <= i -> i + Z.of_nat k1 < 2 ^ 32 ->
  0 <= index -> index + Z.of_nat k1 <= sz -> sz < 2 ^ 32 ->
  dequeue_load_simple_loop (k1 + k2) i index sz r ptr =
  dequeue_load_simple_loop k2 (i + Z.of_nat k1) (index + Z.of_nat k1) sz r
    (dequeue_load_simple_loop k1 i index sz r ptr).
Proof.
  induction k1 as [|k1 IH]; intros i index r ptr Hi Hik Hx Hxk Hsz.
  - cbn [Nat.add dequeue_load_simple_loop Z.of_nat]. now rewrite !Z.add_0_r.
  - cbn [Nat.add dequeue_load_simple_loop].
    destruct (Z.eqb_spec index sz); [lia|].
    rewrite !u32_small by lia.
    rewrite IH by lia. f_equal; lia.
Qed.

(** X11: what the wrap-check store does with a batch that runs past the
    last slot, for every ring and every such batch: the reference meant
    for slot 0 is written to the cell just after the ring, slot 0 keeps
    its old value, and every other slot ends up as the masked store
    leaves it. *)
Theorem simple_store_past_the_end (q : alf_queue) (ptr : cells) (p c n : Z) :
  alf_queue_ok q -> size q < 2 ^ 31 ->
  0 < p < size q -> 0 <= n <= size q -> size q < p + n ->
  ring (__helper_alf_enqueue_store_simple p c q ptr n) (size q) = ptr (size q - p) /\
  ring (__helper_alf_enqueue_store_simple p c q ptr n) 0 = ring q 0 /\
  ring (__helper_alf_enqueue_store_mask p c q ptr n) 0 = ptr (size q - p) /\
  (forall j, 0 < j < size q ->
     ring (__helper_alf_enqueue_store_simple p c q ptr n) j =
     ring (__helper_alf_enqueue_store_mask p c q ptr n) j).
Proof.
  intros Hok Hlt Hp Hn Hwrap.
  pose proof (ok_size_pos q Hok) as Hs.
  pose proof (ok_shape q Hok) as shape.
  unfold __helper_alf_enqueue_store_simple, __helper_alf_enqueue_store_mask, set_ring.
  cbn [ring].
  set (S := size q) in *. set (k1 := Z.to_nat (S - p)).
  set (k2 := Z.to_nat (n - (S - p) - 1)).
  replace (Z.to_nat n) with (k1 + (1 + k2))%nat by lia.
  rewrite enqueue_store_simple_loop_app by lia.
  rewrite (enqueue_store_simple_no_wrap S (mask q) shape k1) by lia.
  replace (p + Z.of_nat k1) with S by lia.
  cbn [Nat.add enqueue_store_simple_loop]. rewrite Z.eqb_refl.
  rewrite (u32_small (0 + 1)), (sint_small S), sint_small, u32_small by lia.
  rewrite (enqueue_store_simple_no_wrap S (mask q) shape k2) by lia.
  assert (Hget : forall j,
    enqueue_store_mask_loop k2 (0 + Z.of_nat k1 + 1) (0 + 1) (mask q) ptr
      (store (enqueue_store_mask_loop k1 0 p (mask q) ptr (ring q)) S
         (ptr (0 + Z.of_nat k1))) j =
    if (0 <=? j) && (j <? S) && ((j - 1) mod S <? Z.of_nat k2)
    then ptr (S - p + 1 + (j - 1) mod S)
    else if j =? S then ptr (S - p)
    else if (0 <=? j) && (j <? S) && ((j - p) mod S <? Z.of_nat k1)
    then ptr ((j - p) mod S) else ring q j).
  { intros j.
    rewrite (enqueue_store_mask_loop_get S (mask q) shape) by lia.
    unfold store.
    rewrite (enqueue_store_mask_loop_get S (mask q) shape) by lia.
    replace (0 + Z.of_nat k1 + 1) with (S - p + 1) by lia.
    replace (0 + 1 ) with 1 by lia.
    replace (0 + Z.of_nat k1) with (S - p) by lia.
    rewrite Z.add_0_l. reflexivity. }
  assert (Hmask : forall j,
    enqueue_store_mask_loop (k1 + (1 + k2)) 0 p (mask q) ptr (ring q) j =
    if (0 <=? j) && (j <? S) && ((j - p) mod S <? n)
    then ptr ((j - p) mod S) else ring q j).
  { intros j.
    rewrite (enqueue_store_mask_loop_get S (mask q) shape) by lia.
    rewrite Z.add_0_l. replace (Z.of_nat (k1 + (1 + k2))) with n by lia.
    reflexivity. }
  split; [|split; [|split]].
  - rewrite Hget. split_tests; try lia; rewrite Z.eqb_refl; reflexivity.
  - rewrite Hget.
    window S (0 - 1); window S (0 - p); rewrite ?W, ?W0; split_tests; try lia;
      (destruct (Z.eqb_spec 0 S); [lia | reflexivity]).
  - rewrite Hmask.
    window S (0 - p); rewrite W; split_tests; try lia; f_equal; lia.
  - intros j Hj. rewrite Hget, Hmask.
    destruct (Z.eqb_spec j S); [lia|].
    window S (j - 1); window S (j - p); rewrite ?W, ?W0; split_tests;
      try lia; try reflexivity; f_equal; lia.
Qed.

Lemma simple_store_past_the_end_witness :
  let q := mk_queue 8 7 0 (mk_actor 6 6) (mk_actor 5 5) (fun _ => 0) in
  alf_queue_ok q /\ size q < 2 ^ 31 /\ 0 < 6 < size q /\ 0 <= 4 <= size q /\
  size q < 6 + 4 /\
  ring (__helper_alf_enqueue_store_simple 6 5 q (array_of [1; 2; 3; 4]) 4) 8 = 3 /\
  ring (__helper_alf_enqueue_store_simple 6 5 q (array_of [1; 2; 3; 4]) 4) 0 = 0 /\
  ring (__helper_alf_enqueue_store_mask 6 5 q (array_of [1; 2; 3; 4]) 4) 0 = 3.
Proof.
  intros q.
  assert (H := simple_store_past_the_end q (array_of [1; 2; 3; 4]) 6 5 4 eq_refl
                 eq_refl (conj eq_refl eq_refl)).
  split; [reflexivity|]. split; [reflexivity|]. split; [split; reflexivity|].
  split; [vm_compute; split; discriminate|]. split; [reflexivity|].
  destruct H as (H1 & H2 & H3 & _);
    [vm_compute; split; discriminate | reflexivity |].
  split; [exact H1 | split; [exact H2 | exact H3]].
Defined.

(** X12: what the wrap-check load does with a range that runs past the
    last slot: the cell of the caller's array that should receive slot 0
    receives the cell just after the ring, and every other cell of the
    caller's array is as the masked load leaves it. *)
Theorem simple_load_past_the_end (q : alf_queue) (ptr : cells) (c p n : Z) :
  alf_queue_ok q -> size q < 2 ^ 31 ->
  0 < c < size q -> 0 <= n <= size q -> size q < c + n ->
  __helper_alf_dequeue_load_simple c p q ptr n (size q - c) = ring q (size q) /\
  __helper_alf_dequeue_load_mask c p q ptr n (size q - c) = ring q 0 /\
  (forall j, j <> size q - c ->
     __helper_alf_dequeue_load_simple c p q ptr n j =
     __helper_alf_dequeue_load_mask c p q ptr n j).
Proof.
  intros Hok Hlt Hc Hn Hwrap.
  pose proof (ok_size_pos q Hok) as Hs.
  pose proof (ok_shape q Hok) as shape.
  unfold __helper_alf_dequeue_load_simple, __helper_alf_dequeue_load_mask.
  set (S := size q) in *. set (k1 := Z.to_nat (S - c)).
  set (k2 := Z.to_nat (n - (S - c) - 1)).
  replace (Z.to_nat n) with (k1 + (1 + k2))%nat by lia.
  rewrite dequeue_load_simple_loop_app by lia.
  rewrite (dequeue_load_simple_no_wrap S (mask q) shape k1) by lia.
  replace (c + Z.of_nat k1) with S by lia.
  cbn [Nat.add dequeue_load_simple_loop]. rewrite Z.eqb_refl.
  rewrite (u32_small (0 + 1)), (sint_small S), sint_small, u32_small by lia.
  rewrite (dequeue_load_simple_no_wrap S (mask q) shape k2) by lia.
  assert (Hget : forall j,
    dequeue_load_mask_loop k2 (0 + Z.of_nat k1 + 1) (0 + 1) (mask q) (ring q)
      (store (dequeue_load_mask_loop k1 0 c (mask q) (ring q) ptr)
         (0 + Z.of_nat k1) (ring q S)) j =
    if (S - c + 1 <=? j) && (j <? S - c + 1 + Z.of_nat k2)
    then ring q ((1 + (j - (S - c + 1))) mod S)
    else if j =? S - c then ring q S
    else if (0 <=? j) && (j <? S - c)
    then ring q ((c + j) mod S) else ptr j).
  { intros j.
    rewrite (dequeue_load_mask_loop_get S (mask q) shape) by lia.
    unfold store.
    rewrite (dequeue_load_mask_loop_get S (mask q) shape) by lia.
    replace (0 + Z.of_nat k1 + 1) with (S - c + 1) by lia.
    replace (0 + 1) with 1 by lia.
    replace (0 + Z.of_nat k1) with (S - c) by lia.
    rewrite Z.sub_0_r. reflexivity. }
  assert (Hmask : forall j,
    dequeue_load_mask_loop (k1 + (1 + k2)) 0 c (mask q) (ring q) ptr j =
    if (0 <=? j) && (j <? n) then ring q ((c + j) mod S) else ptr j).
  { intros j.
    rewrite (dequeue_load_mask_loop_get S (mask q) shape) by lia.
    rewrite Z.add_0_l, Z.sub_0_r. replace (Z.of_nat (k1 + (1 + k2))) with n by lia.
    reflexivity. }
  split; [|split].
  - rewrite Hget. split_tests; try lia; rewrite Z.eqb_refl; reflexivity.
  - rewrite Hmask. split_tests; try lia. f_equal.
    replace (c + (S - c)) with S by lia. apply Z_mod_same_full.
  - intros j Hj. rewrite Hget, Hmask.
    destruct (Z.eqb_spec j (S - c)); [contradiction|].
    split_tests; try lia; try reflexivity; f_equal.
    replace (c + j) with (1 + (j - (S - c + 1)) + 1 * S) by lia.
    now rewrite Z_mod_plus_full.
Qed.

Lemma simple_load_past_the_end_witness :
  let q := mk_queue 8 7 0 (mk_actor 2 2) (mk_actor 6 6) (fun i => 10 + i) in
  alf_queue_ok q /\ size q < 2 ^ 31 /\ 0 < 6 < size q /\ 0 <= 4 <= size q /\
  size q < 6 + 4 /\
  elements (__helper_alf_dequeue_load_mask 6 2 q (fun _ => 0) 4) 4 = [16; 17; 10; 11] /\
  elements (__helper_alf_dequeue_load_simple 6 2 q (fun _ => 0) 4) 4 = [16; 17; 18; 11] /\
  __helper_alf_dequeue_load_simple 6 2 q (fun _ => 0) 4 (size q - 6) = ring q (size q).
Proof.
  intros q.
  split; [reflexivity|]. split; [reflexivity|]. split; [split; reflexivity|].
  split; [vm_compute; split; discriminate|]. split; [reflexivity|].
  split; [reflexivity|]. split; [reflexivity|].
  apply (simple_load_past_the_end q (fun _ => 0) 6 2 4 eq_refl eq_refl
           (conj eq_refl eq_refl));
    [vm_compute; split; discriminate | reflexivity].
Defined.

(** ** Any number of callers, any schedule *)

Lemma thread_step_frame q t :
  alf_queue_ok q ->
  size (fst (thread_step q t)) = size q /\
  mask (fst (thread_step q t)) = mask q /\
  flags (fst (thread_step q t)) = flags q /\
  (forall j, ~ 0 <= j < size q -> ring (fst (thread_step q t)) j = ring q j).
Proof.
  intros Hok.
  destruct t as [ptr n pc | ptr n pc]; destruct pc;
    cbn [thread_step enq_step deq_step];
    repeat match goal with
           | |- context [if ?b then _ else _] => destruct b
           end;
    cbn [fst set_producer set_consumer size mask flags ring];
    repeat split; try reflexivity.
  intros j Hj.
  unfold __helper_alf_enqueue_store, __helper_alf_enqueue_store_mask, set_ring.
  cbn [ring].
  apply (enqueue_store_mask_loop_outside (size q) (mask q) (ok_shape q Hok)).
  assumption.
Qed.

Lemma run_frame sched : forall c,
  config_ok c ->
  size (shared (run sched c)) = size (shared c) /\
  mask (shared (run sched c)) = mask (shared c) /\
  flags (shared (run sched c)) = flags (shared c) /\
  length (threads (run sched c)) = length (threads c) /\
  (forall j, ~ 0 <= j < size (shared c) ->
     ring (shared (run sched c)) j = ring (shared c) j).
Proof.
  unfold run. induction sched as [|i sched IH]; intros c Hc.
  - cbn [fold_left]. repeat split; reflexivity.
  - cbn [fold_left].
    destruct (IH (sched_step c i) (sched_step_ok c i Hc)) as (Hs & Hm & Hf & Hl & Hr).
    assert (Hstep : size (shared (sched_step c i)) = size (shared c) /\
                    mask (shared (sched_step c i)) = mask (shared c) /\
                    flags (shared (sched_step c i)) = flags (shared c) /\
                    length (threads (sched_step c i)) = length (threads c) /\
                    (forall j, ~ 0 <= j < size (shared c) ->
                       ring (shared (sched_step c i)) j = ring (shared c) j)).
    { unfold sched_step.
      destruct (nth_error (threads c) i) as [t|]; [|repeat split; reflexivity].
      destruct (thread_step_frame (shared c) t (proj1 Hc)) as (H1 & H2 & H3 & H4).
      destruct (thread_step (shared c) t) as [q' t']. cbn [fst shared threads] in *.
      repeat split; try assumption.
      clear. revert i. induction (threads c) as [|y l IHl]; intros [|i];
        cbn [set_nth length]; try reflexivity. now rewrite IHl. }
    destruct Hstep as (Hs1 & Hm1 & Hf1 & Hl1 & Hr1).
    rewrite Hs, Hm, Hf, Hl. repeat split; try assumption.
    intros j Hj. rewrite Hr by (rewrite Hs1; assumption). apply Hr1, Hj.
Qed.

(** X13: however many enqueue and dequeue calls run against one queue
    and however their steps interleave, [size], [mask] and [flags] never
    change, all four cursors stay inside [0, size), and no cell outside
    the ring is ever written. *)
Theorem interleaving_keeps_queue_sound (q : alf_queue) (ts : list thread)
    (sched : list nat) :
  alf_queue_ok q -> cursors_in_range q -> forallb at_entry ts = true ->
  alf_queue_ok (shared (run sched (mk_config q ts))) /\
  size (shared (run sched (mk_config q ts))) = size q /\
  mask (shared (run sched (mk_config q ts))) = mask q /\
  flags (shared (run sched (mk_config q ts))) = flags q /\
  cursors_in_range (shared (run sched (mk_config q ts))) /\
  (forall j, ~ 0 <= j < size q ->
     ring (shared (run sched (mk_config q ts))) j = ring q j).
Proof.
  intros Hok Hin Hts.
  assert (Hc : config_ok (mk_config q ts)).
  { split; [assumption|]. split; [assumption|].
    cbn [shared threads]. rewrite forallb_forall in Hts. apply Forall_forall.
    intros t Ht. specialize (Hts t Ht).
    destruct t as [ptr n pc | ptr n pc]; destruct pc; try discriminate; exact I. }
  destruct (run_ok sched _ Hc) as (Hok' & Hin' & _).
  destruct (run_frame sched _ Hc) as (Hs & Hm & Hf & _ & Hr).
  cbn [shared] in Hs, Hm, Hf, Hr.
  repeat split; try assumption; apply Hin'.
Qed.

Lemma interleaving_keeps_queue_sound_witness :
  let q := mk_queue 4 3 0 (mk_actor 0 0) (mk_actor 0 0) (fun _ => 0) in
  let ts := [Producer (array_of [1; 2; 3]) 3 EnqReadHead;
             Producer (array_of [4; 5; 6]) 3 EnqReadHead;
             Consumer (fun _ => 0) 3 DeqReadHead;
             Producer (array_of [7]) 1 EnqReadHead;
             Producer (array_of [8]) 1 EnqReadHead] in
  let sched := [0; 0; 1; 1; 1; 1; 1; 1; 2; 2; 2; 2; 2; 2; 3; 3; 3; 0; 4; 4; 4;
                3; 0; 4; 3; 3; 0; 0; 4; 4]%nat in
  alf_queue_ok q /\ cursors_in_range q /\ forallb at_entry ts = true /\
  cursors_in_range (shared (run sched (mk_config q ts))) /\
  ring (shared (run sched (mk_config q ts))) 4 = 0.
Proof.
  intros q ts sched.
  assert (Hin : cursors_in_range q) by (unfold cursors_in_range; cbn; lia).
  split; [reflexivity|]. split; [exact Hin|]. split; [reflexivity|].
  destruct (interleaving_keeps_queue_sound q ts sched eq_refl Hin eq_refl)
    as (_ & _ & _ & _ & Hc & Hr).
  split; [exact Hc|].
  exact (Hr 4 ltac:(cbn; lia)).
Defined.

(** ** One producer against one consumer *)

(** A step of either call takes a configuration of the family
    [Duo.config_at] to another one, with stages and sightings advanced
    as [Duo.p_advance] and [Duo.c_advance] say. *)
Section DuoSteps.
Import Duo.
Variables (q0 : alf_queue) (ptr : cells) (n : Z) (out : cells) (m : Z).

Local Abbreviation cfg := (config_at q0 ptr n out m).
Local Abbreviation ok := (sightings_ok q0 n m).

Lemma producer_step sp sc a b l :
  ok sp sc a b l = true ->
  sched_step (cfg sp sc a b l) 0 =
    cfg (fst (p_advance q0 n m sp sc a)) sc (snd (p_advance q0 n m sp sc a)) b l /\
  ok (fst (p_advance q0 n m sp sc a)) sc (snd (p_advance q0 n m sp sc a)) b l = true.
Proof.
  intros Hok.
  destruct sp, sc, a, b, l;
    cbv [sightings_ok implb p_early p_stored p_done c_early c_loaded c_done
         andb negb p_test c_test] in Hok;
    try discriminate Hok;
    cbv [p_advance c_done fst snd];
    try (destruct (space_seen q0 _ <? n) eqn:E; cbv [fst snd]);
    (split;
     [ unfold sched_step, config_at;
       cbn [threads shared nth_error thread_step enq_step
            enq_pc_at producer_at consumer_at ring_at set_nth set_producer
            producer consumer head tail mask size flags ring];
       fold (P0 q0); fold (C0 q0);
       try (unfold space_seen in E; rewrite E);
       rewrite ?Z.eqb_refl;
       reflexivity
     | cbv [sightings_ok implb p_early p_stored p_done c_early c_loaded c_done
            andb negb p_test c_test];
       rewrite ?E; try exact Hok; try reflexivity ]).
Qed.

Lemma consumer_step sp sc a b l :
  ok sp sc a b l = true ->
  sched_step (cfg sp sc a b l) 1 =
    cfg sp (fst (fst (c_advance q0 n sc sp b l))) a
      (snd (fst (c_advance q0 n sc sp b l))) (snd (c_advance q0 n sc sp b l)) /\
  ok sp (fst (fst (c_advance q0 n sc sp b l))) a
     (snd (fst (c_advance q0 n sc sp b l))) (snd (c_advance q0 n sc sp b l)) = true.
Proof.
  intros Hok.
  destruct sp, sc, a, b, l;
    cbv [sightings_ok implb p_early p_stored p_done c_early c_loaded c_done
         andb negb p_test c_test] in Hok;
    try discriminate Hok;
    cbv [c_advance p_done p_stored fst snd];
    try (destruct (count_seen q0 _ =? 0) eqn:E; cbv [fst snd]);
    (split;
     [ unfold sched_step, config_at;
       cbn [threads shared nth_error thread_step deq_step
            deq_pc_at producer_at consumer_at ring_at out_at set_nth set_consumer
            producer consumer head tail mask size flags ring];
       fold (P0 q0); fold (C0 q0);
       try (unfold count_seen in E; rewrite E);
       rewrite ?Z.eqb_refl;
       reflexivity
     | cbv [sightings_ok implb p_early p_stored p_done c_early c_loaded c_done
            andb negb p_test c_test];
       rewrite ?E; try exact Hok; try reflexivity ]).
Qed.

Lemma idle_step sp sc a b l i :
  (2 <= i)%nat -> sched_step (cfg sp sc a b l) i = cfg sp sc a b l.
Proof.
  intros Hi. unfold sched_step, config_at. cbn [threads].
  destruct i as [|[|i]]; try lia. destruct i; reflexivity.
Qed.

(** Every configuration of a run is one of the configurations above. *)
Lemma run_duo sched : forall sp sc a b l,
  ok sp sc a b l = true ->
  exists sp' sc' a' b' l',
    run sched (cfg sp sc a b l) = cfg sp' sc' a' b' l' /\
    ok sp' sc' a' b' l' = true /\
    (Nat.min 6 (p_rank sp + count_occ Nat.eq_dec sched 0) <= p_rank sp')%nat /\
    (Nat.min 6 (c_rank sc + count_occ Nat.eq_dec sched 1) <= c_rank sc')%nat.
Proof.
  unfold run. induction sched as [|i sched IH]; intros sp sc a b l Hok.
  - exists sp, sc, a, b, l. cbn [fold_left count_occ]. repeat split; try assumption; lia.
  - cbn [fold_left].
    destruct i as [|[|i]].
    + destruct (producer_step sp sc a b l Hok) as [Hs Hok'].
      rewrite Hs.
      destruct (IH _ _ _ _ _ Hok') as (sp' & sc' & a' & b' & l' & Hr & Ho & Hp & Hc).
      exists sp', sc', a', b', l'. split; [assumption|]. split; [assumption|].
      cbn [count_occ]. destruct (Nat.eq_dec 0 0) as [_|]; [|contradiction].
      destruct (Nat.eq_dec 0 1) as [|_]; [discriminate|].
      split; [|assumption].
      assert (Hrk : (Nat.min 6 (S (p_rank sp)) <=
                     p_rank (fst (p_advance q0 n m sp sc a)))%nat).
      { destruct sp; cbn [p_advance p_rank fst]; try lia.
        destruct (space_seen q0 _ <? n); cbn [p_rank fst]; lia. }
      lia.
    + destruct (consumer_step sp sc a b l Hok) as [Hs Hok'].
      rewrite Hs.
      destruct (IH _ _ _ _ _ Hok') as (sp' & sc' & a' & b' & l' & Hr & Ho & Hp & Hc).
      exists sp', sc', a', b', l'. split; [assumption|]. split; [assumption|].
      cbn [count_occ]. destruct (Nat.eq_dec 1 1) as [_|]; [|contradiction].
      destruct (Nat.eq_dec 1 0) as [|_]; [discriminate|].
      split; [assumption|].
      assert (Hrk : (Nat.min 6 (S (c_rank sc)) <=
                     c_rank (fst (fst (c_advance q0 n sc sp b l))))%nat).
      { destruct sc; cbn [c_advance c_rank fst]; try lia.
        destruct (count_seen q0 _ =? 0); cbn [c_rank fst]; lia. }
      lia.
    + rewrite idle_step by lia.
      destruct (IH _ _ _ _ _ Hok) as (sp' & sc' & a' & b' & l' & Hr & Ho & Hp & Hc).
      exists sp', sc', a', b', l'. split; [assumption|]. split; [assumption|].
      cbn [count_occ].
      destruct (Nat.eq_dec (S (S i)) 0) as [|_]; [discriminate|].
      destruct (Nat.eq_dec (S (S i)) 1) as [|_]; [discriminate|].
      split; assumption.
Qed.

End DuoSteps.

Lemma alf_mp_enqueue_on sz mk fl ph ca rg ptr n :
  alf_mp_enqueue (mk_queue sz mk fl (mk_actor ph ph) ca rg) ptr n =
  if Z.land (u32 (tail ca - ph - 1)) mk <? n
  then Returns (- ENOBUFS) (mk_queue sz mk fl (mk_actor ph ph) ca rg)
  else Returns (sint n)
         (mk_queue sz mk fl
            (mk_actor (Z.land (u32 (ph + n)) mk) (Z.land (u32 (ph + n)) mk)) ca
            (enqueue_store_mask_loop (Z.to_nat n) 0 ph mk ptr rg)).
Proof.
  unfold alf_mp_enqueue. cbn [mask producer consumer head tail].
  destruct (Z.land (u32 (tail ca - ph - 1)) mk <? n); [reflexivity|].
  unfold __helper_alf_enqueue_store, __helper_alf_enqueue_store_mask, set_ring,
    set_producer.
  cbn [mask producer consumer head tail size flags ring].
  rewrite Z.eqb_refl. reflexivity.
Qed.

Lemma alf_mc_dequeue_on sz mk fl pa ch rg out m :
  alf_mc_dequeue (mk_queue sz mk fl pa (mk_actor ch ch) rg) out m =
  if Z.land (u32 (tail pa - ch)) mk =? 0
  then Returns 0 (mk_queue sz mk fl pa (mk_actor ch ch) rg, out)
  else Returns (sint (Z.min (Z.land (u32 (tail pa - ch)) mk) m))
         (mk_queue sz mk fl pa
            (mk_actor
               (Z.land (u32 (ch + Z.min (Z.land (u32 (tail pa - ch)) mk) m)) mk)
               (Z.land (u32 (ch + Z.min (Z.land (u32 (tail pa - ch)) mk) m)) mk))
            rg,
          dequeue_load_mask_loop
            (Z.to_nat (Z.min (Z.land (u32 (tail pa - ch)) mk) m)) 0 ch mk rg out).
Proof.
  unfold alf_mc_dequeue. cbn [mask producer consumer head tail].
  destruct (Z.land (u32 (tail pa - ch)) mk =? 0); [reflexivity|].
  unfold __helper_alf_dequeue_load, __helper_alf_dequeue_load_mask, set_consumer.
  cbn [mask producer consumer head tail size flags ring].
  rewrite Z.eqb_refl. reflexivity.
Qed.

(** A dequeue can only add to the space an enqueue sees. *)
Lemma space_grows_with_dequeue q0 n m :
  alf_queue_inv q0 -> 0 <= m ->
  (Duo.space_seen q0 (Duo.C0 q0) <? n) = false ->
  (Duo.space_seen q0 (Duo.c_next q0 m (Duo.P0 q0)) <? n) = false.
Proof.
  intros (Hok & [Hp Hpt] & [Hc Hct]) Hm.
  pose proof (ok_size_pos q0 Hok) as Hs.
  unfold Duo.space_seen, Duo.c_next, Duo.elems_seen, Duo.count_seen, Duo.P0, Duo.C0.
  rewrite !land_mask by assumption.
  set (P := head (producer q0)) in *. set (C := head (consumer q0)) in *.
  set (S := size q0) in *.
  rewrite !Z.ltb_ge. intros Hn.
  assert (Hd : 0 <= (P - C) mod S < S) by (apply Z.mod_pos_bound; assumption).
  set (e := Z.min ((P - C) mod S) m).
  assert (He : 0 <= e <= (P - C) mod S) by (unfold e; lia).
  replace ((C + e) mod S - P - 1) with ((C + e) mod S - (P + 1)) by lia.
  rewrite Zminus_mod_idemp_l.
  clearbody e.
  window S (C - P - 1); window S (P - C); rewrite ?W0 in *;
    window S (C + e - (P + 1)); lia.
Qed.

(** The slots a dequeue loads on the old [producer.tail] are not among
    those an enqueue that fitted has stored. *)
Lemma loads_miss_the_store q0 ptr n out m :
  alf_queue_inv q0 -> 0 <= n -> 0 <= m ->
  (Duo.space_seen q0 (Duo.C0 q0) <? n) = false ->
  forall j, Duo.loaded q0 out m (Duo.P0 q0) (Duo.stored q0 ptr n) j =
            Duo.loaded q0 out m (Duo.P0 q0) (ring q0) j.
Proof.
  intros (Hok & [Hp Hpt] & [Hc Hct]) Hn Hm Hfit j.
  pose proof (ok_size_pos q0 Hok) as Hs. pose proof (ok_size_le q0 Hok) as Hle.
  pose proof (ok_shape q0 Hok) as shape.
  revert Hfit.
  unfold Duo.loaded, Duo.stored, Duo.space_seen, Duo.elems_seen, Duo.count_seen,
    Duo.P0, Duo.C0.
  rewrite !land_mask by assumption.
  set (P := head (producer q0)) in *. set (C := head (consumer q0)) in *.
  set (S := size q0) in *.
  rewrite Z.ltb_ge. intros Hfit.
  assert (Hd : 0 <= (P - C) mod S < S) by (apply Z.mod_pos_bound; assumption).
  assert (Hsp : 0 <= (C - P - 1) mod S < S) by (apply Z.mod_pos_bound; assumption).
  set (e := Z.min ((P - C) mod S) m).
  assert (He : 0 <= e <= (P - C) mod S) by (unfold e; lia).
  rewrite !(dequeue_load_mask_loop_get S (mask q0) shape) by lia.
  rewrite Z2Nat.id, Z.add_0_l, Z.sub_0_r by lia.
  destruct (Z.leb_spec 0 j); [destruct (Z.ltb_spec j e)|]; cbn [andb];
    try reflexivity.
  rewrite (enqueue_store_mask_loop_get S (mask q0) shape) by lia.
  rewrite Z2Nat.id by lia.
  assert (Hs0 : 0 <= (C + j) mod S < S) by (apply Z.mod_pos_bound; assumption).
  destruct (Z.leb_spec 0 ((C + j) mod S)); [|lia].
  destruct (Z.ltb_spec ((C + j) mod S) S); [|lia]. cbn [andb].
  destruct (Z.ltb_spec (((C + j) mod S - P) mod S) n) as [Hlt|]; [exfalso | reflexivity].
  rewrite Zminus_mod_idemp_l in Hlt.
  clearbody e.
  window S (C - P - 1); window S (P - C); rewrite ?W0 in *;
    window S (C + j - P); lia.
Qed.

Lemma idle_queue_eta q0 :
  alf_queue_inv q0 ->
  q0 = mk_queue (size q0) (mask q0) (flags q0)
         (mk_actor (Duo.P0 q0) (Duo.P0 q0)) (mk_actor (Duo.C0 q0) (Duo.C0 q0))
         (ring q0).
Proof.
  intros (_ & [_ Hpt] & [_ Hct]).
  destruct q0 as [sz mk fl [ph pt] [ch ct] rg].
  cbn in *. subst. reflexivity.
Qed.

Ltac duo_norm :=
  cbv [Duo.space_seen Duo.count_seen Duo.c_tail_seen Duo.p_tail_seen Duo.c_next
       Duo.p_next Duo.elems_seen Duo.P0 Duo.C0 Duo.loaded Duo.stored Duo.ring_seen
       Duo.producer_at Duo.consumer_at Duo.ring_at Duo.out_at Duo.enq_pc_at
       Duo.deq_pc_at Duo.config_at Duo.sightings_ok Duo.p_test Duo.c_test
       Duo.p_early Duo.p_stored Duo.p_done Duo.c_early Duo.c_loaded Duo.c_done
       implb andb negb] in *;
  cbn [producer consumer head tail mask size flags ring shared threads] in *.

(** X14: one enqueue call and one dequeue call that run at the same
    time on a queue between two calls, their steps interleaved in any
    way, end exactly as if one of them had run to its end before the
    other began: the return values, the queue they leave and what the
    caller's array holds are those of the enqueue followed by the
    dequeue, or those of the dequeue followed by the enqueue. *)
Theorem one_producer_one_consumer_linearizable
    (q0 : alf_queue) (ptr : cells) (n : Z) (out : cells) (m : Z)
    (sched : list nat) (re rd : Z) (out' : cells) :
  alf_queue_inv q0 -> 0 <= n < 2 ^ 32 -> 0 <= m < 2 ^ 32 ->
  threads (run sched (mk_config q0 [Producer ptr n EnqReadHead;
                                    Consumer out m DeqReadHead])) =
    [Producer ptr n (EnqReturn re); Consumer out' m (DeqReturn rd)] ->
  let q := shared (run sched (mk_config q0 [Producer ptr n EnqReadHead;
                                            Consumer out m DeqReadHead])) in
  (exists q1 o2,
     alf_mp_enqueue q0 ptr n = Returns re q1 /\
     alf_mc_dequeue q1 out m = Returns rd (q, o2) /\
     forall j, out' j = o2 j) \/
  (exists q1 o1,
     alf_mc_dequeue q0 out m = Returns rd (q1, o1) /\
     alf_mp_enqueue q1 ptr n = Returns re q /\
     forall j, out' j = o1 j).
Proof.
  intros Hinv Hn Hm.
  destruct q0 as [sz mk fl [ph pt] [ch ct] rg].
  assert (Hpt : pt = ph) by apply Hinv.
  assert (Hct : ct = ch) by apply Hinv.
  subst pt ct.
  set (Q := mk_queue sz mk fl (mk_actor ph ph) (mk_actor ch ch) rg) in *.
  pose proof (space_grows_with_dequeue Q n m Hinv (proj1 Hm)) as Hgrow.
  pose proof (loads_miss_the_store Q ptr n out m Hinv (proj1 Hn) (proj1 Hm)) as Hmiss.
  change (mk_config Q [Producer ptr n EnqReadHead; Consumer out m DeqReadHead])
    with (Duo.config_at Q ptr n out m Duo.PReadHead Duo.CReadHead false false false).
  destruct (run_duo Q ptr n out m sched Duo.PReadHead Duo.CReadHead false false false
              eq_refl) as (sp & sc & a & b & l & Hrun & Hok & _).
  rewrite Hrun. intros Hth q. subst q.
  unfold Duo.config_at in Hth |- *. cbn [threads shared] in Hth |- *.
  injection Hth as Hpc Hout Hdpc.
  destruct sp; try discriminate Hpc; destruct sc; try discriminate Hdpc;
    destruct a, b, l;
    cbv [Duo.sightings_ok implb Duo.p_early Duo.p_stored Duo.p_done Duo.c_early
         Duo.c_loaded Duo.c_done andb negb] in Hok;
    try discriminate Hok.
  all: cbv [Duo.enq_pc_at Duo.deq_pc_at] in Hpc, Hdpc;
       injection Hpc as <-; injection Hdpc as <-; subst out'.
  all: clear Hrun; subst Q; duo_norm.
  all: destruct (_ <? n) eqn:Ep in Hok; try discriminate Hok;
       destruct (_ =? 0) eqn:Ec in Hok; try discriminate Hok.
  all: try (specialize (Hgrow Ep); specialize (Hmiss Ep)).
  all: first
    [ left; solve
        [ eexists; eexists; split;
          [ rewrite alf_mp_enqueue_on; cbn [tail head]; rewrite Ep; reflexivity
          | split;
            [ rewrite alf_mc_dequeue_on; cbn [tail head]; rewrite Ec; reflexivity
            | intros j; reflexivity ] ] ]
    | right; solve
        [ eexists; eexists; split;
          [ rewrite alf_mc_dequeue_on; cbn [tail head]; rewrite Ec; reflexivity
          | split;
            [ rewrite alf_mp_enqueue_on; cbn [tail head];
              first [rewrite Ep | rewrite Hgrow]; reflexivity
            | intros j; first [reflexivity | apply Hmiss] ] ] ]
    | idtac "open" ].
Qed.

Lemma one_producer_one_consumer_linearizable_witness :
  let q0 := mk_queue 4 3 0 (mk_actor 0 0) (mk_actor 3 3) (array_of [0; 0; 0; 9]) in
  let ptr := array_of [7; 8] in
  let sched := [1; 0; 0; 1; 0; 1; 0; 1; 1; 0; 1; 0]%nat in
  let c := run sched (mk_config q0 [Producer ptr 2 EnqReadHead;
                                    Consumer (fun _ => 0) 3 DeqReadHead]) in
  let out' := dequeue_load_mask_loop 1 0 3 3 (ring (shared c)) (fun _ => 0) in
  alf_queue_inv q0 /\ 0 <= 2 < 2 ^ 32 /\ 0 <= 3 < 2 ^ 32 /\
  threads c = [Producer ptr 2 (EnqReturn 2); Consumer out' 3 (DeqReturn 1)] /\
  ((exists q1 o2,
      alf_mp_enqueue q0 ptr 2 = Returns 2 q1 /\
      alf_mc_dequeue q1 (fun _ => 0) 3 = Returns 1 (shared c, o2) /\
      forall j, out' j = o2 j) \/
   (exists q1 o1,
      alf_mc_dequeue q0 (fun _ => 0) 3 = Returns 1 (q1, o1) /\
      alf_mp_enqueue q1 ptr 2 = Returns 2 (shared c) /\
      forall j, out' j = o1 j)).
Proof.
  intros q0 ptr sched c out'.
  assert (Hinv : alf_queue_inv q0) by concrete_inv.
  assert (Hth : threads c = [Producer ptr 2 (EnqReturn 2);
                             Consumer out' 3 (DeqReturn 1)]) by reflexivity.
  split; [exact Hinv|]. split; [lia|]. split; [lia|]. split; [exact Hth|].
  exact (one_producer_one_consumer_linearizable q0 ptr 2 (fun _ => 0) 3 sched 2 1
           out' Hinv ltac:(lia) ltac:(lia) Hth).
Defined.

(** X15: with one enqueue call and one dequeue call on a queue between
    two calls, neither call is ever held up by the other: whatever the
    schedule, each has returned once it has taken six steps of its own.
    No [cmpxchg] fails and no wait on a tail is repeated. *)
Theorem one_producer_one_consumer_wait_free
    (q0 : alf_queue) (ptr : cells) (n : Z) (out : cells) (m : Z)
    (sched : list nat) :
  alf_queue_inv q0 ->
  let c := run sched (mk_config q0 [Producer ptr n EnqReadHead;
                                    Consumer out m DeqReadHead]) in
  ((6 <= count_occ Nat.eq_dec sched 0)%nat ->
     exists re, nth_error (threads c) 0 = Some (Producer ptr n (EnqReturn re))) /\
  ((6 <= count_occ Nat.eq_dec sched 1)%nat ->
     exists rd out', nth_error (threads c) 1 = Some (Consumer out' m (DeqReturn rd))).
Proof.
  intros Hinv c. subst c.
  rewrite (idle_queue_eta q0 Hinv).
  change (mk_config _ [Producer ptr n EnqReadHead; Consumer out m DeqReadHead])
    with (Duo.config_at q0 ptr n out m Duo.PReadHead Duo.CReadHead false false false).
  destruct (run_duo q0 ptr n out m sched Duo.PReadHead Duo.CReadHead false false false
              eq_refl) as (sp & sc & a & b & l & Hrun & _ & Hp & Hc).
  rewrite Hrun. unfold Duo.config_at. cbn [threads nth_error Duo.p_rank Duo.c_rank] in *.
  split.
  - intros H6. destruct sp; cbn [Duo.p_rank] in Hp; try lia;
      eexists; reflexivity.
  - intros H6. destruct sc; cbn [Duo.c_rank] in Hc; try lia;
      eexists; eexists; reflexivity.
Qed.

Lemma one_producer_one_consumer_wait_free_witness :
  let q0 := mk_queue 4 3 0 (mk_actor 0 0) (mk_actor 3 3) (array_of [0; 0; 0; 9]) in
  let sched := [1; 0; 0; 1; 0; 1; 0; 1; 1; 0; 1; 0]%nat in
  let c := run sched (mk_config q0 [Producer (array_of [7; 8]) 2 EnqReadHead;
                                    Consumer (fun _ => 0) 3 DeqReadHead]) in
  alf_queue_inv q0 /\ (6 <= count_occ Nat.eq_dec sched 0)%nat /\
  exists re, nth_error (threads c) 0 = Some (Producer (array_of [7; 8]) 2 (EnqReturn re)).
Proof.
  intros q0 sched c.
  assert (Hinv : alf_queue_inv q0) by concrete_inv.
  split; [exact Hinv|]. split; [cbn; lia|].
  apply (one_producer_one_consumer_wait_free q0 (array_of [7; 8]) 2 (fun _ => 0) 3
           sched Hinv).
  cbn; lia.
Defined.

(** ** The block-copy load on references that wrap *)

(** X16: in its second branch, taken when [p_tail <= c_head], the
    block-copy load does not hand out [elems] references but [p_tail] of
    them.  When the request reaches the end of the ring
    ([size - c_head <= elems]) and [size - c_head <= p_tail], the
    caller's array is left exactly as the masked load of [p_tail]
    references leaves it: with [p_tail < elems] the last cells asked for
    are never written, and with [elems < p_tail] cells beyond the ones
    asked for are overwritten. *)
Theorem memcpy_load_hands_out_p_tail (q : alf_queue) (ptr : cells)
    (c_head p_tail elems : Z) :
  alf_queue_ok q -> 0 <= p_tail <= c_head -> c_head < size q ->
  size q - c_head <= elems -> size q - c_head <= p_tail ->
  (forall j, __helper_alf_dequeue_load_memcpy c_head p_tail q ptr elems j =
             __helper_alf_dequeue_load_mask c_head p_tail q ptr p_tail j) /\
  (p_tail < elems ->
     __helper_alf_dequeue_load_memcpy c_head p_tail q ptr elems p_tail = ptr p_tail) /\
  (elems < p_tail ->
     __helper_alf_dequeue_load_memcpy c_head p_tail q ptr elems elems =
     ring q ((c_head + elems) mod size q)).
Proof.
  intros Hok Hp Hc He Hd.
  pose proof (ok_size_pos q Hok) as Hs. pose proof (ok_size_le q Hok) as Hle.
  assert (Hmain : forall j,
    __helper_alf_dequeue_load_memcpy c_head p_tail q ptr elems j =
    if (0 <=? j) && (j <? p_tail) then ring q ((c_head + j) mod size q) else ptr j).
  { intros j. unfold __helper_alf_dequeue_load_memcpy.
    destruct (Z.ltb_spec c_head p_tail); [lia|].
    rewrite (u32_small (size q - c_head)) by lia.
    rewrite Z.min_l by lia.
    destruct (Z.eqb_spec (size q - c_head) 0); [lia|].
    rewrite u32_small by lia. unfold memcpy.
    split_tests; try lia; try reflexivity; f_equal.
    - replace (c_head + j) with (0 + (j - (size q - c_head)) + 1 * size q) by lia.
      rewrite Z_mod_plus_full. symmetry. apply Z.mod_small. lia.
    - rewrite Z.mod_small; lia. }
  split; [|split].
  - intros j. rewrite Hmain. unfold __helper_alf_dequeue_load_mask.
    rewrite (dequeue_load_mask_loop_get (size q) (mask q) (ok_shape q Hok)) by lia.
    rewrite Z2Nat.id, Z.add_0_l, Z.sub_0_r by lia. reflexivity.
  - intros Hlt. rewrite Hmain. split_tests; try lia; reflexivity.
  - intros Hlt. rewrite Hmain. split_tests; try lia; reflexivity.
Qed.

Lemma memcpy_load_hands_out_p_tail_witness :
  let q := mk_queue 8 7 0 (mk_actor 3 3) (mk_actor 6 6) (fun i => 10 + i) in
  alf_queue_ok q /\ 0 <= 3 <= 6 /\ 6 < size q /\ size q - 6 <= 5 /\ size q - 6 <= 3 /\
  elements (__helper_alf_dequeue_load_mask 6 3 q (fun _ => 0) 5) 5 = [16; 17; 10; 11; 12] /\
  elements (__helper_alf_dequeue_load_memcpy 6 3 q (fun _ => 0) 5) 5 = [16; 17; 10; 0; 0] /\
  __helper_alf_dequeue_load_memcpy 6 3 q (fun _ => 0) 5 3 = 0.
Proof.
  intros q.
  split; [reflexivity|]. split; [lia|]. split; [reflexivity|].
  split; [vm_compute; discriminate|]. split; [vm_compute; discriminate|].
  split; [reflexivity|]. split; [reflexivity|].
  assert (H := memcpy_load_hands_out_p_tail q (fun _ => 0) 6 3 5 eq_refl
                 ltac:(lia) ltac:(reflexivity) ltac:(vm_compute; discriminate)
                 ltac:(vm_compute; discriminate)).
  exact (proj1 (proj2 H) ltac:(lia)).
Defined.

(** ** A bulk call against two smaller ones *)







(** ** Two producers *)

Ltac pair_norm :=
  cbv [Pair.config_at Pair.pc_at Pair.head_at Pair.tail_at Pair.ring_at
       Pair.reserved Pair.has_stored Pair.publishing Pair.is_done Pair.no_head
       Pair.head1 Pair.head2 Pair.next1 Pair.next2 Pair.store1 Pair.store2
       Pair.test_at Pair.sightings_ok Pair.advance1 Pair.advance2
       Pair.order1 Pair.order2 Pair.space_from Pair.next_from Pair.P0 Pair.CT
       implb andb negb orb xorb fst snd] in *.

Ltac pair_tests Hok :=
  repeat first
    [ match type of Hok with
      | context [?a <? ?b] =>
          revert Hok; destruct (a <? b) eqn:?; intros Hok;
          cbv beta iota in Hok; try discriminate Hok
      | context [?a =? ?b] =>
          revert Hok; destruct (a =? b) eqn:?; intros Hok;
          cbv beta iota in Hok; try discriminate Hok
      end
    | match goal with
      | |- context [?a <? ?b] => destruct (a <? b) eqn:?; cbv beta iota
      end ].

Ltac pair_facts :=
  repeat match goal with
         | Hn : ?t = false -> _, E : ?t = false |- _ => specialize (Hn E)
         end;
  repeat match goal with
         | H : ?t = ?v |- context [?t] => rewrite H
         end.

Section PairSteps.
Import Pair.
Variables (q0 : alf_queue) (ptr1 : cells) (n1 : Z) (ptr2 : cells) (n2 : Z).

Hypothesis Hne1 :
  (space_from q0 (P0 q0) <? n1) = false -> (P0 q0 =? next_from q0 (P0 q0) n1) = false.
Hypothesis Hne2 :
  (space_from q0 (P0 q0) <? n2) = false -> (P0 q0 =? next_from q0 (P0 q0) n2) = false.

Local Abbreviation cfg := (config_at q0 ptr1 n1 ptr2 n2).
Local Abbreviation ok := (sightings_ok q0 n1 n2).

Lemma pair_step1 st1 s1 st2 s2 w :
  ok st1 s1 st2 s2 = true ->
  sched_step (cfg st1 s1 st2 s2 w) 0 =
    cfg (fst (advance1 q0 n1 n2 st1 s1 st2)) (snd (advance1 q0 n1 n2 st1 s1 st2))
        st2 s2 (order1 st1 st2 w) /\
  ok (fst (advance1 q0 n1 n2 st1 s1 st2)) (snd (advance1 q0 n1 n2 st1 s1 st2))
     st2 s2 = true.
Proof.
  intros Hok.
  destruct st1, s1, st2, s2, w; pair_norm; try discriminate Hok;
    pair_tests Hok; pair_norm; pair_facts;
    try match goal with
        | H : false = true |- _ => discriminate H
        | H : true = false |- _ => discriminate H
        end;
    (split;
     [ unfold sched_step;
       cbn [threads shared nth_error thread_step enq_step set_nth set_producer
            producer consumer head tail mask size flags ring];
       unfold __helper_alf_enqueue_store, __helper_alf_enqueue_store_mask, set_ring;
       cbn [producer consumer head tail mask size flags ring];
       rewrite ?Z.eqb_refl;
       rewrite ?(Z.eqb_sym _ (head (producer q0)));
       pair_facts; reflexivity
     | pair_facts; reflexivity ]).
Qed.

Lemma pair_step2 st1 s1 st2 s2 w :
  ok st1 s1 st2 s2 = true ->
  sched_step (cfg st1 s1 st2 s2 w) 1 =
    cfg st1 s1 (fst (advance2 q0 n1 n2 st2 s2 st1)) (snd (advance2 q0 n1 n2 st2 s2 st1))
        (order2 st2 st1 w) /\
  ok st1 s1 (fst (advance2 q0 n1 n2 st2 s2 st1)) (snd (advance2 q0 n1 n2 st2 s2 st1))
    = true.
Proof.
  intros Hok.
  destruct st1, s1, st2, s2, w; pair_norm; try discriminate Hok;
    pair_tests Hok; pair_norm; pair_facts;
    try match goal with
        | H : false = true |- _ => discriminate H
        | H : true = false |- _ => discriminate H
        end;
    (split;
     [ unfold sched_step;
       cbn [threads shared nth_error thread_step enq_step set_nth set_producer
            producer consumer head tail mask size flags ring];
       unfold __helper_alf_enqueue_store, __helper_alf_enqueue_store_mask, set_ring;
       cbn [producer consumer head tail mask size flags ring];
       rewrite ?Z.eqb_refl;
       rewrite ?(Z.eqb_sym _ (head (producer q0)));
       pair_facts; reflexivity
     | pair_facts; reflexivity ]).
Qed.

Lemma pair_idle_step st1 s1 st2 s2 w i :
  (2 <= i)%nat -> sched_step (cfg st1 s1 st2 s2 w) i = cfg st1 s1 st2 s2 w.
Proof.
  intros Hi. unfold sched_step, config_at. cbn [threads].
  destruct i as [|[|i]]; try lia. destruct i; reflexivity.
Qed.

(** Every configuration of a run is one of the configurations above. *)
Lemma run_pair sched : forall st1 s1 st2 s2 w,
  ok st1 s1 st2 s2 = true ->
  exists st1' s1' st2' s2' w',
    run sched (cfg st1 s1 st2 s2 w) = cfg st1' s1' st2' s2' w' /\
    ok st1' s1' st2' s2' = true.
Proof.
  unfold run. induction sched as [|i sched IH]; intros st1 s1 st2 s2 w Hok.
  - exists st1, s1, st2, s2, w. split; [reflexivity | assumption].
  - cbn [fold_left]. destruct i as [|[|i]].
    + destruct (pair_step1 st1 s1 st2 s2 w Hok) as [Hs Hok']. rewrite Hs.
      apply IH, Hok'.
    + destruct (pair_step2 st1 s1 st2 s2 w Hok) as [Hs Hok']. rewrite Hs.
      apply IH, Hok'.
    + rewrite pair_idle_step by lia. apply IH, Hok.
Qed.
End PairSteps.

(** A batch of at least one reference that fits ends at another index
    than it starts. *)
Lemma reservation_moves_head q0 n :
  alf_queue_inv q0 -> 1 <= n ->
  (Pair.space_from q0 (Pair.P0 q0) <? n) = false ->
  (Pair.P0 q0 =? Pair.next_from q0 (Pair.P0 q0) n) = false.
Proof.
  intros (Hok & [Hp Hpt] & [Hc Hct]) Hn.
  pose proof (ok_size_pos q0 Hok) as Hs.
  unfold Pair.space_from, Pair.next_from, Pair.P0, Pair.CT.
  rewrite !land_mask by assumption.
  rewrite Z.ltb_ge, Z.eqb_neq. intros Hfit.
  pose proof (Z.mod_pos_bound (tail (consumer q0) - head (producer q0) - 1) (size q0) Hs).
  window (size q0) (head (producer q0) + n); lia.
Qed.

(** Two batches that fit one behind the other are stored in slots of
    their own, so the order of the two stores does not matter. *)
Lemma stores_commute q0 ptr1 n1 ptr2 n2 :
  alf_queue_inv q0 -> 0 <= n1 -> 0 <= n2 ->
  (Pair.space_from q0 (Pair.P0 q0) <? n1) = false ->
  (Pair.space_from q0 (Pair.next_from q0 (Pair.P0 q0) n1) <? n2) = false ->
  forall j,
    enqueue_store_mask_loop (Z.to_nat n1) 0 (Pair.P0 q0) (mask q0) ptr1
      (enqueue_store_mask_loop (Z.to_nat n2) 0 (Pair.next_from q0 (Pair.P0 q0) n1)
         (mask q0) ptr2 (ring q0)) j =
    enqueue_store_mask_loop (Z.to_nat n2) 0 (Pair.next_from q0 (Pair.P0 q0) n1)
      (mask q0) ptr2
      (enqueue_store_mask_loop (Z.to_nat n1) 0 (Pair.P0 q0) (mask q0) ptr1 (ring q0)) j.
Proof.
  intros (Hok & [Hp Hpt] & [Hc Hct]) H1 H2.
  pose proof (ok_size_pos q0 Hok) as Hs. pose proof (ok_size_le q0 Hok) as Hle.
  pose proof (ok_shape q0 Hok) as shape.
  unfold Pair.space_from, Pair.next_from, Pair.P0, Pair.CT.
  rewrite !land_mask by assumption. rewrite !Z.ltb_ge.
  set (P := head (producer q0)) in *. set (C := tail (consumer q0)) in *.
  set (S := size q0) in *.
  intros Hf1 Hf2 j.
  assert (Hsp : 0 <= (C - P - 1) mod S < S) by (apply Z.mod_pos_bound; assumption).
  assert (Hsp2 : (C - (P + n1) mod S - 1) mod S = (C - P - 1) mod S - n1).
  { replace (C - (P + n1) mod S - 1) with (C - 1 - (P + n1) mod S) by lia.
    rewrite Zminus_mod_idemp_r.
    replace (C - 1 - (P + n1)) with (C - P - 1 - n1) by lia.
    rewrite <- Zminus_mod_idemp_l. apply Z.mod_small. lia. }
  rewrite Hsp2 in Hf2.
  rewrite !(enqueue_store_mask_loop_get S (mask q0) shape) by lia.
  rewrite !Z2Nat.id, !Z.add_0_l by lia.
  destruct (Z.leb_spec 0 j); [destruct (Z.ltb_spec j S)|]; cbn [andb];
    try reflexivity.
  rewrite Zminus_mod_idemp_r.
  replace (j - (P + n1)) with (j - P - n1) by lia.
  rewrite <- (Zminus_mod_idemp_l (j - P)).
  assert (Hd : 0 <= (j - P) mod S < S) by (apply Z.mod_pos_bound; assumption).
  window S ((j - P) mod S - n1); rewrite W; split_tests; try lia; reflexivity.
Qed.

(** X19: two enqueue calls of at least one reference each that run at
    the same time on a queue between two calls, the consumer side at
    rest, end exactly as if one of them had run to its end before the
    other began, whatever the interleaving, the failed compare-and-swaps
    and the waits on the tail: the return values, the cursors and every
    cell of the ring are those of one of the two sequential orders. *)
Theorem two_producers_linearizable
    (q0 : alf_queue) (ptr1 : cells) (n1 : Z) (ptr2 : cells) (n2 : Z)
    (sched : list nat) (re1 re2 : Z) :
  alf_queue_inv q0 -> 1 <= n1 < 2 ^ 32 -> 1 <= n2 < 2 ^ 32 ->
  threads (run sched (mk_config q0 [Producer ptr1 n1 EnqReadHead;
                                    Producer ptr2 n2 EnqReadHead])) =
    [Producer ptr1 n1 (EnqReturn re1); Producer ptr2 n2 (EnqReturn re2)] ->
  let q := shared (run sched (mk_config q0 [Producer ptr1 n1 EnqReadHead;
                                            Producer ptr2 n2 EnqReadHead])) in
  (exists q1 q2,
     alf_mp_enqueue q0 ptr1 n1 = Returns re1 q1 /\
     alf_mp_enqueue q1 ptr2 n2 = Returns re2 q2 /\
     producer q = producer q2 /\ consumer q = consumer q2 /\
     size q = size q2 /\ mask q = mask q2 /\ flags q = flags q2 /\
     forall j, ring q j = ring q2 j) \/
  (exists q1 q2,
     alf_mp_enqueue q0 ptr2 n2 = Returns re2 q1 /\
     alf_mp_enqueue q1 ptr1 n1 = Returns re1 q2 /\
     producer q = producer q2 /\ consumer q = consumer q2 /\
     size q = size q2 /\ mask q = mask q2 /\ flags q = flags q2 /\
     forall j, ring q j = ring q2 j).
Proof.
  intros Hinv Hn1 Hn2.
  pose proof (reservation_moves_head q0 n1 Hinv (proj1 Hn1)) as Hne1.
  pose proof (reservation_moves_head q0 n2 Hinv (proj1 Hn2)) as Hne2.
  pose proof (stores_commute q0 ptr1 n1 ptr2 n2 Hinv ltac:(lia) ltac:(lia)) as Hc12.
  pose proof (stores_commute q0 ptr2 n2 ptr1 n1 Hinv ltac:(lia) ltac:(lia)) as Hc21.
  destruct q0 as [sz mk fl [ph pt] [ch ct] rg].
  assert (Hpt : pt = ph) by apply Hinv.
  assert (Hct : ct = ch) by apply Hinv.
  subst pt ct. clear Hinv.
  set (Q := mk_queue sz mk fl (mk_actor ph ph) (mk_actor ch ch) rg) in *.
  change (mk_config Q [Producer ptr1 n1 EnqReadHead; Producer ptr2 n2 EnqReadHead])
    with (Pair.config_at Q ptr1 n1 ptr2 n2 Pair.ReadHead false Pair.ReadHead false false).
  destruct (run_pair Q ptr1 n1 ptr2 n2 Hne1 Hne2 sched
              Pair.ReadHead false Pair.ReadHead false false eq_refl)
    as (st1 & s1 & st2 & s2 & w & Hrun & Hok).
  rewrite Hrun. intros Hth q. subst q.
  unfold Pair.config_at in Hth |- *. cbn [threads shared] in Hth |- *.
  injection Hth as Hpc1 Hpc2. clear Hrun.
  destruct st1; try discriminate Hpc1; destruct st2; try discriminate Hpc2;
    destruct s1, s2, w; subst Q; pair_norm;
    cbn [producer consumer head tail mask size flags ring] in *;
    try discriminate Hok;
    injection Hpc1 as <-; injection Hpc2 as <-;
    pair_tests Hok; pair_facts;
    try match goal with
        | H : false = true |- _ => discriminate H
        | H : true = false |- _ => discriminate H
        end.
  all: first
    [ left; solve
        [ eexists; eexists; split;
          [ rewrite alf_mp_enqueue_on; cbn [tail head]; pair_facts; reflexivity
          | split;
            [ rewrite alf_mp_enqueue_on; cbn [tail head]; pair_facts; reflexivity
            | cbn [producer consumer size mask flags ring];
              repeat (split; [reflexivity|]);
              intros j; first [reflexivity | apply Hc12; reflexivity
                              | symmetry; apply Hc12; reflexivity] ] ] ]
    | right; solve
        [ eexists; eexists; split;
          [ rewrite alf_mp_enqueue_on; cbn [tail head]; pair_facts; reflexivity
          | split;
            [ rewrite alf_mp_enqueue_on; cbn [tail head]; pair_facts; reflexivity
            | cbn [producer consumer size mask flags ring];
              repeat (split; [reflexivity|]);
              intros j; first [reflexivity | apply Hc21; reflexivity
                              | symmetry; apply Hc21; reflexivity] ] ] ] ].
Qed.

Lemma two_producers_linearizable_witness :
  let q0 := mk_queue 8 7 0 (mk_actor 6 6) (mk_actor 6 6) (fun _ => 0) in
  let a1 := array_of [1; 2] in
  let a2 := array_of [3; 4; 5] in
  let q := shared (run [0; 1; 1; 1; 0; 0; 0; 0; 0; 0; 0; 0; 1; 1; 1; 0; 0]%nat
                     (mk_config q0 [Producer a1 2 EnqReadHead;
                                    Producer a2 3 EnqReadHead])) in
  (exists q1 q2,
      alf_mp_enqueue q0 a1 2 = Returns 2 q1 /\
      alf_mp_enqueue q1 a2 3 = Returns 3 q2 /\
      producer q = producer q2 /\ consumer q = consumer q2 /\
      size q = size q2 /\ mask q = mask q2 /\ flags q = flags q2 /\
      forall j, ring q j = ring q2 j) \/
  (exists q1 q2,
      alf_mp_enqueue q0 a2 3 = Returns 3 q1 /\
      alf_mp_enqueue q1 a1 2 = Returns 2 q2 /\
      producer q = producer q2 /\ consumer q = consumer q2 /\
      size q = size q2 /\ mask q = mask q2 /\ flags q = flags q2 /\
      forall j, ring q j = ring q2 j).
Proof.
  intros q0 a1 a2.
  apply (two_producers_linearizable q0 a1 2 a2 3
           [0; 1; 1; 1; 0; 0; 0; 0; 0; 0; 0; 0; 1; 1; 1; 0; 0]%nat 2 3).
  - concrete_inv.
  - lia.
  - lia.
  - reflexivity.
Defined.

(** ** A call of length zero overtaken by another call *)

Lemma stuck_forever (c : config) :
  (forall i, sched_step c i = c) -> forall sched, run sched c = c.
Proof.
  intros Hc sched. unfold run. induction sched as [|i sched IH]; [reflexivity|].
  cbn [fold_left]. rewrite Hc. exact IH.
Qed.

Lemma run_step (i : nat) (l : list nat) (c : config) :
  fold_left sched_step (i :: l) c = fold_left sched_step l (sched_step c i).
Proof. reflexivity. Qed.

Lemma sched_step_eq (c : config) (i : nat) :
  sched_step c i =
  match nth_error (threads c) i with
  | Some t =>
      let '(q', t') := thread_step (shared c) t in
      mk_config q' (set_nth i t' (threads c))
  | None => c
  end.
Proof. reflexivity. Qed.

(** X20: an enqueue of no references that has taken its reservation is
    left waiting for ever when another enqueue of at least one reference
    reserves and publishes behind it: the tail has moved past the index
    the first call waits for.  From a queue between two calls with room
    for [n >= 1] references, once call 0 (length 0) has reserved and
    call 1 (length [n]) has run to its end, call 1 has returned [n] and,
    whatever steps follow, call 0 stays in its wait loop. *)
Theorem zero_length_enqueue_can_hang
    (q0 : alf_queue) (ptr0 ptr : cells) (n : Z) (sched : list nat) :
  alf_queue_inv q0 -> 1 <= n <= alf_queue_avail_space q0 ->
  let c := run ([0; 0; 0; 0; 1; 1; 1; 1; 1; 1]%nat ++ sched)
               (mk_config q0 [Producer ptr0 0 EnqReadHead;
                              Producer ptr n EnqReadHead]) in
  threads c =
    [Producer ptr0 0 (EnqWait (head (producer q0)) (head (producer q0)));
     Producer ptr n (EnqReturn n)] /\
  tail (producer (shared c)) = (head (producer q0) + n) mod size q0 /\
  tail (producer (shared c)) <> head (producer q0).
Proof.
  intros Hinv Hn.
  pose proof Hinv as (Hok & [Hp Hpt] & [Hc Hct]).
  pose proof (ok_size_pos q0 Hok) as Hs.
  pose proof (ok_size_le q0 Hok) as Hle.
  rewrite alf_queue_avail_space_mod in Hn by assumption.
  pose proof (Z.mod_pos_bound (tail (consumer q0) - head (producer q0) - 1) (size q0) Hs)
    as Hsp.
  assert (Hne : (head (producer q0) + n) mod size q0 <> head (producer q0)).
  { window (size q0) (head (producer q0) + n); lia. }
  destruct q0 as [sz mk fl [ph pt] [ch ct] rg].
  cbn [producer consumer head tail size mask] in *. subst pt ct.
  set (Q := mk_queue sz mk fl (mk_actor ph ph) (mk_actor ch ch) rg) in *.
  assert (Hland : forall x, Z.land (u32 x) mk = x mod sz).
  { intros x. exact (land_mask Q x Hok). }
  unfold run. rewrite fold_left_app.
  fold (run sched).
  assert (Hpre :
    fold_left sched_step [0; 0; 0; 0; 1; 1; 1; 1; 1; 1]%nat
      (mk_config Q [Producer ptr0 0 EnqReadHead; Producer ptr n EnqReadHead]) =
    mk_config
      (mk_queue sz mk fl (mk_actor ((ph + n) mod sz) ((ph + n) mod sz))
         (mk_actor ch ch)
         (enqueue_store_mask_loop (Z.to_nat n) 0 ph mk ptr rg))
      [Producer ptr0 0 (EnqWait ph ph); Producer ptr n (EnqReturn n)]).
  { subst Q.
    assert (T0 : ((ch - ph - 1) mod sz <? 0) = false) by (apply Z.ltb_ge; lia).
    assert (Tn : ((ch - ph - 1) mod sz <? n) = false) by (apply Z.ltb_ge; lia).
    assert (En : ((ph + n) mod sz =? ph) = false) by (apply Z.eqb_neq; exact Hne).
    do 10 (rewrite run_step, sched_step_eq;
            cbn [threads shared nth_error thread_step enq_step set_nth];
            unfold __helper_alf_enqueue_store, __helper_alf_enqueue_store_mask,
              set_ring, set_producer;
            cbn [producer consumer head tail mask size flags ring Z.to_nat
                 enqueue_store_mask_loop];
            rewrite ?Hland, ?Z.add_0_r, ?(Z.mod_small ph sz),
                      ?T0, ?Tn, ?Z.eqb_refl by lia;
            cbn [threads shared nth_error thread_step enq_step set_nth]).
    rewrite (sint_small n) by lia. reflexivity. }
  rewrite Hpre.
  rewrite stuck_forever.
  - cbn [threads shared producer tail head]. split; [reflexivity|]. split; [reflexivity | exact Hne].
  - intros [|[|i]]; rewrite sched_step_eq;
      cbn [threads shared nth_error thread_step enq_step set_nth producer tail];
      [|reflexivity|destruct i; reflexivity].
    destruct (Z.eqb_spec ((ph + n) mod sz) ph) as [E|_]; [contradiction|].
    reflexivity.
Qed.

Lemma zero_length_enqueue_can_hang_witness :
  let q0 := mk_queue 8 7 0 (mk_actor 6 6) (mk_actor 6 6) (fun _ => 0) in
  let c := run ([0; 0; 0; 0; 1; 1; 1; 1; 1; 1]%nat ++ [0; 1; 0; 0]%nat)
               (mk_config q0 [Producer (array_of []) 0 EnqReadHead;
                              Producer (array_of [1; 2; 3]) 3 EnqReadHead]) in
  threads c =
    [Producer (array_of []) 0 (EnqWait 6 6);
     Producer (array_of [1; 2; 3]) 3 (EnqReturn 3)] /\
  tail (producer (shared c)) = (6 + 3) mod 8 /\
  tail (producer (shared c)) <> 6.
Proof.
  intros q0.
  apply (zero_length_enqueue_can_hang q0 (array_of []) (array_of [1; 2; 3]) 3
           [0; 1; 0; 0]%nat).
  - concrete_inv.
  - vm_compute. split; discriminate.
Defined.

(** X21: the same on the consumer side.  On a queue that holds at least
    one reference, a dequeue call of length 0 takes an empty reservation
    at the consumer head; once another dequeue call of length [m >= 1]
    has then run to its end, that call has returned
    [k = min (count, m)] references and moved the consumer tail to
    [(head + k) mod size], which is not the index the call of length 0
    waits for: whichever of the two calls is stepped afterwards, the call
    of length 0 stays in its wait loop. *)
Theorem zero_length_dequeue_can_hang
    (q0 : alf_queue) (out0 out : cells) (m : Z) (sched : list nat) :
  alf_queue_inv q0 -> 1 <= alf_queue_count q0 -> 1 <= m < 2 ^ 32 ->
  let k := Z.min (alf_queue_count q0) m in
  let c := run ([0; 0; 0; 0; 1; 1; 1; 1; 1; 1]%nat ++ sched)
               (mk_config q0 [Consumer out0 0 DeqReadHead;
                              Consumer out m DeqReadHead]) in
  threads c =
    [Consumer out0 0 (DeqWait (head (consumer q0)) (head (consumer q0)) 0);
     Consumer (__helper_alf_dequeue_load (head (consumer q0)) (tail (producer q0))
                 q0 out k) m (DeqReturn k)] /\
  tail (consumer (shared c)) = (head (consumer q0) + k) mod size q0 /\
  tail (consumer (shared c)) <> head (consumer q0).
Proof.
  intros Hinv Hcnt Hm.
  pose proof Hinv as (Hok & [Hp Hpt] & [Hc Hct]).
  pose proof (ok_size_pos q0 Hok) as Hs.
  pose proof (ok_size_le q0 Hok) as Hle.
  rewrite alf_queue_count_mod in * by assumption.
  pose proof (Z.mod_pos_bound (tail (producer q0) - head (consumer q0)) (size q0) Hs)
    as Hsp.
  remember (Z.min ((tail (producer q0) - head (consumer q0)) mod size q0) m)
    as k eqn:Ek.
  assert (Hk : 1 <= k < size q0) by (subst k; lia).
  assert (Hne : (head (consumer q0) + k) mod size q0 <> head (consumer q0)).
  { window (size q0) (head (consumer q0) + k); lia. }
  destruct q0 as [sz mk fl [ph pt] [ch ct] rg].
  cbn [producer consumer head tail size mask] in *. subst pt ct.
  set (Q := mk_queue sz mk fl (mk_actor ph ph) (mk_actor ch ch) rg) in *.
  assert (Hland : forall x, Z.land (u32 x) mk = x mod sz).
  { intros x. exact (land_mask Q x Hok). }
  unfold run. rewrite fold_left_app.
  fold (run sched).
  assert (Hpre :
    fold_left sched_step [0; 0; 0; 0; 1; 1; 1; 1; 1; 1]%nat
      (mk_config Q [Consumer out0 0 DeqReadHead; Consumer out m DeqReadHead]) =
    mk_config
      (mk_queue sz mk fl (mk_actor ph ph)
         (mk_actor ((ch + k) mod sz) ((ch + k) mod sz)) rg)
      [Consumer out0 0 (DeqWait ch ch 0);
       Consumer (__helper_alf_dequeue_load ch ph Q out k) m (DeqReturn k)]).
  { subst Q.
    assert (T0 : ((ph - ch) mod sz =? 0) = false) by (apply Z.eqb_neq; lia).
    assert (M0 : Z.min ((ph - ch) mod sz) 0 = 0) by lia.
    do 10 (rewrite run_step, sched_step_eq;
            cbn [threads shared nth_error thread_step deq_step set_nth];
            unfold set_consumer;
            cbn [producer consumer head tail mask size flags ring];
            rewrite ?Hland, ?T0, ?M0, <- ?Ek, ?Z.add_0_r, ?(Z.mod_small ch sz),
              ?Z.eqb_refl by lia;
            cbn [threads shared nth_error thread_step deq_step set_nth]).
    rewrite (sint_small k) by lia. reflexivity. }
  rewrite Hpre.
  rewrite stuck_forever.
  - cbn [threads shared consumer tail head].
    split; [reflexivity|]. split; [reflexivity | exact Hne].
  - intros [|[|i]]; rewrite sched_step_eq;
      cbn [threads shared nth_error thread_step deq_step set_nth consumer tail];
      [|reflexivity|destruct i; reflexivity].
    destruct (Z.eqb_spec ((ch + k) mod sz) ch) as [E|_]; [contradiction|].
    reflexivity.
Qed.

Lemma zero_length_dequeue_can_hang_witness :
  let q0 := mk_queue 8 7 0 (mk_actor 1 1) (mk_actor 6 6)
              (store (store (store (fun _ => 0) 6 11) 7 12) 0 13) in
  let out0 := array_of [] in
  let out := array_of [] in
  let k := Z.min (alf_queue_count q0) 2 in
  let c := run ([0; 0; 0; 0; 1; 1; 1; 1; 1; 1]%nat ++ [0; 1; 0; 0]%nat)
               (mk_config q0 [Consumer out0 0 DeqReadHead;
                              Consumer out 2 DeqReadHead]) in
  threads c =
    [Consumer out0 0 (DeqWait 6 6 0);
     Consumer (__helper_alf_dequeue_load 6 1 q0 out k) 2 (DeqReturn k)] /\
  tail (consumer (shared c)) = (6 + k) mod 8 /\
  tail (consumer (shared c)) <> 6.
Proof.
  intros q0 out0 out.
  apply (zero_length_dequeue_can_hang q0 out0 out 2 [0; 1; 0; 0]%nat).
  - concrete_inv.
  - vm_compute. discriminate.
  - lia.
Defined.

(** ** Two consumers *)

Ltac twin_norm :=
  cbv [Twin.config_at Twin.pc_at Twin.head_at Twin.tail_at Twin.out1_at
       Twin.out2_at Twin.reserved Twin.has_loaded Twin.publishing Twin.is_done
       Twin.no_head Twin.head1 Twin.head2 Twin.next1 Twin.next2 Twin.elems1
       Twin.elems2 Twin.load1 Twin.load2 Twin.test_at Twin.sightings_ok
       Twin.advance1 Twin.advance2 Twin.count_from Twin.elems_from
       Twin.next_from Twin.C0 Twin.PT implb andb negb orb xorb fst snd] in *.

Ltac twin_tests Hok :=
  repeat first
    [ match type of Hok with
      | context [?a =? ?b] =>
          revert Hok; destruct (a =? b) eqn:?; intros Hok;
          cbv beta iota in Hok; try discriminate Hok
      end
    | match goal with
      | |- context [?a =? ?b] => destruct (a =? b) eqn:?; cbv beta iota
      end ].

Ltac twin_facts :=
  repeat match goal with
         | H : ?a = ?a -> _ |- _ => specialize (H eq_refl)
         end;
  pair_facts.

Section TwinSteps.
Import Twin.
Variables (q0 : alf_queue) (out1 : cells) (m1 : Z) (out2 : cells) (m2 : Z).

Hypothesis Hne1 :
  (count_from q0 (C0 q0) =? 0) = false -> (C0 q0 =? next_from q0 (C0 q0) m1) = false.
Hypothesis Hne2 :
  (count_from q0 (C0 q0) =? 0) = false -> (C0 q0 =? next_from q0 (C0 q0) m2) = false.

Local Abbreviation cfg := (config_at q0 out1 m1 out2 m2).
Local Abbreviation ok := (sightings_ok q0 m1 m2).

Lemma twin_step1 st1 s1 st2 s2 :
  ok st1 s1 st2 s2 = true ->
  sched_step (cfg st1 s1 st2 s2) 0 =
    cfg (fst (advance1 q0 m2 st1 s1 st2)) (snd (advance1 q0 m2 st1 s1 st2)) st2 s2 /\
  ok (fst (advance1 q0 m2 st1 s1 st2)) (snd (advance1 q0 m2 st1 s1 st2)) st2 s2 = true.
Proof.
  intros Hok.
  destruct st1, s1, st2, s2; twin_norm; try discriminate Hok;
    twin_tests Hok; twin_norm; twin_facts;
    try match goal with
        | H : false = true |- _ => discriminate H
        | H : true = false |- _ => discriminate H
        end;
    (split;
     [ unfold sched_step;
       cbn [threads shared nth_error thread_step deq_step set_nth set_consumer
            producer consumer head tail mask size flags ring];
       unfold __helper_alf_dequeue_load, __helper_alf_dequeue_load_mask;
       cbn [producer consumer head tail mask size flags ring];
       rewrite ?Z.eqb_refl;
       rewrite ?(Z.eqb_sym _ (head (consumer q0)));
       pair_facts; reflexivity
     | pair_facts; reflexivity ]).
Qed.

Lemma twin_step2 st1 s1 st2 s2 :
  ok st1 s1 st2 s2 = true ->
  sched_step (cfg st1 s1 st2 s2) 1 =
    cfg st1 s1 (fst (advance2 q0 m1 st2 s2 st1)) (snd (advance2 q0 m1 st2 s2 st1)) /\
  ok st1 s1 (fst (advance2 q0 m1 st2 s2 st1)) (snd (advance2 q0 m1 st2 s2 st1)) = true.
Proof.
  intros Hok.
  destruct st1, s1, st2, s2; twin_norm; try discriminate Hok;
    twin_tests Hok; twin_norm; twin_facts;
    try match goal with
        | H : false = true |- _ => discriminate H
        | H : true = false |- _ => discriminate H
        end;
    (split;
     [ unfold sched_step;
       cbn [threads shared nth_error thread_step deq_step set_nth set_consumer
            producer consumer head tail mask size flags ring];
       unfold __helper_alf_dequeue_load, __helper_alf_dequeue_load_mask;
       cbn [producer consumer head tail mask size flags ring];
       rewrite ?Z.eqb_refl;
       rewrite ?(Z.eqb_sym _ (head (consumer q0)));
       pair_facts; reflexivity
     | pair_facts; reflexivity ]).
Qed.

Lemma twin_idle_step st1 s1 st2 s2 i :
  (2 <= i)%nat -> sched_step (cfg st1 s1 st2 s2) i = cfg st1 s1 st2 s2.
Proof.
  intros Hi. unfold sched_step, config_at. cbn [threads].
  destruct i as [|[|i]]; try lia. destruct i; reflexivity.
Qed.

(** Every configuration of a run is one of the configurations above. *)
Lemma run_twin sched : forall st1 s1 st2 s2,
  ok st1 s1 st2 s2 = true ->
  exists st1' s1' st2' s2',
    run sched (cfg st1 s1 st2 s2) = cfg st1' s1' st2' s2' /\
    ok st1' s1' st2' s2' = true.
Proof.
  unfold run. induction sched as [|i sched IH]; intros st1 s1 st2 s2 Hok.
  - exists st1, s1, st2, s2. split; [reflexivity | assumption].
  - cbn [fold_left]. destruct i as [|[|i]].
    + destruct (twin_step1 st1 s1 st2 s2 Hok) as [Hs Hok']. rewrite Hs.
      apply IH, Hok'.
    + destruct (twin_step2 st1 s1 st2 s2 Hok) as [Hs Hok']. rewrite Hs.
      apply IH, Hok'.
    + rewrite twin_idle_step by lia. apply IH, Hok.
Qed.
End TwinSteps.

(** A dequeue of at least one reference from a queue that is not empty
    ends at another index than it starts. *)
Lemma take_moves_head q0 m :
  alf_queue_inv q0 -> 1 <= m ->
  (Twin.count_from q0 (Twin.C0 q0) =? 0) = false ->
  (Twin.C0 q0 =? Twin.next_from q0 (Twin.C0 q0) m) = false.
Proof.
  intros (Hok & [Hp Hpt] & [Hc Hct]) Hm.
  pose proof (ok_size_pos q0 Hok) as Hs.
  unfold Twin.next_from, Twin.elems_from, Twin.count_from, Twin.C0, Twin.PT.
  rewrite !land_mask by assumption.
  rewrite !Z.eqb_neq. intros Hcnt.
  pose proof (Z.mod_pos_bound (tail (producer q0) - head (consumer q0)) (size q0) Hs).
  set (k := Z.min ((tail (producer q0) - head (consumer q0)) mod size q0) m).
  assert (Hk : 1 <= k < size q0) by (subst k; lia).
  clearbody k.
  window (size q0) (head (consumer q0) + k); lia.
Qed.

(** X22: two dequeue calls of length at least one that run at the same
    time on a queue between two calls, the producer side at rest, end
    exactly as if one of them had run to its end before the other began,
    whatever the interleaving, the failed compare-and-swaps and the waits
    on the tail: the return values, the final queue and both callers'
    arrays are those of one of the two sequential orders. *)
Theorem two_consumers_linearizable
    (q0 : alf_queue) (out1 : cells) (m1 : Z) (out2 : cells) (m2 : Z)
    (sched : list nat) (re1 re2 : Z) (o1 o2 : cells) :
  alf_queue_inv q0 -> 1 <= m1 < 2 ^ 32 -> 1 <= m2 < 2 ^ 32 ->
  threads (run sched (mk_config q0 [Consumer out1 m1 DeqReadHead;
                                    Consumer out2 m2 DeqReadHead])) =
    [Consumer o1 m1 (DeqReturn re1); Consumer o2 m2 (DeqReturn re2)] ->
  let q := shared (run sched (mk_config q0 [Consumer out1 m1 DeqReadHead;
                                            Consumer out2 m2 DeqReadHead])) in
  (exists q1,
     alf_mc_dequeue q0 out1 m1 = Returns re1 (q1, o1) /\
     alf_mc_dequeue q1 out2 m2 = Returns re2 (q, o2)) \/
  (exists q1,
     alf_mc_dequeue q0 out2 m2 = Returns re2 (q1, o2) /\
     alf_mc_dequeue q1 out1 m1 = Returns re1 (q, o1)).
Proof.
  intros Hinv Hm1 Hm2.
  pose proof (take_moves_head q0 m1 Hinv (proj1 Hm1)) as Hne1.
  pose proof (take_moves_head q0 m2 Hinv (proj1 Hm2)) as Hne2.
  destruct q0 as [sz mk fl [ph pt] [ch ct] rg].
  assert (Hpt : pt = ph) by apply Hinv.
  assert (Hct : ct = ch) by apply Hinv.
  subst pt ct. clear Hinv.
  set (Q := mk_queue sz mk fl (mk_actor ph ph) (mk_actor ch ch) rg) in *.
  change (mk_config Q [Consumer out1 m1 DeqReadHead; Consumer out2 m2 DeqReadHead])
    with (Twin.config_at Q out1 m1 out2 m2 Twin.ReadHead false Twin.ReadHead false).
  destruct (run_twin Q out1 m1 out2 m2 Hne1 Hne2 sched
              Twin.ReadHead false Twin.ReadHead false eq_refl)
    as (st1 & s1 & st2 & s2 & Hrun & Hok).
  rewrite Hrun. intros Hth q. subst q.
  unfold Twin.config_at in Hth |- *. cbn [threads shared] in Hth |- *.
  injection Hth as Ho1 Hpc1 Ho2 Hpc2. clear Hrun.
  destruct st1; try discriminate Hpc1; destruct st2; try discriminate Hpc2;
    destruct s1, s2; subst Q; twin_norm;
    cbn [producer consumer head tail mask size flags ring] in *;
    try discriminate Hok;
    injection Hpc1 as <-; injection Hpc2 as <-; subst o1 o2;
    twin_tests Hok; twin_facts;
    try match goal with
        | H : false = true |- _ => discriminate H
        | H : true = false |- _ => discriminate H
        end.
  all: first
    [ left; solve
        [ eexists; split;
          [ rewrite alf_mc_dequeue_on; cbn [tail head]; twin_facts; reflexivity
          | rewrite alf_mc_dequeue_on; cbn [tail head]; twin_facts; reflexivity ] ]
    | right; solve
        [ eexists; split;
          [ rewrite alf_mc_dequeue_on; cbn [tail head]; twin_facts; reflexivity
          | rewrite alf_mc_dequeue_on; cbn [tail head]; twin_facts; reflexivity ] ] ].
Qed.

Lemma two_consumers_linearizable_witness :
  let q0 := mk_queue 8 7 0 (mk_actor 1 1) (mk_actor 6 6)
              (store (store (store (fun _ => 0) 6 11) 7 12) 0 13) in
  let out := array_of [] in
  let o1 := dequeue_load_mask_loop 1 0 0 7 (ring q0) out in
  let o2 := dequeue_load_mask_loop 2 0 6 7 (ring q0) out in
  let q := shared (run [0; 1; 1; 1; 0; 0; 0; 0; 0; 0; 0; 0; 1; 1; 1; 0; 0]%nat
                     (mk_config q0 [Consumer out 2 DeqReadHead;
                                    Consumer out 2 DeqReadHead])) in
  (exists q1,
      alf_mc_dequeue q0 out 2 = Returns 1 (q1, o1) /\
      alf_mc_dequeue q1 out 2 = Returns 2 (q, o2)) \/
  (exists q1,
      alf_mc_dequeue q0 out 2 = Returns 2 (q1, o2) /\
      alf_mc_dequeue q1 out 2 = Returns 1 (q, o1)).
Proof.
  intros q0 out o1 o2.
  apply (two_consumers_linearizable q0 out 2 out 2
           [0; 1; 1; 1; 0; 0; 0; 0; 0; 0; 0; 0; 1; 1; 1; 0; 0]%nat 1 2 o1 o2).
  - concrete_inv.
  - lia.
  - lia.
  - reflexivity.
Defined.
